(** * Shape detector: a shallow embedding of [src/main.ts]

    The detection pipeline of [ShapeDetector] (grayscale reduction, Otsu
    binarisation, flood-fill component extraction, Moore-neighbour
    boundary tracing, Ramer-Douglas-Peucker simplification and the
    rule-based classifier) is transcribed function by function, and the
    properties of the specification are stated over the transcription.

    JavaScript numbers are IEEE-754 binary64 values: they are modelled
    by Rocq's primitive [float]s, whose operations are the correctly
    rounded ones.  Quantities that the program only ever uses as integers
    (pixel coordinates, array indices, histogram counts) are kept in [Z]
    or [nat] and converted with [ofZ] where the program does float
    arithmetic on them. *)

From Stdlib Require Import ZArith List Lia Bool Floats String Sorted.
From Stdlib Require Uint63.
From stdpp Require Import base list gmap sorting.

Open Scope Z_scope.

(** ** JavaScript numbers *)

Module JS.

Abbreviation number := float.

(** The double nearest to an integer (exact below 2^53). *)
Definition ofZ (z : Z) : number :=
  SF2Prim (binary_normalize prec emax z 0 false).

Definition ofNat (n : nat) : number := ofZ (Z.of_nat n).

(** [a > b] and [a < b] of JavaScript: false as soon as one side is NaN. *)
Definition gt (a b : number) : bool := (b <? a)%float.
Definition lt (a b : number) : bool := (a <? b)%float.

(** [Math.PI], the double 3.141592653589793. *)
Definition Math_PI : number := 0x1.921fb54442d18p+1%float.

(** [Math.min] and [Math.max] of two arguments: NaN is contagious and
    [-0] is smaller than [+0]. *)
Definition Math_min (a b : number) : number :=
  if is_nan a || is_nan b then nan
  else if (a <? b)%float then a
  else if (b <? a)%float then b
  else if get_sign a then a else b.

Definition Math_max (a b : number) : number :=
  if is_nan a || is_nan b then nan
  else if (a <? b)%float then b
  else if (b <? a)%float then a
  else if get_sign a then b else a.

(** Rounding of the quotient [n / d] to the nearest integer, ties to even. *)
Definition round_half_even (n d : Z) : Z :=
  let q := n / d in
  let r := n mod d in
  match 2 * r ?= d with
  | Lt => q
  | Gt => q + 1
  | Eq => if Z.even q then q else q + 1
  end.

(** The conversion applied by a store into a [Uint8ClampedArray]
    (ECMAScript [ToUint8Clamp]): NaN becomes 0, the value is clamped to
    [0, 255] and rounded to the nearest integer, ties to even. *)
Definition ToUint8Clamp (v : number) : Z :=
  match Prim2SF v with
  | S754_nan => 0
  | S754_zero _ => 0
  | S754_infinity s => if s then 0 else 255
  | S754_finite true _ _ => 0
  | S754_finite false m e =>
      Z.min 255
        (if 0 <=? e then Z.pos m * 2 ^ e
         else round_half_even (Z.pos m) (2 ^ (- e)))
  end.

End JS.
Export JS.

(** ** Outcomes of a call

    A call returns normally, throws, or (for the loops and recursions
    of the program that have no bound of their own) has not returned
    within the given number of steps. *)

Inductive outcome (A : Type) : Type :=
| Ok (a : A)
| Throw (e : string)
| OutOfFuel.
Arguments Ok {A} a.
Arguments Throw {A} e.
Arguments OutOfFuel {A}.

Global Instance outcome_ret : MRet outcome := fun A a => Ok a.

Global Instance outcome_bind : MBind outcome := fun A B k o =>
  match o with
  | Ok a => k a
  | Throw e => Throw e
  | OutOfFuel => OutOfFuel
  end.

Definition returns {A} (o : outcome A) : Prop := exists a, o = Ok a.
Definition throws {A} (o : outcome A) : Prop := exists e, o = Throw e.

(** ** Data model *)

(** A pixel coordinate.  Every [Point] the pipeline builds has integer
    coordinates (loop indices plus offsets in [-1, 1]). *)
Record Point := mkPoint { px : Z; py : Z }.

Global Instance Point_eq_dec : EqDecision Point.
Proof. solve_decision. Defined.

Global Instance Point_inhabited : Inhabited Point := populate (mkPoint 0 0).

(** The centroid is the only [Point] of the program with fractional
    coordinates. *)
Record Center := mkCenter { cx : number; cy : number }.

Record BoundingBox := mkBox
  { bx : number; by_ : number; bwidth : number; bheight : number }.

(** [type] is the string the program stores.  The interface declares
    the labels circle, triangle, rectangle, pentagon and star; the
    program also stores "square". *)
Record DetectedShape := mkShape
  { type : string;
    confidence : number;
    boundingBox : BoundingBox;
    center : Center;
    area : nat }.

Record DetectionResult := mkResult
  { shapes : list DetectedShape;
    processingTime : number;
    imageWidth : nat;
    imageHeight : nat }.

(** [ImageData]: an RGBA byte buffer with its dimensions.  The browser
    type guarantees [length data = 4 * width * height]; the record does
    not, so that inputs breaking that contract can be written down.
    [width] and [height] are natural numbers, as the attributes of the
    browser type are; the buffers of [width * height] entries that the
    stages create are taken to be granted, whatever their size. *)
Record ImageData := mkImage
  { data : list Z; width : nat; height : nat }.

Definition well_formed (img : ImageData) : Prop :=
  length (data img) = (4 * width img * height img)%nat.

(** ** 1.a Grayscale conversion *)

(** [data[i]] read as a number: [undefined] out of range, which the
    arithmetic turns into NaN. *)
Definition readByte (d : list Z) (i : nat) : number :=
  match d !! i with
  | Some b => ofZ b
  | None => nan
  end.

Definition grayOf (d : list Z) (i : nat) : Z :=
  let r := readByte d i in
  let g := readByte d (i + 1) in
  let b := readByte d (i + 2) in
  (* 0.299 * r + 0.587 * g + 0.114 * b *)
  ToUint8Clamp (0x1.322d0e5604189p-2 * r + 0x1.2c8b439581062p-1 * g
                + 0x1.d2f1a9fbe76c9p-4 * b)%float.

(** The loop [for (i = 0, j = 0; i < data.length; i += 4, j++)]: entry
    [j] of the result comes from offset [4 * j]; a store past the end of
    the typed array is dropped, and entries never stored stay 0. *)
Definition toGrayscale (img : ImageData) : list Z :=
  let n := (width img * height img)%nat in
  let pixels := Nat.div (length (data img) + 3) 4 in
  let written := map (fun j => grayOf (data img) (4 * j)) (seq 0 pixels) in
  take n written ++ replicate (n - length written) 0.

(** ** 1.b Otsu binarisation *)

Module Otsu.

(** [histogram[g]++] for every entry of the buffer.  The buffer is a
    [Uint8ClampedArray], so every [g] is an index of the 256 bins. *)
Definition bump (hist : list Z) (g : Z) : list Z :=
  alter (fun c => c + 1) (Z.to_nat g) hist.

Definition histogramOf (grayData : list Z) : list Z :=
  fold_left bump grayData (replicate 256 0).

Definition totalIntensityOf (grayData : list Z) : Z :=
  fold_left Z.add grayData 0.

(** The variables of the sweep.  [divisors] is a ghost field: it
    records the pair of denominators of every iteration that reaches
    the two divisions. *)
Record sweepState := mkSweep
  { wB : Z;
    sum : Z;
    maxVariance : number;
    optimalThreshold : Z;
    divisors : list (Z * Z) }.

Definition sweepInit : sweepState := mkSweep 0 0 0%float 0 [].

(** [wB * wF * (mB - mF) * (mB - mF)] with [mB = sum / wB] and
    [mF = (totalIntensity - sum) / wF]. *)
Definition varianceOf (wB wF sum totalIntensity : Z) : number :=
  let mB := (ofZ sum / ofZ wB)%float in
  let mF := (ofZ (totalIntensity - sum) / ofZ wF)%float in
  (ofZ wB * ofZ wF * (mB - mF) * (mB - mF))%float.

(** The body of [for (t = 0; t < 256; t++)] over the remaining values
    of [t]; [continue] moves on to the next [t], [break] returns. *)
Fixpoint sweep (hist : list Z) (pixelCount totalIntensity : Z)
         (ts : list Z) (st : sweepState) : sweepState :=
  match ts with
  | [] => st
  | t :: ts' =>
      let wB' := wB st + default 0 (hist !! Z.to_nat t) in
      if wB' =? 0 then
        sweep hist pixelCount totalIntensity ts'
              (mkSweep wB' (sum st) (maxVariance st) (optimalThreshold st)
                       (divisors st))
      else
        let wF := pixelCount - wB' in
        if wF =? 0 then
          mkSweep wB' (sum st) (maxVariance st) (optimalThreshold st)
                  (divisors st)
        else
          let sum' := sum st + t * default 0 (hist !! Z.to_nat t) in
          let variance := varianceOf wB' wF sum' totalIntensity in
          let log := divisors st ++ [(wB', wF)] in
          if gt variance (maxVariance st) then
            sweep hist pixelCount totalIntensity ts'
                  (mkSweep wB' sum' variance t log)
          else
            sweep hist pixelCount totalIntensity ts'
                  (mkSweep wB' sum' (maxVariance st) (optimalThreshold st) log)
  end.

Definition thresholds : list Z := map Z.of_nat (seq 0 256).

Definition runSweep (grayData : list Z) (width height : nat) : sweepState :=
  sweep (histogramOf grayData) (Z.of_nat width * Z.of_nat height)
        (totalIntensityOf grayData) thresholds sweepInit.

Definition otsuThreshold (grayData : list Z) (width height : nat) : Z :=
  optimalThreshold (runSweep grayData width height).

(** [grayData[y * width + x] < optimalThreshold ? 1 : 0]; a read out of
    range is [undefined], for which the comparison is false. *)
Definition maskBit (grayData : list Z) (width : nat) (thr : Z) (y x : nat) : Z :=
  match grayData !! (y * width + x)%nat with
  | Some g => if g <? thr then 1 else 0
  | None => 0
  end.

Definition maskOf (grayData : list Z) (width height : nat) (thr : Z)
  : list (list Z) :=
  map (fun y => map (maskBit grayData width thr y) (seq 0 width)) (seq 0 height).

End Otsu.

Definition otsuBinarize (grayData : list Z) (width height : nat) : list (list Z) :=
  Otsu.maskOf grayData width height (Otsu.otsuThreshold grayData width height).

(** ** 2. Connected components *)

(** [binaryData[y][x] === 1].  A missing row makes the read of its
    element a [TypeError]; a missing element is [undefined]. *)
Definition readMask (binaryData : list (list Z)) (y x : nat) : outcome bool :=
  match binaryData !! y with
  | None => Throw "TypeError"
  | Some row => Ok (bool_decide (row !! x = Some 1))
  end.

(** [visited[y][x]] and [visited[y][x] = true] on the grid that
    [findContours] allocates with [height] rows of [width] entries. *)
Definition isVisited (visited : list (list bool)) (y x : nat) : bool :=
  default false (visited !! y ≫= fun row => row !! x).

Definition markVisited (visited : list (list bool)) (y x : nat)
  : list (list bool) :=
  alter (fun row => <[x := true]> row) y visited.

(** The offsets [(dx, dy)] in the order of the two nested loops over
    [dy] and [dx], without [(0, 0)]. *)
Definition offsets : list (Z * Z) :=
  dy ← [-1; 0; 1];
  dx ← [-1; 0; 1];
  if (dx =? 0) && (dy =? 0) then [] else [(dx, dy)].

Section FloodFill.
Variable binaryData : list (list Z).
Variables width height : nat.

Definition inBounds (nx ny : Z) : bool :=
  (0 <=? nx) && (nx <? Z.of_nat width) && (0 <=? ny) && (ny <? Z.of_nat height).

(** The body of the inner loop for one offset. *)
Definition visitNeighbour (p : Point) (st : list Point * list (list bool))
           (d : Z * Z) : outcome (list Point * list (list bool)) :=
  let '(queue, visited) := st in
  let nx := px p + d.1 in
  let ny := py p + d.2 in
  if inBounds nx ny then
    fg ← readMask binaryData (Z.to_nat ny) (Z.to_nat nx);
    if fg && negb (isVisited visited (Z.to_nat ny) (Z.to_nat nx)) then
      Ok (queue ++ [mkPoint nx ny],
          markVisited visited (Z.to_nat ny) (Z.to_nat nx))
    else Ok st
  else Ok st.

Fixpoint visitAll (p : Point) (ds : list (Z * Z))
         (st : list Point * list (list bool))
  : outcome (list Point * list (list bool)) :=
  match ds with
  | [] => Ok st
  | d :: ds' => st' ← visitNeighbour p st d; visitAll p ds' st'
  end.

(** [while (queue.length > 0)]: one unit of fuel per iteration. *)
Fixpoint floodLoop (fuel : nat) (queue : list Point)
         (visited : list (list bool)) (blob : list Point)
  : outcome (list Point * list (list bool)) :=
  match queue with
  | [] => Ok (blob, visited)
  | p :: rest =>
      match fuel with
      | O => OutOfFuel
      | S fuel' =>
          '(queue', visited') ← visitAll p offsets (rest, visited);
          floodLoop fuel' queue' visited' (blob ++ [p])
      end
  end.

(** Returns the blob together with the updated [visited] grid, which
    the source mutates in place. *)
Definition floodFill (fuel : nat) (startX startY : nat)
           (visited : list (list bool))
  : outcome (list Point * list (list bool)) :=
  floodLoop fuel [mkPoint (Z.of_nat startX) (Z.of_nat startY)]
            (markVisited visited startY startX) [].

(** The body of the two scanning loops at pixel [(x, y)]. *)
Definition scanPixel (fuel : nat)
           (st : list (list Point) * list (list bool)) (yx : nat * nat)
  : outcome (list (list Point) * list (list bool)) :=
  let '(contours, visited) := st in
  let '(y, x) := yx in
  fg ← readMask binaryData y x;
  if fg && negb (isVisited visited y x) then
    '(contour, visited') ← floodFill fuel x y visited;
    Ok (contours ++ [contour], visited')
  else Ok st.

Fixpoint scanAll (fuel : nat) (yxs : list (nat * nat))
         (st : list (list Point) * list (list bool))
  : outcome (list (list Point) * list (list bool)) :=
  match yxs with
  | [] => Ok st
  | yx :: yxs' => st' ← scanPixel fuel st yx; scanAll fuel yxs' st'
  end.

(** Pixels in row-major order. *)
Definition scanOrder : list (nat * nat) :=
  y ← seq 0 height; x ← seq 0 width; [(y, x)].

Definition findContours (fuel : nat) : outcome (list (list Point)) :=
  '(contours, _) ← scanAll fuel scanOrder
                     ([], replicate height (replicate width false));
  Ok contours.

End FloodFill.

(** ** 3.a Feature calculators *)

(** [sumX += p.x] and [sumY += p.y] are additions of doubles. *)
Definition calculateCentroid (blob : list Point) : Center :=
  let sumX := fold_left (fun s p => (s + ofZ (px p))%float) blob 0%float in
  let sumY := fold_left (fun s p => (s + ofZ (py p))%float) blob 0%float in
  mkCenter (sumX / ofNat (length blob))%float
           (sumY / ofNat (length blob))%float.

Definition calculateBoundingBox (blob : list Point) : BoundingBox :=
  let minX := fold_left (fun m p => Math_min m (ofZ (px p))) blob infinity in
  let minY := fold_left (fun m p => Math_min m (ofZ (py p))) blob infinity in
  let maxX := fold_left (fun m p => Math_max m (ofZ (px p))) blob neg_infinity in
  let maxY := fold_left (fun m p => Math_max m (ofZ (py p))) blob neg_infinity in
  mkBox minX minY (maxX - minX + 1)%float (maxY - minY + 1)%float.

(** ** 3.b Moore-neighbour contour tracing *)

Module Trace.

(** The key [`${p.x},${p.y}`] of a point in [blobSet]: the pair of
    its coordinates (the string is an injective rendering of it). *)
Definition key (p : Point) : Z * Z := (px p, py p).

Definition blobSetOf (blob : list Point) : gset (Z * Z) :=
  list_to_set (key <$> blob).

(** The callback of [blob.reduce]: the topmost, then leftmost point. *)
Definition pickStart (p1 p2 : Point) : Point :=
  if py p1 <? py p2 then p1
  else if py p2 <? py p1 then p2
  else if px p1 <? px p2 then p1 else p2.

(** [reduce] without an initial value throws on an empty array. *)
Definition startPointOf (blob : list Point) : outcome Point :=
  match blob with
  | [] => Throw "TypeError"
  | p :: ps => Ok (fold_left pickStart ps p)
  end.

(** N, NE, E, SE, S, SW, W, NW. *)
Definition neighbors : list (Z * Z) :=
  [(0, -1); (1, -1); (1, 0); (1, 1); (0, 1); (-1, 1); (-1, 0); (-1, -1)].

Definition neighborAt (cur : Point) (checkDir : nat) : Point :=
  let d := neighbors !!! checkDir in
  mkPoint (px cur + d.1) (py cur + d.2).

(** [for (i = 0; i < 8; i++)] with its [break] on the first hit. *)
Fixpoint searchFrom (blobSet : gset (Z * Z)) (cur : Point) (nextDir : nat)
         (steps : list nat) : option (Point * nat) :=
  match steps with
  | [] => None
  | i :: steps' =>
      let checkDir := ((nextDir + i) mod 8)%nat in
      let neighbor := neighborAt cur checkDir in
      if bool_decide (key neighbor ∈ blobSet) then Some (neighbor, checkDir)
      else searchFrom blobSet cur nextDir steps'
  end.

Definition findNext (blobSet : gset (Z * Z)) (cur : Point) (dir : nat)
  : option (Point * nat) :=
  searchFrom blobSet cur ((dir + 7) mod 8)%nat (seq 0 8).

(** The [do ... while] loop: one unit of fuel per iteration. *)
Fixpoint traceLoop (fuel : nat) (blobSet : gset (Z * Z)) (startPoint : Point)
         (currentPoint : Point) (dir : nat) (perimeter : list Point)
  : outcome (list Point) :=
  match fuel with
  | O => OutOfFuel
  | S fuel' =>
      let perimeter' := perimeter ++ [currentPoint] in
      match findNext blobSet currentPoint dir with
      | None => Ok perimeter'
      | Some (nextPoint, dir') =>
          if negb (px nextPoint =? px startPoint)
             || negb (py nextPoint =? py startPoint)
          then traceLoop fuel' blobSet startPoint nextPoint dir' perimeter'
          else Ok perimeter'
      end
  end.

End Trace.

(** [width] and [height] are parameters of the source function that its
    body never reads. *)
Definition traceContour (fuel : nat) (blob : list Point) (width height : nat)
  : outcome (list Point) :=
  startPoint ← Trace.startPointOf blob;
  Trace.traceLoop fuel (Trace.blobSetOf blob) startPoint startPoint 0%nat [].

(** ** 4.b Ramer-Douglas-Peucker *)

(** Perpendicular distance from [p] to the line through [p1] and [p2]. *)
Definition pointLineDistance (p p1 p2 : Point) : number :=
  let dx := (ofZ (px p2) - ofZ (px p1))%float in
  let dy := (ofZ (py p2) - ofZ (py p1))%float in
  let num := abs (dy * ofZ (px p) - dx * ofZ (py p)
                  + ofZ (px p2) * ofZ (py p1) - ofZ (py p2) * ofZ (px p1))%float in
  let den := sqrt (dy * dy + dx * dx)%float in
  (num / den)%float.

(** The loop [for (i = 1; i < end; i++)] that looks for the farthest
    point; it returns [(index, dmax)]. *)
Definition farthest (points : list Point) : nat * number :=
  let end_ := (length points - 1)%nat in
  fold_left
    (fun (acc : nat * number) (i : nat) =>
       let d := pointLineDistance (points !!! i) (points !!! 0%nat)
                                  (points !!! end_) in
       if gt d acc.2 then (i, d) else acc)
    (seq 1 (end_ - 1)) (0%nat, 0%float).

(** [a.slice(0, -1)]: all but the last element. *)
Definition dropLast {A} (l : list A) : list A := take (length l - 1) l.

(** One unit of fuel per level of recursion. *)
Fixpoint rdp (fuel : nat) (points : list Point) (epsilon : number)
  : outcome (list Point) :=
  match fuel with
  | O => OutOfFuel
  | S fuel' =>
      if (length points <? 3)%nat then Ok points
      else
        let '(index, dmax) := farthest points in
        let end_ := (length points - 1)%nat in
        if gt dmax epsilon then
          recResults1 ← rdp fuel' (take (index + 1) points) epsilon;
          recResults2 ← rdp fuel' (drop index points) epsilon;
          Ok (dropLast recResults1 ++ recResults2)
        else Ok [points !!! 0%nat; points !!! end_]
  end.

(** Distance between two points; [Math.pow(v, 2)] is [v * v]. *)
Definition dist (p1 p2 : Point) : number :=
  let ex := (ofZ (px p1) - ofZ (px p2))%float in
  let ey := (ofZ (py p1) - ofZ (py p2))%float in
  sqrt (ex * ex + ey * ey)%float.

(** ** 4.c.i Square against rectangle *)

(** Decimal constants of the source, as the doubles they denote. *)
Module Lit.
Definition c0_2   : number := 0x1.999999999999ap-3%float.  (* 0.2 *)
Definition c0_95  : number := 0x1.e666666666666p-1%float.  (* 0.95 *)
Definition c0_042 : number := 0x1.5810624dd2f1bp-5%float.  (* 0.042 *)
Definition c0_85  : number := 0x1.b333333333333p-1%float.  (* 0.85 *)
Definition c0_75  : number := 0x1.8p-1%float.              (* 0.75 *)
Definition c0_7   : number := 0x1.6666666666666p-1%float.  (* 0.7 *)
Definition c0_9   : number := 0x1.ccccccccccccdp-1%float.  (* 0.9 *)
Definition c0_76  : number := 0x1.851eb851eb852p-1%float.  (* 0.76 *)
Definition c0_5   : number := 0x1p-1%float.                (* 0.5 *)
Definition c0_65  : number := 0x1.4cccccccccccdp-1%float.  (* 0.65 *)
Definition c1_2   : number := 0x1.3333333333333p+0%float.  (* 1.2 *)
End Lit.

Definition isSquare (vertices : list Point) : bool :=
  match vertices with
  | [v0; v1; v2; v3] =>
      let sides := [dist v0 v1; dist v1 v2; dist v2 v3; dist v3 v0] in
      let minSide := fold_left Math_min sides infinity in
      let maxSide := fold_left Math_max sides neg_infinity in
      lt (maxSide / minSide)%float Lit.c1_2
  | _ => false
  end.

(** ** The detection pipeline *)

(** Steps 4.b and 4.c for a blob that is neither noise nor a circle:
    the label and the confidence, or no label. *)
Definition classifyPolygon (vertices : list Point) (compactness : number)
  : option (string * number) :=
  let v := length vertices in
  if (v =? 10)%nat then Some ("star"%string, Lit.c0_85)
  else if (v =? 5)%nat then Some ("pentagon"%string, Lit.c0_85)
  else if (v =? 3)%nat then
    if gt compactness Lit.c0_75 then Some ("square"%string, Lit.c0_7)
    else Some ("triangle"%string, Lit.c0_85)
  else if (v =? 4)%nat then
    if isSquare vertices then Some ("square"%string, Lit.c0_9)
    else Some ("rectangle"%string, Lit.c0_9)
  else if gt compactness Lit.c0_76 then Some ("square"%string, Lit.c0_65)
  else if gt compactness Lit.c0_5 then Some ("rectangle"%string, Lit.c0_65)
  else None.

(** The body of [for (const blob of contours)]: the shape pushed for
    this blob, if any. *)
Definition processBlob (fuel : nat) (width height : nat) (blob : list Point)
  : outcome (option DetectedShape) :=
  if (length blob <? 100)%nat then Ok None
  else
    let area := length blob in
    let center := calculateCentroid blob in
    let boundingBox := calculateBoundingBox blob in
    orderedPerimeter ← traceContour fuel blob width height;
    let perimeterLength := length orderedPerimeter in
    let compactness :=
      (4 * Math_PI * ofNat area
       / (ofNat perimeterLength * ofNat perimeterLength))%float in
    if lt compactness Lit.c0_2 then Ok None
    else if gt compactness Lit.c0_95 then
      Ok (Some (mkShape "circle" (Math_min compactness 1) boundingBox center area))
    else
      let epsilon := (ofNat perimeterLength * Lit.c0_042)%float in
      vertices ← rdp fuel orderedPerimeter epsilon;
      match classifyPolygon vertices compactness with
      | Some (ty, conf) => Ok (Some (mkShape ty conf boundingBox center area))
      | None => Ok None
      end.

Fixpoint processBlobs (fuel : nat) (width height : nat)
         (contours : list (list Point)) (shapes : list DetectedShape)
  : outcome (list DetectedShape) :=
  match contours with
  | [] => Ok shapes
  | blob :: rest =>
      r ← processBlob fuel width height blob;
      processBlobs fuel width height rest
                   (match r with Some s => shapes ++ [s] | None => shapes end)
  end.

(** [startTime] and [endTime] are the two readings of
    [performance.now()]; [fuel] bounds every unbounded loop of the run. *)
Definition detectShapes (fuel : nat) (startTime endTime : number)
           (imageData : ImageData) : outcome DetectionResult :=
  let grayData := toGrayscale imageData in
  let binaryData := otsuBinarize grayData (width imageData) (height imageData) in
  contours ← findContours binaryData (width imageData) (height imageData) fuel;
  shapes ← processBlobs fuel (width imageData) (height imageData) contours [];
  Ok (mkResult shapes (endTime - startTime)%float
               (width imageData) (height imageData)).

(** * Specification-level definitions *)

(** ** The order of binary64 values

    Every value that is not NaN has a rank, a triple of integers ordered
    lexicographically, such that the IEEE comparison of two values is
    the comparison of their ranks. *)

Module FOrder.

Definition rank (f : spec_float) : option (Z * Z * Z) :=
  match f with
  | S754_nan => None
  | S754_infinity true => Some (-2, 0, 0)
  | S754_infinity false => Some (2, 0, 0)
  | S754_zero _ => Some (0, 0, 0)
  | S754_finite false m e => Some (1, e, Z.pos m)
  | S754_finite true m e => Some (-1, - e, Z.neg m)
  end.

Definition lex3 (a b : Z * Z * Z) : comparison :=
  match a.1.1 ?= b.1.1 with
  | Eq => match a.1.2 ?= b.1.2 with
          | Eq => a.2 ?= b.2
          | c => c
          end
  | c => c
  end.

Definition lexlt (a b : Z * Z * Z) : Prop :=
  a.1.1 < b.1.1 \/
  (a.1.1 = b.1.1 /\ (a.1.2 < b.1.2 \/ (a.1.2 = b.1.2 /\ a.2 < b.2))).

(** A number that is not NaN. *)
Definition ordered (x : number) : Prop := is_Some (rank (Prim2SF x)).

End FOrder.

(** ** Degenerate values of float arithmetic *)

(** A value that is a zero of either sign, or NaN. *)
Definition zeroOrNaN (f : spec_float) : Prop :=
  f = S754_nan \/ exists s, f = S754_zero s.

(** A value that is not below zero: NaN, a zero, or positive. *)
Definition notNegative (f : spec_float) : Prop :=
  match f with
  | S754_finite true _ _ | S754_infinity true => False
  | _ => True
  end.

(** ** Ramer-Douglas-Peucker *)

Module RDP.

(** The farthest-point loop, read over the list of the distances of
    the interior points, the first of which has index [i]. *)
Fixpoint scan (ds : list number) (i : nat) (acc : nat * number)
  : nat * number :=
  match ds with
  | [] => acc
  | d :: ds' => scan ds' (S i) (if gt d acc.2 then (i, d) else acc)
  end.

(** [out] keeps the two end points of [points] and a subsequence of
    what lies between them. *)
Definition simplifies (points out : list Point) : Prop :=
  ((length points < 2)%nat /\ out = points) \/
  exists a mid b mid',
    points = a :: mid ++ [b] /\ out = a :: mid' ++ [b] /\
    mid' `sublist_of` mid.

End RDP.

(** ** Otsu's sweep, read off the histogram *)

Module OtsuSpec.
Import Otsu.

Definition binAt (hist : list Z) (k : nat) : Z := default 0 (hist !! k).

(** Weight and intensity sum of the bins below [k]. *)
Fixpoint prefW (hist : list Z) (k : nat) : Z :=
  match k with
  | O => 0
  | S k' => prefW hist k' + binAt hist k'
  end.

Fixpoint prefS (hist : list Z) (k : nat) : Z :=
  match k with
  | O => 0
  | S k' => prefS hist k' + Z.of_nat k' * binAt hist k'
  end.

(** Background weight, foreground weight and background sum at
    threshold [t]. *)
Definition wBAt (hist : list Z) (t : nat) : Z := prefW hist (S t).
Definition wFAt (hist : list Z) (pixelCount : Z) (t : nat) : Z :=
  pixelCount - wBAt hist t.
Definition sumAt (hist : list Z) (t : nat) : Z := prefS hist (S t).

(** The sweep is still running when it arrives at [t]: no earlier
    threshold had a nonzero background weight and a zero foreground
    weight. *)
Definition reached (hist : list Z) (pixelCount : Z) (t : nat) : bool :=
  forallb (fun j => (wBAt hist j =? 0) || negb (wFAt hist pixelCount j =? 0))
          (seq 0 t).

(** The valid candidates: reached, not skipped, not the stopping point. *)
Definition valid (hist : list Z) (pixelCount : Z) (t : nat) : bool :=
  reached hist pixelCount t
  && negb (wBAt hist t =? 0) && negb (wFAt hist pixelCount t =? 0).

(** Between-class variance at threshold [t]. *)
Definition varAt (hist : list Z) (pixelCount totalIntensity : Z) (t : nat)
  : number :=
  varianceOf (wBAt hist t) (wFAt hist pixelCount t) (sumAt hist t)
             totalIntensity.

(** What the sweep has established once the thresholds below [k] are
    behind it. *)
Record swept (hist : list Z) (pixelCount totalIntensity : Z) (k : nat)
       (st : sweepState) : Prop := mkSwept
  { swept_log :
      divisors st =
      map (fun t => (wBAt hist t, wFAt hist pixelCount t))
          (filter (fun t => valid hist pixelCount t = true) (seq 0 k));
    swept_max :
      forall t, (t < k)%nat -> valid hist pixelCount t = true ->
        gt (varAt hist pixelCount totalIntensity t) (maxVariance st) = false;
    swept_arg :
      (maxVariance st = 0%float /\ optimalThreshold st = 0) \/
      exists t, (t < k)%nat /\ optimalThreshold st = Z.of_nat t /\
        valid hist pixelCount t = true /\
        maxVariance st = varAt hist pixelCount totalIntensity t /\
        forall i, (i < t)%nat -> valid hist pixelCount i = true ->
          (varAt hist pixelCount totalIntensity t
           <=? varAt hist pixelCount totalIntensity i)%float = false }.

End OtsuSpec.

(** ** Connected components of a mask *)

Section Components.
Variable binaryData : list (list Z).
Variables width height : nat.

(** A [width] by [height] grid of zeros and ones. *)
Definition isMask : Prop :=
  length binaryData = height /\
  Forall (fun row => length row = width /\
                     Forall (fun v => v = 0 \/ v = 1) row) binaryData.

Definition inImage (p : Point) : Prop :=
  0 <= px p < Z.of_nat width /\ 0 <= py p < Z.of_nat height.

(** A pixel of the image whose mask value is 1. *)
Definition foreground (p : Point) : Prop :=
  inImage p /\
  (binaryData !! Z.to_nat (py p)) ≫= (fun row => row !! Z.to_nat (px p))
  = Some 1.

(** Two distinct pixels that share an edge or a corner. *)
Definition adjacent (p q : Point) : Prop :=
  Z.abs (px q - px p) <= 1 /\ Z.abs (py q - py p) <= 1 /\ p <> q.

(** [q] is reached from [p] along 8-adjacent foreground pixels. *)
Inductive connected : Point -> Point -> Prop :=
| connected_refl p : foreground p -> connected p p
| connected_step p q r :
    connected p q -> foreground r -> adjacent q r -> connected p r.

(** Row-major order: topmost first, then leftmost. *)
Definition rowMajorLt (p q : Point) : Prop :=
  py p < py q \/ (py p = py q /\ px p < px q).

(** The grid of visited flags has the dimensions of the image. *)
Definition gridDims (visited : list (list bool)) : Prop :=
  length visited = height /\ Forall (fun row => length row = width) visited.

Definition visitedAt (visited : list (list bool)) (p : Point) : bool :=
  isVisited visited (Z.to_nat (py p)) (Z.to_nat (px p)).

(** A blob that is one maximal 8-connected foreground region, listed
    from its first pixel in row-major order. *)
Definition isRegion (blob : list Point) : Prop :=
  exists s, head blob = Some s /\
    (forall p, p ∈ blob <-> connected s p) /\
    (forall p, p ∈ blob -> p = s \/ rowMajorLt s p).

Definition firstPixels (blobs : list (list Point)) : list Point :=
  omap head blobs.

(** The neighbour of [p] at offset [d]. *)
Definition offsetBy (p : Point) (d : Z * Z) : Point :=
  mkPoint (px p + d.1) (py p + d.2).

(** The invariant of the flood fill started at [s] over the flags
    [v0]: the pixels flagged since then are exactly those of [blob]
    and [queue], each listed once, new, foreground and connected to
    [s]. *)
Record floodCore (v0 : list (list bool)) (s : Point)
       (queue : list Point) (visited : list (list bool))
       (blob : list Point) : Prop := mkFloodCore
  { fc_dims : gridDims visited;
    fc_visited : forall p, inImage p ->
      (visitedAt visited p = true <->
       visitedAt v0 p = true \/ p ∈ blob ++ queue);
    fc_nodup : NoDup (blob ++ queue);
    fc_fresh : forall p, p ∈ blob ++ queue ->
      foreground p /\ visitedAt v0 p = false /\ connected s p;
    fc_head : head (blob ++ queue) = Some s }.

(** Every foreground neighbour of a pixel already moved to [blob] is
    flagged. *)
Definition floodDone (visited : list (list bool)) (blob : list Point)
  : Prop :=
  forall p q, p ∈ blob -> foreground q -> adjacent p q ->
              visitedAt visited q = true.

(** The flags are those of whole regions. *)
Definition flagsClosed (v0 : list (list bool)) : Prop :=
  forall p q, foreground p -> foreground q -> adjacent p q ->
              visitedAt v0 p = true -> visitedAt v0 q = true.

(** The order in which the two scanning loops visit (row, column). *)
Definition scanLt (a b : nat * nat) : Prop :=
  (a.1 < b.1)%nat \/ (a.1 = b.1 /\ (a.2 < b.2)%nat).

(** The invariant of the scanning loops with the pixels [todo] (row,
    column) still ahead. *)
Record scanInv (todo : list (nat * nat)) (contours : list (list Point))
       (visited : list (list bool)) : Prop := mkScanInv
  { si_dims : gridDims visited;
    si_visited : forall p, inImage p ->
      (visitedAt visited p = true <-> p ∈ concat contours);
    si_nodup : NoDup (concat contours);
    si_fg : forall p, p ∈ concat contours -> foreground p;
    si_regions : Forall isRegion contours;
    si_scanned : forall p, foreground p ->
      (Z.to_nat (py p), Z.to_nat (px p)) ∉ todo -> p ∈ concat contours;
    si_sorted : StronglySorted rowMajorLt (firstPixels contours);
    si_ahead : forall s y x, s ∈ firstPixels contours -> (y, x) ∈ todo ->
      rowMajorLt s (mkPoint (Z.of_nat x) (Z.of_nat y)) }.

End Components.

(** ** Fuel *)

(** A result, once returned, is returned with any larger fuel. *)
Definition fuelMono {A} (F : nat -> outcome A) : Prop :=
  forall f f' r, F f = Ok r -> (f <= f')%nat -> F f' = Ok r.

(** A computation that may run out of fuel but never throws. *)
Definition noThrow {A} (o : outcome A) : Prop := forall e, o <> Throw e.

(** ** The tracing loop as a transition system *)

Module TraceSpec.

(** One iteration of the [do ... while] loop on the pair
    [(currentPoint, dir)]: the next pair, or [None] when the loop ends
    (no neighbour, or back on the start pixel). *)
Definition step (blobSet : gset (Z * Z)) (startPoint : Point)
           (st : Point * nat) : option (Point * nat) :=
  match Trace.findNext blobSet st.1 st.2 with
  | Some (nextPoint, dir') =>
      if negb (px nextPoint =? px startPoint)
         || negb (py nextPoint =? py startPoint)
      then Some (nextPoint, dir') else None
  | None => None
  end.

(** The states visited by the first [n] iterations. *)
Fixpoint orbit (blobSet : gset (Z * Z)) (startPoint : Point) (n : nat)
         (st : Point * nat) : list (Point * nat) :=
  match n with
  | O => [st]
  | S n' =>
      st :: match step blobSet startPoint st with
            | Some st' => orbit blobSet startPoint n' st'
            | None => []
            end
  end.

(** A set of states that the loop cannot leave and in which it never
    ends. *)
Definition trapped (blobSet : gset (Z * Z)) (startPoint : Point)
           (states : list (Point * nat)) : bool :=
  forallb (fun st => match step blobSet startPoint st with
                     | Some st' => bool_decide (st' ∈ states)
                     | None => false
                     end) states.

End TraceSpec.

(** ** The labels and the range of a confidence *)

Definition shapeTypes : list string :=
  ["circle"; "triangle"; "rectangle"; "square"; "pentagon"; "star"]%string.

Definition wellLabelled (s : DetectedShape) : Prop :=
  type s ∈ shapeTypes /\
  (0 <=? confidence s)%float = true /\ (confidence s <=? 1)%float = true.

(** ** Concrete inputs *)

Module Examples.

(** An image given by the gray level of each pixel: opaque, with
    equal red, green and blue. *)
Definition grayImage (w h : nat) (level : nat -> nat -> Z) : ImageData :=
  mkImage (i ← seq 0 (w * h);
           let g := level (i mod w)%nat (i / w)%nat in [g; g; g; 255])
          w h.

(** A 9 by 93 image: a black stem with a black ring hanging from it
    (100 pixels), a gray column on the right, white elsewhere. *)
Definition ringBlobPixel (x y : nat) : bool :=
  ((x =? 1) && (1 <=? y) && (y <=? 90))%nat
  || bool_decide ((x, y) ∈ [(2, 91); (3, 91); (4, 90); (5, 90); (6, 89);
                             (6, 88); (5, 87); (4, 87); (3, 88); (3, 89)]%nat).

Definition ringImage : ImageData :=
  grayImage 9 93 (fun x y => if ringBlobPixel x y then 0
                             else if (x =? 8)%nat then 100 else 255).

(** The stem and ring as the blob that component extraction finds. *)
Definition ringBlob : list Point :=
  match findContours
          (otsuBinarize (toGrayscale ringImage) 9 93) 9 93 837 with
  | Ok [blob] => blob
  | _ => []
  end.

(** A 14 by 14 image with a black 11 by 11 square, one gray column. *)
Definition squareImage : ImageData :=
  grayImage 14 14 (fun x y =>
    if ((1 <=? x) && (x <=? 11) && (1 <=? y) && (y <=? 11))%nat then 0
    else if (x =? 13)%nat then 100 else 255).

(** A 3 by 2 image of a single colour. *)
Definition flatImage : ImageData := grayImage 3 2 (fun _ _ => 7).

(** A 2 by 2 image whose buffer holds one pixel only. *)
Definition shortImage : ImageData := mkImage [0; 0; 0; 255] 2 2.

(** The result of a run on [squareImage]. *)
Definition squareResult : DetectionResult :=
  Eval vm_compute in
    match detectShapes 200 0 1 squareImage with
    | Ok r => r
    | _ => mkResult [] 0 0 0
    end.

(** A 2 by 2 intensity buffer with two dark and two bright pixels. *)
Definition twoTone : list Z := [10; 10; 200; 200].

Definition squareShape : DetectedShape :=
  Eval vm_compute in
    match shapes squareResult with
    | s :: _ => s
    | [] => mkShape "" 0 (mkBox 0 0 0 0) (mkCenter 0 0) 0
    end.

(** A 3 by 3 mask with two regions. *)
Definition twoRegions : list (list Z) := [[1; 1; 0]; [0; 0; 0]; [0; 1; 1]].

(** Three collinear points. *)
Definition collinear : list Point := [mkPoint 0 0; mkPoint 1 0; mkPoint 2 0].

(** A polyline with one bump. *)
Definition bump5 : list Point :=
  [mkPoint 0 0; mkPoint 1 0; mkPoint 2 1; mkPoint 3 0; mkPoint 4 0].

End Examples.

(** * Further specification-level definitions *)

(** A buffer of bytes, as a [Uint8ClampedArray] holds them. *)
Definition isBytes (grayData : list Z) : Prop :=
  Forall (fun v => 0 <= v <= 255) grayData.

(** ** Walks of pixels *)

(** Consecutive points of the list are 8-neighbours. *)
Fixpoint isWalk (l : list Point) : Prop :=
  match l with
  | a :: (b :: _) as rest => adjacent a b /\ isWalk rest
  | _ => True
  end.

(** ** The error bound of Ramer-Douglas-Peucker *)

(** [covers eps points out]: [out] cuts [points] into consecutive runs,
    each between two points that [out] keeps, and no point inside a run
    is farther than [eps] from the line through the two ends of its run
    (the test [d > eps] of the program is false for it). *)
Inductive covers (eps : number) : list Point -> list Point -> Prop :=
| covers_short points : (length points < 3)%nat -> covers eps points points
| covers_chord a mid b :
    (forall q, q ∈ mid -> gt (pointLineDistance q a b) eps = false) ->
    covers eps (a :: mid ++ [b]) [a; b]
| covers_join l1 c l2 o1 o2 :
    covers eps (l1 ++ [c]) (o1 ++ [c]) ->
    covers eps (c :: l2) (c :: o2) ->
    covers eps (l1 ++ c :: l2) (o1 ++ c :: o2).

(** ** Signs *)

(** NaN, or a value whose sign bit is clear: [+0], a positive number or
    [+Infinity]. *)
Definition signClear (f : spec_float) : Prop :=
  match f with
  | S754_nan => True
  | S754_zero s | S754_infinity s | S754_finite s _ _ => s = false
  end.

(** ** Shapes and the blobs they come from *)

(** The entry of the buffer for the pixel [p] of an image [w] wide. *)
Definition grayAt (grayData : list Z) (w : nat) (p : Point) : option Z :=
  grayData !! (Z.to_nat (py p) * w + Z.to_nat (px p))%nat.

(** The features of [s] are those of [blob], and [blob] passes the
    noise filter. *)
Definition shapeOfBlob (s : DetectedShape) (blob : list Point) : Prop :=
  area s = length blob /\ (100 <= length blob)%nat /\
  center s = calculateCentroid blob /\
  boundingBox s = calculateBoundingBox blob.

(** The confidence that goes with each label. *)
Definition confidenceRule (s : DetectedShape) : Prop :=
  (type s = "circle"%string /\
   (Lit.c0_95 <? confidence s)%float = true /\
   (confidence s <=? 1)%float = true) \/
  (type s ∈ ["star"; "pentagon"; "triangle"]%string /\
   confidence s = Lit.c0_85) \/
  (type s = "square"%string /\
   confidence s ∈ [Lit.c0_7; Lit.c0_9; Lit.c0_65]) \/
  (type s = "rectangle"%string /\
   confidence s ∈ [Lit.c0_9; Lit.c0_65]).

(** ** Further concrete inputs *)

Module Examples2.
Import Examples.

(** A 3 by 2 buffer with three gray levels. *)
Definition sixPixels : list Z := [0; 0; 50; 200; 200; 200].

(** A 4 by 3 image with a dark column on a light ground: two levels. *)
Definition twoLevelImage : ImageData :=
  grayImage 4 3 (fun x y => if (x =? 0)%nat then 10 else 200).

(** A 2 by 2 block of pixels, and its traced perimeter. *)
Definition block4 : list Point :=
  [mkPoint 0 0; mkPoint 1 0; mkPoint 0 1; mkPoint 1 1].

Definition block4Perimeter : list Point :=
  Eval vm_compute in
    match traceContour 10 block4 2 2 with Ok per => per | _ => [] end.

(** [bump5] simplified with tolerance 0.5. *)
Definition bump5Out : list Point :=
  Eval vm_compute in
    match rdp 6 bump5 0.5 with Ok out => out | _ => [] end.

(** One opaque pixel, and the same pixel fully transparent. *)
Definition opaquePixel : list Z := [10; 20; 30; 255].
Definition clearPixel : list Z := [10; 20; 30; 0].

End Examples2.

Module Examples3.
Import Examples2.

(** [block4] listed in another order. *)
Definition block4' : list Point :=
  [mkPoint 1 1; mkPoint 0 1; mkPoint 0 0; mkPoint 1 0; mkPoint 0 0].

End Examples3.

(** ** Filled rectangles *)

(** The pixels of the [W] by [H] rectangle with top left corner
    [(x0, y0)]. *)
Definition inRect (x0 y0 : Z) (W H : nat) (p : Point) : Prop :=
  x0 <= px p < x0 + Z.of_nat W /\ y0 <= py p < y0 + Z.of_nat H.

(** The boundary of the rectangle, clockwise from the top left corner:
    the four sides, each without the corner at which the next one
    starts. *)
Module RectSides.
Section Sides.
Variables (x0 y0 : Z) (W H : nat).

Definition topF (i : nat) : Point := mkPoint (x0 + Z.of_nat i) y0.
Definition rightF (j : nat) : Point :=
  mkPoint (x0 + Z.of_nat W - 1) (y0 + Z.of_nat j).
Definition bottomF (i : nat) : Point :=
  mkPoint (x0 + Z.of_nat W - 1 - Z.of_nat i) (y0 + Z.of_nat H - 1).
Definition leftF (j : nat) : Point :=
  mkPoint x0 (y0 + Z.of_nat H - 1 - Z.of_nat j).

Definition rectPerimeter : list Point :=
  map topF (seq 0 (W - 1)) ++ map rightF (seq 0 (H - 1)) ++
  map bottomF (seq 0 (W - 1)) ++ map leftF (seq 0 (H - 1)).
End Sides.
End RectSides.

(** ** Integers as binary64 values *)

(** [f] is the binary64 value of the integer [z], which is below 2^53
    in magnitude: [+0] for 0, and otherwise a 53-bit mantissa with an
    exponent between -52 and 0. *)
Definition intRepr (f : spec_float) (z : Z) : Prop :=
  match f with
  | S754_zero s => s = false /\ z = 0
  | S754_finite s m e =>
      Z.pos (digits2_pos m) = 53 /\ -52 <= e <= 0 /\
      Z.pos m = Z.abs z * 2 ^ (- e) /\ s = (z <? 0)
  | _ => False
  end.

(** ** Bounds of a blob *)

(** The four extreme coordinates of a blob: each is the coordinate of
    some point of the blob, and every point lies between them. *)
Definition isBounds (blob : list Point) (minX maxX minY maxY : Z) : Prop :=
  (exists p, p ∈ blob /\ px p = minX) /\
  (exists p, p ∈ blob /\ px p = maxX) /\
  (exists p, p ∈ blob /\ py p = minY) /\
  (exists p, p ∈ blob /\ py p = maxY) /\
  forall p, p ∈ blob -> minX <= px p <= maxX /\ minY <= py p <= maxY.

(** ** The numerator of the point-to-line distance *)

(** [f] has the value of the integer [z]: as [intRepr], but a zero of
    either sign stands for 0. *)
Definition intVal (f : spec_float) (z : Z) : Prop :=
  match f with
  | S754_zero _ => z = 0
  | _ => intRepr f z
  end.

(** The integer that [pointLineDistance] takes the absolute value of:
    twice the signed area of the triangle [p1, p2, p]. *)
Definition cross (p p1 p2 : Point) : Z :=
  (py p2 - py p1) * px p - (px p2 - px p1) * py p
  + px p2 * py p1 - py p2 * px p1.

(** Coordinates below 2^25 in magnitude. *)
Definition smallPoint (p : Point) : Prop :=
  Z.abs (px p) < 2 ^ 25 /\ Z.abs (py p) < 2 ^ 25.

(** ** Otsu's criterion, read off the buffer *)

Definition sumZ (l : list Z) : Z := foldr Z.add 0 l.

(** The quantities of the specification at a threshold [t], with the
    pixels of intensity at most [t] as the background class and
    [total] the number of pixels of the image.  Nothing here refers to
    the histogram or to the running sums of the program. *)
Module OtsuCriterion.

(** [wB]: the number of pixels of intensity at most [t]. *)
Definition weightB (grayData : list Z) (t : nat) : Z :=
  Z.of_nat (length (filter (fun v => v <= Z.of_nat t) grayData)).

(** The sum of the intensities of these pixels. *)
Definition sumB (grayData : list Z) (t : nat) : Z :=
  sumZ (filter (fun v => v <= Z.of_nat t) grayData).

(** [wF = total - wB]. *)
Definition weightF (total : Z) (grayData : list Z) (t : nat) : Z :=
  total - weightB grayData t.

(** The class means [mB] and [mF], as doubles. *)
Definition meanB (grayData : list Z) (t : nat) : number :=
  (ofZ (sumB grayData t) / ofZ (weightB grayData t))%float.

Definition meanF (total : Z) (grayData : list Z) (t : nat) : number :=
  (ofZ (sumZ grayData - sumB grayData t)
   / ofZ (weightF total grayData t))%float.

(** The between-class variance [wB * wF * (mB - mF)^2], the products
    taken from left to right in binary64. *)
Definition betweenClassVariance (total : Z) (grayData : list Z) (t : nat)
  : number :=
  (ofZ (weightB grayData t) * ofZ (weightF total grayData t)
   * (meanB grayData t - meanF total grayData t)
   * (meanB grayData t - meanF total grayData t))%float.

(** The sweep ends at [j]: there is a background and no foreground. *)
Definition endsAt (total : Z) (grayData : list Z) (j : nat) : bool :=
  negb (weightB grayData j =? 0) && (weightF total grayData j =? 0).

(** The valid candidates: the sweep has not ended before [t], [t] is
    not skipped ([wB] is not 0) and the sweep does not end at [t]
    ([wF] is not 0). *)
Definition candidate (total : Z) (grayData : list Z) (t : nat) : bool :=
  forallb (fun j => negb (endsAt total grayData j)) (seq 0 t)
  && negb (weightB grayData t =? 0)
  && negb (weightF total grayData t =? 0).

End OtsuCriterion.

(** * Facts about binary64 comparison and arithmetic *)

Module FOrderFacts.
Import FOrder.

Lemma lex3_Lt a b : lex3 a b = Lt <-> lexlt a b.
Proof.
  destruct a as [[a1 a2] a3], b as [[b1 b2] b3]; unfold lex3, lexlt; simpl.
  destruct (Z.compare_spec a1 b1), (Z.compare_spec a2 b2),
    (Z.compare_spec a3 b3); split; intros; try discriminate; try lia; auto.
Qed.

Lemma lex3_Gt a b : lex3 a b = Gt <-> lexlt b a.
Proof.
  destruct a as [[a1 a2] a3], b as [[b1 b2] b3]; unfold lex3, lexlt; simpl.
  destruct (Z.compare_spec a1 b1), (Z.compare_spec a2 b2),
    (Z.compare_spec a3 b3); split; intros; try discriminate; try lia; auto.
Qed.

Lemma SFcompare_rank x y :
  SFcompare x y =
  match rank x, rank y with
  | Some a, Some b => Some (lex3 a b)
  | _, _ => None
  end.
Proof.
  destruct x as [[]|[]| |[] mx ex], y as [[]|[]| |[] my ey];
    try reflexivity; unfold lex3; simpl.
  rewrite Z.compare_opp, (Z.compare_antisym ex ey).
  destruct (ex ?= ey); reflexivity.
Qed.

Lemma ltb_rank x y :
  (x <? y)%float = true <->
  exists a b, rank (Prim2SF x) = Some a /\ rank (Prim2SF y) = Some b /\ lexlt a b.
Proof.
  rewrite ltb_spec. unfold SFltb. rewrite SFcompare_rank.
  destruct (rank (Prim2SF x)) as [a|], (rank (Prim2SF y)) as [b|]; split;
    try (intros; discriminate); try (intros (?&?&?&?&?); discriminate).
  - destruct (lex3 a b) eqn:E; try discriminate. intros _.
    exists a, b. rewrite <- lex3_Lt. auto.
  - intros (a'&b'&Ha&Hb&H). inversion Ha; inversion Hb; subst.
    apply lex3_Lt in H. rewrite H. reflexivity.
Qed.

Lemma leb_rank x y :
  (x <=? y)%float = true <->
  exists a b, rank (Prim2SF x) = Some a /\ rank (Prim2SF y) = Some b /\ ~ lexlt b a.
Proof.
  rewrite leb_spec. unfold SFleb. rewrite SFcompare_rank.
  destruct (rank (Prim2SF x)) as [a|], (rank (Prim2SF y)) as [b|]; split;
    try (intros; discriminate); try (intros (?&?&?&?&?); discriminate).
  - intros H. exists a, b. rewrite <- lex3_Gt.
    destruct (lex3 a b); try discriminate; repeat split; congruence.
  - intros (a'&b'&Ha&Hb&H). inversion Ha; inversion Hb; subst.
    rewrite <- lex3_Gt in H. destruct (lex3 a' b'); congruence.
Qed.

Lemma lexlt_trans a b c : lexlt a b -> lexlt b c -> lexlt a c.
Proof. unfold lexlt. lia. Qed.

Lemma lexlt_irrefl a : ~ lexlt a a.
Proof. unfold lexlt. lia. Qed.

Lemma lexlt_le_trans a b c : lexlt a b -> ~ lexlt c b -> lexlt a c.
Proof. unfold lexlt. lia. Qed.

Lemma lexle_lt_trans a b c : ~ lexlt b a -> lexlt b c -> lexlt a c.
Proof. unfold lexlt. lia. Qed.

Lemma ltb_ordered x y : (x <? y)%float = true -> ordered x /\ ordered y.
Proof.
  rewrite ltb_rank. intros (a&b&Ha&Hb&_). unfold ordered. rewrite Ha, Hb. eauto.
Qed.

Lemma leb_ordered x y : (x <=? y)%float = true -> ordered x /\ ordered y.
Proof.
  rewrite leb_rank. intros (a&b&Ha&Hb&_). unfold ordered. rewrite Ha, Hb. eauto.
Qed.

Lemma ltb_trans x y z :
  (x <? y)%float = true -> (y <? z)%float = true -> (x <? z)%float = true.
Proof.
  rewrite !ltb_rank. intros (a&b&Ha&Hb&H1) (b'&c&Hb'&Hc&H2).
  rewrite Hb in Hb'. inversion Hb'; subst.
  exists a, c. eauto using lexlt_trans.
Qed.

Lemma ltb_irrefl x : (x <? x)%float = false.
Proof.
  destruct (x <? x)%float eqn:E; [|reflexivity].
  apply ltb_rank in E. destruct E as (a&b&Ha&Hb&H).
  rewrite Ha in Hb. inversion Hb; subst. now apply lexlt_irrefl in H.
Qed.

Lemma ltb_leb x y : (x <? y)%float = true -> (x <=? y)%float = true.
Proof.
  rewrite ltb_rank, leb_rank. intros (a&b&Ha&Hb&H). exists a, b.
  repeat split; auto. unfold lexlt in *. lia.
Qed.

Lemma leb_ltb_trans x y z :
  (x <=? y)%float = true -> (y <? z)%float = true -> (x <? z)%float = true.
Proof.
  rewrite !ltb_rank, leb_rank. intros (a&b&Ha&Hb&H1) (b'&c&Hb'&Hc&H2).
  rewrite Hb in Hb'. inversion Hb'; subst.
  exists a, c. eauto using lexle_lt_trans.
Qed.

Lemma ltb_leb_trans x y z :
  (x <? y)%float = true -> (y <=? z)%float = true -> (x <? z)%float = true.
Proof.
  rewrite !ltb_rank, leb_rank. intros (a&b&Ha&Hb&H1) (b'&c&Hb'&Hc&H2).
  rewrite Hb in Hb'. inversion Hb'; subst.
  exists a, c. eauto using lexlt_le_trans.
Qed.

Lemma leb_trans x y z :
  (x <=? y)%float = true -> (y <=? z)%float = true -> (x <=? z)%float = true.
Proof.
  rewrite !leb_rank. intros (a&b&Ha&Hb&H1) (b'&c&Hb'&Hc&H2).
  rewrite Hb in Hb'. inversion Hb'; subst.
  exists a, c. repeat split; auto. unfold lexlt in *. lia.
Qed.

(** On numbers that are not NaN the order is total. *)
Lemma not_ltb_leb x y :
  ordered x -> ordered y -> (x <? y)%float = false -> (y <=? x)%float = true.
Proof.
  intros [a Ha] [b Hb] H. apply leb_rank. exists b, a. repeat split; auto.
  intros Hlt. assert ((x <? y)%float = true); [|congruence].
  apply ltb_rank. eauto.
Qed.

Lemma leb_not_ltb x y : (x <=? y)%float = true -> (y <? x)%float = false.
Proof.
  rewrite leb_rank. intros (a&b&Ha&Hb&H).
  destruct (y <? x)%float eqn:E; [|reflexivity].
  apply ltb_rank in E. destruct E as (b'&a'&Hb'&Ha'&H').
  congruence.
Qed.

Lemma ltb_not_leb x y : (x <? y)%float = true -> (y <=? x)%float = false.
Proof.
  intros H. destruct (y <=? x)%float eqn:E; [|reflexivity].
  apply leb_not_ltb in E. congruence.
Qed.

Lemma ordered_zero : ordered 0%float.
Proof. unfold ordered. vm_compute. eauto. Qed.

End FOrderFacts.

(** * The point-to-line distance on coincident endpoints *)

Section ZeroOrNaN.

Lemma zn_sub_self f : zeroOrNaN (SF64sub f f).
Proof.
  destruct f as [[]|[]| |s m e]; unfold zeroOrNaN; simpl; eauto.
  right. exists false. unfold SF64sub, SFsub.
  rewrite Z.sub_diag. reflexivity.
Qed.

Lemma zn_mul_l f g : zeroOrNaN f -> zeroOrNaN (SF64mul f g).
Proof.
  intros [->|[s ->]]; unfold zeroOrNaN; simpl; eauto.
  destruct g; simpl; eauto.
Qed.

Lemma zn_sub f g : zeroOrNaN f -> zeroOrNaN g -> zeroOrNaN (SF64sub f g).
Proof.
  intros [->|[s ->]] [->|[s' ->]]; unfold zeroOrNaN; simpl; eauto.
  destruct s, s'; simpl; eauto.
Qed.

Lemma zn_add f g : zeroOrNaN f -> zeroOrNaN g -> zeroOrNaN (SF64add f g).
Proof.
  intros [->|[s ->]] [->|[s' ->]]; unfold zeroOrNaN; simpl; eauto.
  destruct s, s'; simpl; eauto.
Qed.

(** Adding a value to a zero and taking it away again. *)
Lemma zn_add_sub f c : zeroOrNaN f -> zeroOrNaN (SF64sub (SF64add f c) c).
Proof.
  intros [->|[s ->]]; [left; reflexivity|].
  destruct c as [s'|s'| |s' m e].
  - apply zn_sub; [apply zn_add|]; unfold zeroOrNaN; eauto.
  - replace (SF64add (S754_zero s) (S754_infinity s')) with (S754_infinity s')
      by reflexivity.
    apply zn_sub_self.
  - left. reflexivity.
  - replace (SF64add (S754_zero s) (S754_finite s' m e))
      with (S754_finite s' m e) by reflexivity.
    apply zn_sub_self.
Qed.

Lemma zn_abs f : zeroOrNaN f -> zeroOrNaN (SFabs f).
Proof. intros [->|[s ->]]; unfold zeroOrNaN; simpl; eauto. Qed.

Lemma zn_sqrt f : zeroOrNaN f -> zeroOrNaN (SF64sqrt f).
Proof. intros [->|[s ->]]; unfold zeroOrNaN; simpl; eauto. Qed.

Lemma zn_div f g : zeroOrNaN f -> zeroOrNaN g -> SF64div f g = S754_nan.
Proof. intros [->|[s ->]] [->|[s' ->]]; reflexivity. Qed.

Lemma SF64mul_comm f g : SF64mul f g = SF64mul g f.
Proof.
  destruct f as [s|s| |s m e], g as [s'|s'| |s' m' e'];
    unfold SF64mul, SFmul;
    rewrite ?(xorb_comm s s'), ?(Pos.mul_comm m m'), ?(Z.add_comm e e');
    reflexivity.
Qed.

End ZeroOrNaN.

(** With [p1 = p2] both differences are zero (or NaN), the numerator is
    zero (or NaN) and so is the denominator: the quotient is NaN. *)
Lemma pointLineDistance_coincident p p1 :
  pointLineDistance p p1 p1 = nan.
Proof.
  apply Prim2SF_inj. unfold pointLineDistance.
  repeat (progress rewrite ?div_spec, ?abs_spec, ?sqrt_spec, ?sub_spec,
            ?add_spec, ?mul_spec).
  rewrite (SF64mul_comm (Prim2SF (ofZ (py p1))) (Prim2SF (ofZ (px p1)))).
  apply zn_div.
  - apply zn_abs, zn_add_sub, zn_sub; apply zn_mul_l, zn_sub_self.
  - apply zn_sqrt, zn_add; apply zn_mul_l, zn_sub_self.
Qed.

(** * Ramer-Douglas-Peucker: subsequence, end points, idempotence *)

Module RDPFacts.
Import FOrder FOrderFacts RDP.

Lemma not_leb_ltb x y :
  ordered x -> ordered y -> (x <=? y)%float = false -> (y <? x)%float = true.
Proof.
  intros Hx Hy H. destruct (y <? x)%float eqn:E; [reflexivity|].
  apply not_ltb_leb in E; auto. congruence.
Qed.

Lemma leb_refl x : ordered x -> (x <=? x)%float = true.
Proof. intros H. apply not_ltb_leb; auto using ltb_irrefl. Qed.

(** *** The loop as a scan over distances *)

Lemma fold_scan (pts : list Point) (g : Point -> number) n : forall k acc,
  (k + n <= length pts)%nat ->
  fold_left (fun (acc : nat * number) (i : nat) =>
               let d := g (pts !!! i) in
               if gt d acc.2 then (i, d) else acc) (seq k n) acc
  = scan (map g (take n (drop k pts))) k acc.
Proof.
  induction n as [|n IH]; intros k acc Hk; [reflexivity|].
  destruct (lookup_lt_is_Some_2 pts k) as [q Hq]; [lia|].
  rewrite (drop_S _ _ _ Hq). simpl.
  rewrite (list_lookup_total_correct _ _ _ Hq).
  apply IH. lia.
Qed.

Lemma farthest_scan a mid b :
  farthest (a :: mid ++ [b])
  = scan (map (fun q => pointLineDistance q a b) mid) 1 (0%nat, 0%float).
Proof.
  unfold farthest.
  replace (length (a :: mid ++ [b]) - 1)%nat with (S (length mid))
    by (simpl; rewrite length_app; simpl; lia).
  replace (S (length mid) - 1)%nat with (length mid) by lia.
  replace ((a :: mid ++ [b]) !!! S (length mid)) with b.
  2:{ simpl. rewrite lookup_total_app_r by lia.
      now rewrite Nat.sub_diag. }
  change ((a :: mid ++ [b]) !!! 0%nat) with a.
  rewrite (fold_scan (a :: mid ++ [b]) (fun q => pointLineDistance q a b)).
  2:{ simpl. rewrite length_app. simpl. lia. }
  simpl. rewrite drop_0, take_app_length. reflexivity.
Qed.

Lemma scan_app ds1 ds2 i acc :
  scan (ds1 ++ ds2) i acc = scan ds2 (i + length ds1) (scan ds1 i acc).
Proof.
  revert i acc. induction ds1 as [|d ds1 IH]; intros i acc; simpl.
  - now rewrite Nat.add_0_r.
  - rewrite IH. f_equal. lia.
Qed.

(** The index is the initial one or a position of the list. *)
Lemma scan_index ds : forall i acc,
  (scan ds i acc).1 = acc.1 \/
  (i <= (scan ds i acc).1 < i + length ds)%nat.
Proof.
  induction ds as [|d ds IH]; intros i acc; simpl; [auto|].
  destruct (IH (S i) (if gt d acc.2 then (i, d) else acc)) as [H|H].
  - rewrite H. destruct (gt d acc.2); simpl; [right; lia|auto].
  - right. lia.
Qed.

(** The final maximum is not exceeded by any element. *)
Lemma scan_max ds : forall i acc,
  ordered acc.2 ->
  ordered (scan ds i acc).2 /\
  (acc.2 <=? (scan ds i acc).2)%float = true /\
  forall d, d ∈ ds -> gt d (scan ds i acc).2 = false.
Proof.
  induction ds as [|d ds IH]; intros i acc Hacc; simpl.
  - repeat split; auto using leb_refl. intros d Hd. inversion Hd.
  - set (acc' := if gt d acc.2 then (i, d) else acc).
    assert (Hacc' : ordered acc'.2 /\ (acc.2 <=? acc'.2)%float = true
                    /\ gt d acc'.2 = false).
    { unfold acc'. destruct (gt d acc.2) eqn:E; simpl.
      - unfold gt in *. destruct (ltb_ordered _ _ E).
        repeat split; auto using ltb_leb, ltb_irrefl.
      - repeat split; auto using leb_refl. }
    destruct Hacc' as (Ho & Hle & Hd).
    destruct (IH (S i) acc' Ho) as (Ho' & Hle' & Hall).
    repeat split; auto.
    + eapply leb_trans; eauto.
    + intros d' Hd'. apply elem_of_cons in Hd' as [->|Hd']; auto.
      unfold gt in *.
      destruct ((scan ds (S i) acc').2 <? d)%float eqn:E; auto.
      rewrite (leb_ltb_trans _ _ _ Hle' E) in Hd. discriminate.
Qed.

Lemma scan_noupdate ds : forall i acc,
  (scan ds i acc).1 = acc.1 -> (acc.1 < i)%nat -> scan ds i acc = acc.
Proof.
  induction ds as [|d ds IH]; intros i acc Hidx Hlt; simpl in *; [reflexivity|].
  destruct (gt d acc.2) eqn:E.
  - destruct (scan_index ds (S i) (i, d)) as [H|H]; simpl in H; lia.
  - apply IH; auto.
Qed.

Lemma scan_none ds : forall i acc,
  (forall d, d ∈ ds -> gt d acc.2 = false) -> scan ds i acc = acc.
Proof.
  induction ds as [|d ds IH]; intros i acc H; simpl; [reflexivity|].
  rewrite (H d) by left. apply IH. intros d' Hd'. apply H. now right.
Qed.

(** If the scan ends on the position of [d], then [d] is the final
    maximum, every earlier element is strictly below it (or NaN) and no
    later element exceeds it. *)
Lemma scan_pick A d B i acc :
  ordered acc.2 -> (acc.1 < i)%nat ->
  (scan (A ++ d :: B) i acc).1 = (i + length A)%nat ->
  scan (A ++ d :: B) i acc = ((i + length A)%nat, d) /\
  (acc.2 <? d)%float = true /\
  (forall x, x ∈ A -> (d <=? x)%float = false) /\
  (forall x, x ∈ B -> gt x d = false).
Proof.
  intros Hacc Hlt. rewrite scan_app. simpl.
  destruct (scan_max A i acc Hacc) as (HoA & HleA & HmaxA).
  assert (HidxA : ((scan A i acc).1 < i + length A)%nat).
  { destruct (scan_index A i acc) as [H|H]; lia. }
  set (accA := scan A i acc) in *.
  destruct (gt d accA.2) eqn:E; intros Hfin.
  - assert (Hno : scan B (S (i + length A)) ((i + length A)%nat, d)
                  = ((i + length A)%nat, d)).
    { apply scan_noupdate; simpl; [exact Hfin|lia]. }
    unfold gt in E. destruct (ltb_ordered _ _ E) as [_ Hod].
    rewrite Hno. repeat split.
    + eapply leb_ltb_trans; eauto.
    + intros x Hx. destruct (d <=? x)%float eqn:Ex; [|reflexivity].
      specialize (HmaxA x Hx). unfold gt in HmaxA.
      rewrite (ltb_leb_trans _ _ _ E Ex) in HmaxA. discriminate.
    + intros x Hx.
      destruct (scan_max B (S (i + length A)) ((i + length A)%nat, d) Hod)
        as (_ & _ & H).
      rewrite Hno in H. now apply H.
  - exfalso.
    rewrite scan_noupdate in Hfin; [lia| |lia].
    destruct (scan_index B (S (i + length A)) accA) as [H|H]; [exact H|lia].
Qed.

(** Conversely, such a [d] is where the scan ends. *)
Lemma scan_rebuild A d B : forall i acc,
  (acc.2 <? d)%float = true ->
  (forall x, x ∈ A -> (d <=? x)%float = false) ->
  (forall x, x ∈ B -> gt x d = false) ->
  scan (A ++ d :: B) i acc = ((i + length A)%nat, d).
Proof.
  induction A as [|x A IH]; intros i acc Hd HA HB; simpl.
  - unfold gt at 1. rewrite Hd, Nat.add_0_r. now apply scan_none.
  - rewrite IH; auto.
    + f_equal. lia.
    + destruct (gt x acc.2) eqn:E; simpl; auto.
      unfold gt in E. destruct (ltb_ordered _ _ E), (ltb_ordered _ _ Hd).
      apply not_leb_ltb; auto. apply HA. left.
    + intros y Hy. apply HA. now right.
Qed.

(** *** The recursion *)

Lemma ends_split (l : list Point) :
  (2 <= length l)%nat -> exists a mid b, l = a :: mid ++ [b].
Proof.
  intros H. destruct l as [|a l]; [simpl in H; lia|].
  destruct (decide (l = [])) as [->|Hne]; [simpl in H; lia|].
  apply last_is_Some in Hne as [b Hb]. apply last_Some in Hb as [mid ->].
  eauto.
Qed.

Lemma dropLast_snoc {A} (l : list A) x : dropLast (l ++ [x]) = l.
Proof.
  unfold dropLast. rewrite length_app. simpl.
  replace (length l + 1 - 1)%nat with (length l) by lia.
  apply take_app_length.
Qed.

Lemma take_mid {X} (A B : list X) c t :
  take (length (A ++ [c])) ((A ++ c :: B) ++ t) = A ++ [c].
Proof.
  replace ((A ++ c :: B) ++ t) with ((A ++ [c]) ++ (B ++ t))
    by (rewrite <- !app_assoc; reflexivity).
  apply take_app_length.
Qed.

Lemma simplifies_ends a mid b out :
  simplifies (a :: mid ++ [b]) out ->
  exists mid', out = a :: mid' ++ [b] /\ mid' `sublist_of` mid.
Proof.
  intros [[H _]|(a'&m&b'&m'&E&->&Hs)].
  - simpl in H. rewrite length_app in H. simpl in H. lia.
  - inversion E as [[Ea Em]]. apply app_inj_tail in Em as [-> ->]. eauto.
Qed.

Lemma rdp_short fuel points eps :
  (length points < 3)%nat -> rdp (S fuel) points eps = Ok points.
Proof.
  intros H. simpl. destruct (Nat.ltb_spec (length points) 3); [reflexivity|lia].
Qed.

Lemma rdp_long fuel a mid b eps :
  mid <> [] ->
  rdp (S fuel) (a :: mid ++ [b]) eps =
  let '(index, dmax) :=
    scan (map (fun q => pointLineDistance q a b) mid) 1 (0%nat, 0%float) in
  if gt dmax eps then
    recResults1 ← rdp fuel (take (index + 1) (a :: mid ++ [b])) eps;
    recResults2 ← rdp fuel (drop index (a :: mid ++ [b])) eps;
    Ok (dropLast recResults1 ++ recResults2)
  else Ok [a; b].
Proof.
  intros Hmid. cbn [rdp].
  destruct (Nat.ltb_spec (length (a :: mid ++ [b])) 3) as [H|H].
  { destruct mid; [congruence|]. simpl in H. rewrite length_app in H.
    simpl in H. lia. }
  rewrite farthest_scan.
  destruct (scan _ _ _) as [index dmax].
  replace ((a :: mid ++ [b]) !!! (length (a :: mid ++ [b]) - 1)%nat) with b.
  - reflexivity.
  - simpl. rewrite Nat.sub_0_r.
    rewrite length_app. simpl.
    replace (length mid + 1)%nat with (S (length mid)) by lia. simpl.
    rewrite lookup_total_app_r by lia. now rewrite Nat.sub_diag.
Qed.

Lemma rdp_spec eps :
  (eps <? 0)%float = false ->
  forall n points fuel,
    (length points <= n)%nat -> (n < fuel)%nat ->
    exists out,
      rdp fuel points eps = Ok out /\
      simplifies points out /\
      forall fuel', (length out < fuel')%nat -> rdp fuel' out eps = Ok out.
Proof.
  intros Heps. induction n as [|n IH]; intros points fuel Hlen Hfuel.
  { destruct fuel as [|fuel]; [lia|]. exists points.
    assert (length points < 3)%nat by lia.
    repeat split; [now apply rdp_short|left; split; [lia|reflexivity]|].
    intros [|f'] ?; [lia|]. now apply rdp_short. }
  destruct fuel as [|fuel]; [lia|].
  destruct (Nat.lt_ge_cases (length points) 3) as [Hshort|Hlong].
  { exists points. repeat split; [now apply rdp_short| |].
    - destruct (Nat.lt_ge_cases (length points) 2) as [H2|H2].
      + left. auto.
      + right. destruct (ends_split points H2) as (a&mid&b&->).
        exists a, mid, b, mid. repeat split; reflexivity.
    - intros [|f'] ?; [lia|]. now apply rdp_short. }
  destruct (ends_split points) as (a&mid&b&->); [lia|].
  assert (Hmid : mid <> []).
  { intros ->. simpl in Hlong. lia. }
  rewrite rdp_long by assumption.
  set (g := fun q => pointLineDistance q a b).
  destruct (scan (map g mid) 1 (0%nat, 0%float)) as [index dmax] eqn:Escan.
  destruct (gt dmax eps) eqn:Egt.
  2:{ exists [a; b]. repeat split; auto.
      - right. exists a, mid, b, []. repeat split; auto using sublist_nil_l.
      - intros [|f'] ?; [simpl in *; lia|]. apply rdp_short. simpl. lia. }
  (* the split point is an interior point, strictly farther than 0 *)
  unfold gt in Egt. destruct (ltb_ordered _ _ Egt) as [Hoe Hod].
  assert (Hpos : (0 <? dmax)%float = true).
  { eapply leb_ltb_trans; [|exact Egt].
    apply not_ltb_leb; auto using ordered_zero. }
  assert (Hidx : (1 <= index < 1 + length mid)%nat).
  { destruct (scan_index (map g mid) 1 (0%nat, 0%float)) as [H|H];
      rewrite Escan, ?length_map in H; simpl in H; [|lia].
    exfalso. rewrite scan_noupdate in Escan by (rewrite ?Escan; simpl; lia).
    inversion Escan; subst. now rewrite ltb_irrefl in Hpos. }
  destruct (lookup_lt_is_Some_2 mid (index - 1)) as [c Hc]; [lia|].
  pose proof (take_drop_middle mid (index - 1) c Hc) as Hsplit.
  set (A := take (index - 1) mid) in *.
  set (B := drop (S (index - 1)) mid) in *.
  assert (HlenA : length A = (index - 1)%nat).
  { unfold A. rewrite length_take. apply lookup_lt_Some in Hc. lia. }
  rewrite <- Hsplit in Escan. rewrite map_app in Escan. simpl in Escan.
  destruct (scan_pick (map g A) (g c) (map g B) 1 (0%nat, 0%float))
    as (Hres & H0d & HA & HB); auto using ordered_zero.
  { rewrite Escan, length_map. simpl. lia. }
  rewrite Escan in Hres. injection Hres as Hi Hd.
  (* the two recursive calls *)
  assert (Etake : take (index + 1) (a :: mid ++ [b]) = a :: A ++ [c]).
  { rewrite <- Hsplit. replace (index + 1)%nat with (S (length (A ++ [c])))
      by (rewrite length_app; simpl; lia).
    simpl. f_equal. apply take_mid. }
  assert (Edrop : drop index (a :: mid ++ [b]) = c :: B ++ [b]).
  { rewrite <- Hsplit. replace index with (S (length A)) by lia.
    simpl. rewrite <- app_assoc. now rewrite drop_app_length. }
  rewrite Etake, Edrop.
  assert (HlenM : length mid = (length A + S (length B))%nat)
    by (rewrite <- Hsplit, length_app; reflexivity).
  simpl in Hlen. rewrite length_app in Hlen. simpl in Hlen.
  destruct (IH (a :: A ++ [c]) fuel) as (r1 & Hr1 & Hs1 & Hi1);
    [simpl; rewrite length_app; simpl; lia|lia|].
  destruct (IH (c :: B ++ [b]) fuel) as (r2 & Hr2 & Hs2 & Hi2);
    [simpl; rewrite length_app; simpl; lia|lia|].
  apply simplifies_ends in Hs1 as (A' & -> & HsA).
  apply simplifies_ends in Hs2 as (B' & -> & HsB).
  rewrite Hr1, Hr2. cbn [mbind outcome_bind].
  rewrite (app_comm_cons A' [c] a), dropLast_snoc.
  exists ((a :: A') ++ c :: B' ++ [b]). split; [reflexivity|]. split.
  { right. exists a, mid, b, (A' ++ c :: B'). repeat split.
    - simpl. now rewrite <- app_assoc.
    - rewrite <- Hsplit. apply sublist_app; auto. now apply sublist_skip. }
  (* running it again *)
  intros fuel' Hf'. destruct fuel' as [|f']; [lia|].
  replace ((a :: A') ++ c :: B' ++ [b]) with (a :: (A' ++ c :: B') ++ [b])
    by (simpl; now rewrite <- app_assoc).
  rewrite rdp_long by (now destruct A').
  fold g. rewrite map_app. simpl.
  rewrite (scan_rebuild (map g A') (g c) (map g B')); auto.
  2:{ intros x Hx. apply HA. apply list_elem_of_fmap in Hx as (q & -> & Hq).
      apply list_elem_of_fmap. exists q. split; auto.
      eapply elem_of_sublist; eauto. }
  2:{ intros x Hx. apply HB. apply list_elem_of_fmap in Hx as (q & -> & Hq).
      apply list_elem_of_fmap. exists q. split; auto.
      eapply elem_of_sublist; eauto. }
  rewrite length_map. subst dmax. unfold gt. rewrite Egt.
  assert (Etake' : take (1 + length A' + 1) (a :: (A' ++ c :: B') ++ [b])
                   = a :: A' ++ [c]).
  { replace (1 + length A' + 1)%nat with (S (length (A' ++ [c])))
      by (rewrite length_app; simpl; lia).
    simpl. f_equal. apply take_mid. }
  assert (Edrop' : drop (1 + length A') (a :: (A' ++ c :: B') ++ [b])
                   = c :: B' ++ [b]).
  { simpl. rewrite <- app_assoc. now rewrite drop_app_length. }
  rewrite Etake', Edrop'.
  simpl in Hf'. rewrite length_app in Hf'. simpl in Hf'.
  rewrite length_app in Hf'. simpl in Hf'.
  rewrite Hi1 by (simpl; rewrite length_app; simpl; lia).
  rewrite Hi2 by (simpl; rewrite length_app; simpl; lia).
  cbn [mbind outcome_bind].
  rewrite (app_comm_cons A' [c] a), dropLast_snoc.
  simpl. now rewrite <- app_assoc.
Qed.

End RDPFacts.

(** * Otsu binarisation *)

Module OtsuFacts.
Import Otsu OtsuSpec FOrder FOrderFacts.

(** *** The histogram *)

Lemma bump_nonneg hist g : Forall (fun c => 0 <= c) hist ->
  Forall (fun c => 0 <= c) (bump hist g).
Proof.
  intros H. unfold bump. apply Forall_lookup. intros i c Hc.
  destruct (decide (i = Z.to_nat g)) as [->|Hne].
  - rewrite list_lookup_alter_eq in Hc.
    destruct (hist !! Z.to_nat g) as [c0|] eqn:E; simplify_eq/=.
    pose proof (Forall_lookup_1 _ _ _ _ H E) as H0. simpl in H0. lia.
  - rewrite list_lookup_alter_ne in Hc by auto.
    exact (Forall_lookup_1 _ _ _ _ H Hc).
Qed.

Lemma histogram_nonneg grayData :
  Forall (fun c => 0 <= c) (histogramOf grayData).
Proof.
  unfold histogramOf.
  assert (H : Forall (fun c => 0 <= c) (replicate 256 0)).
  { apply Forall_replicate. lia. }
  revert H. generalize (replicate 256 0).
  induction grayData as [|g gs IH]; intros hist H; simpl; auto.
  apply IH. now apply bump_nonneg.
Qed.

Lemma binAt_nonneg hist k : Forall (fun c => 0 <= c) hist -> 0 <= binAt hist k.
Proof.
  intros H. unfold binAt. destruct (hist !! k) eqn:E; simpl; [|lia].
  exact (Forall_lookup_1 _ _ _ _ H E).
Qed.

Lemma prefW_nonneg hist k : Forall (fun c => 0 <= c) hist -> 0 <= prefW hist k.
Proof.
  intros H. induction k; simpl; [lia|].
  pose proof (binAt_nonneg hist k H). lia.
Qed.

(** *** The sweep *)

Lemma reached_S hist N k :
  reached hist N (S k) =
  reached hist N k && ((wBAt hist k =? 0) || negb (wFAt hist N k =? 0)).
Proof.
  unfold reached. rewrite seq_S, forallb_app. simpl.
  now rewrite andb_true_r.
Qed.

Lemma reached_mono hist N j k :
  (j <= k)%nat -> reached hist N k = true -> reached hist N j = true.
Proof.
  induction 1 as [|k Hle IH]; auto. rewrite reached_S. intros Hr.
  apply andb_true_iff in Hr as [Hr _]. auto.
Qed.

(** Once the sweep has stopped no later threshold is a candidate. *)
Lemma valid_after_stop hist N k t :
  (wBAt hist k =? 0) = false -> (wFAt hist N k =? 0) = true ->
  (k <= t)%nat -> valid hist N t = false.
Proof.
  intros HB HF Hle. unfold valid.
  destruct (decide (t = k)) as [->|Hne].
  - rewrite HF. simpl. now rewrite andb_false_r.
  - destruct (reached hist N t) eqn:E; [|reflexivity].
    apply (reached_mono _ _ (S k)) in E; [|lia].
    rewrite reached_S, HB, HF in E. simpl in E.
    now rewrite andb_false_r in E.
Qed.

Lemma filter_valid_S hist N k :
  filter (fun t => valid hist N t = true) (seq 0 (S k)) =
  filter (fun t => valid hist N t = true) (seq 0 k)
  ++ (if valid hist N k then [k] else []).
Proof.
  rewrite seq_S, filter_app. simpl. f_equal.
  rewrite filter_cons, filter_nil.
  destruct (decide (valid hist N k = true)) as [->|H]; [reflexivity|].
  destruct (valid hist N k); congruence.
Qed.

Lemma filter_valid_stop hist N k n :
  (forall t, (k <= t)%nat -> valid hist N t = false) ->
  filter (fun t => valid hist N t = true) (seq 0 (k + n)) =
  filter (fun t => valid hist N t = true) (seq 0 k).
Proof.
  intros H. induction n as [|n IH].
  - now rewrite Nat.add_0_r.
  - rewrite Nat.add_succ_r, filter_valid_S, IH, H by lia.
    now rewrite app_nil_r.
Qed.

(** The facts of [swept] only read the maximum, the threshold and the
    log, and they extend to later thresholds that are not candidates. *)
Lemma swept_weaken hist N T k k' st st' :
  (k <= k')%nat ->
  (forall t, (k <= t < k')%nat -> valid hist N t = false) ->
  divisors st' = divisors st -> maxVariance st' = maxVariance st ->
  optimalThreshold st' = optimalThreshold st ->
  swept hist N T k st -> swept hist N T k' st'.
Proof.
  intros Hle Hinv Hd Hm Ht [Hlog Hmax Harg].
  assert (Hlt : forall t, (t < k')%nat -> valid hist N t = true -> (t < k)%nat).
  { intros t Ht' Hv. destruct (Nat.lt_ge_cases t k) as [|Hge]; auto.
    rewrite Hinv in Hv by lia. discriminate. }
  split.
  - rewrite Hd, Hlog. f_equal.
    replace k' with (k + (k' - k))%nat by lia.
    clear -Hinv. induction (k' - k)%nat as [|n IH] eqn:E in k', Hinv |- *.
    + now rewrite Nat.add_0_r.
    + rewrite Nat.add_succ_r, filter_valid_S, <- (IH (k + n)%nat); try lia.
      * rewrite Hinv by lia. now rewrite app_nil_r.
      * intros t Ht'. apply Hinv. lia.
  - rewrite Hm. intros t Ht' Hv. apply Hmax; auto.
  - rewrite Hm, Ht. destruct Harg as [?|(t & Hlt' & ?)]; [left; auto|].
    right. exists t. split; [lia|auto].
Qed.

Lemma sweep_inv hist N T :
  Forall (fun c => 0 <= c) hist ->
  forall n k st,
    wB st = prefW hist k -> sum st = prefS hist k ->
    reached hist N k = true -> swept hist N T k st ->
    swept hist N T (k + n)
          (sweep hist N T (map Z.of_nat (seq k n)) st).
Proof.
  intros Hnn. induction n as [|n IH]; intros k st HwB Hsum Hreach Hsw.
  { simpl. now rewrite Nat.add_0_r. }
  cbn [seq map sweep]. rewrite Nat2Z.id. fold (binAt hist k).
  assert (EwB : wB st + binAt hist k = wBAt hist k).
  { unfold wBAt. simpl. now rewrite HwB. }
  rewrite EwB. rewrite Nat.add_succ_r, <- Nat.add_succ_l.
  destruct (wBAt hist k =? 0) eqn:EB.
  { (* continue *)
    apply Z.eqb_eq in EB.
    assert (Hbin : binAt hist k = 0).
    { pose proof (prefW_nonneg hist k Hnn). pose proof (binAt_nonneg hist k Hnn).
      unfold wBAt in EB. simpl in EB. lia. }
    assert (Hinv : valid hist N k = false).
    { unfold valid. rewrite EB. simpl. now rewrite andb_false_r. }
    apply IH; simpl.
    - reflexivity.
    - rewrite Hbin, Hsum. lia.
    - rewrite reached_S, Hreach, EB. reflexivity.
    - eapply swept_weaken; [| | | | |exact Hsw]; auto.
      intros t Ht. replace t with k by lia. exact Hinv. }
  fold (wFAt hist N k).
  destruct (wFAt hist N k =? 0) eqn:EF.
  { (* break *)
    eapply swept_weaken; [| | | | |exact Hsw]; auto; [lia|].
    intros t Ht. eapply valid_after_stop; eauto. lia. }
  (* a candidate *)
  assert (Esum : sum st + Z.of_nat k * binAt hist k = sumAt hist k).
  { unfold sumAt. simpl. now rewrite Hsum. }
  rewrite Esum. fold (varAt hist N T k).
  assert (Hv : valid hist N k = true).
  { unfold valid. now rewrite Hreach, EB, EF. }
  destruct Hsw as [Hlog Hmax Harg].
  set (v := varAt hist N T k) in *.
  assert (Hlog' : divisors st ++ [(wBAt hist k, wFAt hist N k)] =
                  map (fun t => (wBAt hist t, wFAt hist N t))
                      (filter (fun t => valid hist N t = true) (seq 0 (S k)))).
  { rewrite filter_valid_S, Hv, map_app, Hlog. reflexivity. }
  destruct (gt v (maxVariance st)) eqn:Egt.
  - apply IH; simpl.
    + reflexivity.
    + reflexivity.
    + rewrite reached_S, Hreach, EF. simpl. now rewrite orb_true_r.
    + unfold gt in Egt. split; simpl.
      * exact Hlog'.
      * intros t Ht Hvt. unfold gt.
        destruct (decide (t = k)) as [->|Hne]; [apply ltb_irrefl|].
        destruct (v <? varAt hist N T t)%float eqn:E;
          [|first [reflexivity|exact E]].
        specialize (Hmax t ltac:(lia) Hvt). unfold gt in Hmax.
        rewrite (ltb_trans _ _ _ Egt E) in Hmax. discriminate.
      * right. exists k. repeat split; auto.
        intros i Hi Hvi.
        destruct (v <=? varAt hist N T i)%float eqn:E;
          [|first [reflexivity|exact E]].
        specialize (Hmax i Hi Hvi). unfold gt in Hmax.
        rewrite (ltb_leb_trans _ _ _ Egt E) in Hmax. discriminate.
  - apply IH; simpl.
    + reflexivity.
    + reflexivity.
    + rewrite reached_S, Hreach, EF. simpl. now rewrite orb_true_r.
    + split; simpl.
      * exact Hlog'.
      * intros t Ht Hvt.
        destruct (decide (t = k)) as [->|Hne]; [exact Egt|].
        apply Hmax; auto. lia.
      * destruct Harg as [?|(t & Hlt' & ?)]; [left; auto|].
        right. exists t. split; [lia|auto].
Qed.

Lemma swept_init hist N T : swept hist N T 0 sweepInit.
Proof.
  split; simpl.
  - reflexivity.
  - intros t Ht. lia.
  - left. auto.
Qed.

Lemma runSweep_swept grayData w h :
  swept (histogramOf grayData) (Z.of_nat w * Z.of_nat h)
        (totalIntensityOf grayData) 256 (runSweep grayData w h).
Proof.
  unfold runSweep, thresholds.
  apply (sweep_inv _ _ _ (histogram_nonneg grayData) 256 0%nat sweepInit);
    auto using swept_init.
Qed.

End OtsuFacts.

(** * Component extraction *)

Section FloodFacts.
Variable m : list (list Z).
Variables w h : nat.
Hypothesis Hrows : (h <= length m)%nat.

Local Abbreviation inImg := (inImage w h).
Local Abbreviation fg := (foreground m w h).
Local Abbreviation conn := (connected m w h).
Local Abbreviation dims := (gridDims w h).

(** *** The grid of flags *)

Lemma markVisited_dims v y x : dims v -> dims (markVisited v y x).
Proof.
  intros [Hl Hr]. split.
  - unfold markVisited. now rewrite length_alter.
  - unfold markVisited. apply Forall_lookup. intros i row Hi.
    destruct (decide (i = y)) as [->|Hne].
    + rewrite list_lookup_alter_eq in Hi.
      destruct (v !! y) as [r|] eqn:E; simplify_eq/=.
      rewrite length_insert. exact (Forall_lookup_1 _ _ _ _ Hr E).
    + rewrite list_lookup_alter_ne in Hi by auto.
      exact (Forall_lookup_1 _ _ _ _ Hr Hi).
Qed.

Lemma isVisited_mark_eq v y x :
  dims v -> (y < h)%nat -> (x < w)%nat ->
  isVisited (markVisited v y x) y x = true.
Proof.
  intros [Hl Hr] Hy Hx. unfold isVisited, markVisited.
  rewrite list_lookup_alter_eq.
  destruct (lookup_lt_is_Some_2 v y) as [row Hrow]; [lia|].
  rewrite Hrow. simpl.
  rewrite list_lookup_insert_eq; [reflexivity|].
  rewrite (Forall_lookup_1 _ _ _ _ Hr Hrow). exact Hx.
Qed.

Lemma isVisited_mark_ne v y x y' x' :
  (y, x) <> (y', x') ->
  isVisited (markVisited v y x) y' x' = isVisited v y' x'.
Proof.
  intros Hne. unfold isVisited, markVisited.
  destruct (decide (y = y')) as [->|Hy].
  - rewrite list_lookup_alter_eq. destruct (v !! y'); simpl; [|reflexivity].
    rewrite list_lookup_insert_ne; [reflexivity|congruence].
  - now rewrite list_lookup_alter_ne.
Qed.

Lemma visitedAt_mark v p q :
  dims v -> inImg p -> inImg q ->
  visitedAt (markVisited v (Z.to_nat (py p)) (Z.to_nat (px p))) q = true <->
  q = p \/ visitedAt v q = true.
Proof.
  intros Hd [Hpx Hpy] [Hqx Hqy]. unfold visitedAt.
  destruct (decide (q = p)) as [->|Hne].
  - rewrite isVisited_mark_eq by (auto; lia). tauto.
  - rewrite isVisited_mark_ne.
    + split; [auto|]. intros [?|?]; [contradiction|auto].
    + intros E. apply Hne. inversion E as [[Ey Ex]].
      destruct p, q; simpl in *. f_equal; lia.
Qed.

(** *** Reading the mask *)

Lemma readMask_inImage p :
  inImg p ->
  exists b, readMask m (Z.to_nat (py p)) (Z.to_nat (px p)) = Ok b /\
            (b = true <-> fg p).
Proof.
  intros Hin. unfold readMask, foreground.
  destruct (lookup_lt_is_Some_2 m (Z.to_nat (py p))) as [row Hrow].
  { destruct Hin. lia. }
  rewrite Hrow. simpl. eexists. split; [reflexivity|].
  rewrite bool_decide_eq_true. tauto.
Qed.

Lemma inBounds_inImage x y :
  inBounds w h x y = true <-> inImg (mkPoint x y).
Proof.
  unfold inBounds, inImage. simpl.
  rewrite !andb_true_iff, !Z.leb_le, !Z.ltb_lt. tauto.
Qed.

(** *** Neighbours *)

Lemma offsets_eq :
  offsets = [(-1, -1); (0, -1); (1, -1); (-1, 0); (1, 0); (-1, 1); (0, 1); (1, 1)].
Proof. reflexivity. Qed.

Lemma adjacent_offsets p q :
  adjacent p q <-> exists d, d ∈ offsets /\ q = mkPoint (px p + d.1) (py p + d.2).
Proof.
  rewrite offsets_eq. unfold adjacent. split.
  - intros (Hx & Hy & Hne). destruct p as [x y], q as [x' y']. simpl in *.
    assert (Hx' : x' = x - 1 \/ x' = x \/ x' = x + 1) by lia.
    assert (Hy' : y' = y - 1 \/ y' = y \/ y' = y + 1) by lia.
    exists (x' - x, y' - y). split.
    + destruct Hx' as [-> | [-> | ->]], Hy' as [-> | [-> | ->]];
        try (exfalso; apply Hne; reflexivity);
        rewrite ?Z.sub_diag;
        repeat match goal with
               | |- context [?a - 1 - ?a] => replace (a - 1 - a) with (-1) by lia
               | |- context [?a + 1 - ?a] => replace (a + 1 - a) with 1 by lia
               end;
        set_solver.
    + simpl. f_equal; lia.
  - intros (d & Hd & ->). destruct p as [x y]. simpl.
    repeat (apply elem_of_cons in Hd as [->|Hd]); try (now inversion Hd);
      simpl; (repeat split; [lia|lia|intros E; inversion E; lia]).
Qed.

Lemma adjacent_sym p q : adjacent p q -> adjacent q p.
Proof. unfold adjacent. intros (?&?&?). repeat split; try lia. congruence. Qed.

(** *** One neighbour *)

Local Abbreviation core := (floodCore m w h).
Local Abbreviation done' := (floodDone m w h).

Lemma visitNeighbour_spec v0 s p queue visited B d :
  core v0 s queue visited B -> p ∈ B -> d ∈ offsets ->
  exists queue' visited',
    visitNeighbour m w h p (queue, visited) d = Ok (queue', visited') /\
    core v0 s queue' visited' B /\
    (forall q, inImg q -> visitedAt visited q = true ->
               visitedAt visited' q = true) /\
    (fg (offsetBy p d) -> visitedAt visited' (offsetBy p d) = true).
Proof.
  intros Hc Hp Hd. unfold visitNeighbour. fold (offsetBy p d).
  change (px p + d.1) with (px (offsetBy p d)).
  change (py p + d.2) with (py (offsetBy p d)).
  set (n := offsetBy p d).
  assert (Hsame : exists queue' visited',
            Ok (queue, visited) = Ok (queue', visited') /\
            core v0 s queue' visited' B /\
            (forall q, inImg q -> visitedAt visited q = true ->
                       visitedAt visited' q = true)).
  { exists queue, visited. auto. }
  destruct (inBounds w h (px n) (py n)) eqn:Eb.
  2:{ destruct Hsame as (q' & v' & E & ? & ?). exists q', v'.
      split; [exact E|]. split; [assumption|]. split; [assumption|].
      intros [Hin _]. apply (inBounds_inImage (px n) (py n)) in Hin.
      congruence. }
  assert (Hin : inImg n) by (now apply (inBounds_inImage (px n) (py n))).
  destruct (readMask_inImage n Hin) as (b & Hb & Hfg).
  rewrite Hb. cbn [mbind outcome_bind].
  fold (visitedAt visited n).
  destruct b; cbn [andb negb].
  2:{ exists queue, visited.
      split; [reflexivity|]. split; [assumption|]. split; [auto|].
      intros Hn. apply Hfg in Hn. discriminate. }
  destruct (visitedAt visited n) eqn:Ev; cbn [andb negb].
  { exists queue, visited.
    split; [reflexivity|]. split; [assumption|]. split; auto. }
  assert (Hfgn : fg n) by (now apply Hfg).
  assert (Hnot : n ∉ B ++ queue).
  { intros Hn.
    assert (visitedAt visited n = true); [|congruence].
    apply (fc_visited _ _ _ _ _ _ _ _ Hc n Hin). now right. }
  replace (mkPoint (px n) (py n)) with n by (now destruct n).
  eexists _, _. split; [reflexivity|].
  split; [|split].
  - split.
    + apply markVisited_dims. apply Hc.
    + intros q Hq. rewrite visitedAt_mark by (auto; apply Hc).
      rewrite (fc_visited _ _ _ _ _ _ _ _ Hc q Hq).
      rewrite app_assoc, (elem_of_app (B ++ queue)), list_elem_of_singleton.
      tauto.
    + rewrite app_assoc. apply NoDup_app. split; [apply Hc|]. split.
      * intros q Hq Hq'. apply list_elem_of_singleton in Hq'. now subst.
      * apply NoDup_singleton.
    + intros q Hq. rewrite app_assoc, elem_of_app in Hq.
      destruct Hq as [Hq|Hq]; [now apply (fc_fresh _ _ _ _ _ _ _ _ Hc)|].
      apply list_elem_of_singleton in Hq. subst q.
      destruct (fc_fresh _ _ _ _ _ _ _ _ Hc p) as (Hfp & _ & Hcp);
        [apply elem_of_app; now left|].
      split; [assumption|]. split.
      * destruct (visitedAt v0 n) eqn:E0; [|reflexivity].
        rewrite <- Ev. symmetry.
        apply (fc_visited _ _ _ _ _ _ _ _ Hc n Hin). now left.
      * eapply connected_step; eauto.
        apply adjacent_offsets. exists d. auto.
    + rewrite app_assoc. apply head_app_Some. left.
      exact (fc_head _ _ _ _ _ _ _ _ Hc).
  - intros q Hq Hv.
    apply visitedAt_mark; [apply Hc|assumption|assumption|now right].
  - intros _.
    apply visitedAt_mark; [apply Hc|assumption|assumption|now left].
Qed.

(** *** The eight neighbours of one pixel *)

Lemma visitAll_spec v0 s p B ds : forall queue visited,
  core v0 s queue visited B -> p ∈ B -> (forall d, d ∈ ds -> d ∈ offsets) ->
  exists queue' visited',
    visitAll m w h p ds (queue, visited) = Ok (queue', visited') /\
    core v0 s queue' visited' B /\
    (forall q, inImg q -> visitedAt visited q = true ->
               visitedAt visited' q = true) /\
    (forall d, d ∈ ds -> fg (offsetBy p d) ->
               visitedAt visited' (offsetBy p d) = true).
Proof.
  induction ds as [|d ds IH]; intros queue visited Hc Hp Hds.
  - exists queue, visited. split; [reflexivity|]. split; [assumption|].
    split; [auto|]. intros d Hd. inversion Hd.
  - destruct (visitNeighbour_spec v0 s p queue visited B d Hc Hp)
      as (q1 & v1 & E1 & Hc1 & Hm1 & Hn1); [apply Hds; left|].
    destruct (IH q1 v1 Hc1 Hp) as (q2 & v2 & E2 & Hc2 & Hm2 & Hn2).
    { intros d' Hd'. apply Hds. now right. }
    exists q2, v2. cbn [visitAll]. rewrite E1. cbn [mbind outcome_bind].
    split; [exact E2|]. split; [assumption|]. split; [auto|].
    intros d' Hd' Hfg. apply elem_of_cons in Hd' as [->|Hd'].
    + apply Hm2; [apply Hfg|]. now apply Hn1.
    + now apply Hn2.
Qed.

(** *** At most [w * h] distinct pixels *)

Lemma nodup_bound (l : list Point) :
  NoDup l -> (forall p, p ∈ l -> inImg p) -> (length l <= w * h)%nat.
Proof.
  intros Hnd Hin.
  set (idx := fun p : Point => (Z.to_nat (py p) * w + Z.to_nat (px p))%nat).
  assert (H : (length (idx <$> l) <= length (seq 0%nat (w * h)))%nat);
    [|now rewrite length_fmap, length_seq in H].
  apply submseteq_length, NoDup_submseteq.
  - apply NoDup_fmap_2_strong; [|exact Hnd].
    intros p q Hp Hq E. destruct (Hin p Hp) as [Hpx Hpy].
    destruct (Hin q Hq) as [Hqx Hqy]. unfold idx in E.
    assert (Hp1 : (Z.to_nat (px p) < w)%nat) by lia.
    assert (Hq1 : (Z.to_nat (px q) < w)%nat) by lia.
    assert (Ey : Z.to_nat (py p) = Z.to_nat (py q)).
    { revert E Hp1 Hq1. generalize (Z.to_nat (py p)) (Z.to_nat (py q))
        (Z.to_nat (px p)) (Z.to_nat (px q)). intros. nia. }
    assert (Ex : Z.to_nat (px p) = Z.to_nat (px q)) by nia.
    destruct p, q; simpl in *. f_equal; lia.
  - intros i Hi. apply list_elem_of_fmap in Hi as (p & -> & Hp).
    destruct (Hin p Hp) as [Hpx Hpy]. apply elem_of_seq. unfold idx.
    assert (Hp1 : (Z.to_nat (px p) < w)%nat) by lia.
    assert (Hp2 : (Z.to_nat (py p) < h)%nat) by lia.
    revert Hp1 Hp2. generalize (Z.to_nat (py p)) (Z.to_nat (px p)).
    intros. nia.
Qed.

(** *** The loop over the queue *)

Lemma floodLoop_spec v0 s : forall fuel queue visited blob,
  core v0 s queue visited blob -> done' visited blob ->
  (w * h - length blob <= fuel)%nat ->
  exists blob' visited',
    floodLoop m w h fuel queue visited blob = Ok (blob', visited') /\
    core v0 s [] visited' blob' /\ done' visited' blob'.
Proof.
  induction fuel as [|fuel IH]; intros queue visited blob Hc Hdone Hfuel;
    (destruct queue as [|p rest];
     [exists blob, visited; simpl; auto|]).
  - exfalso.
    assert (length (blob ++ p :: rest) <= w * h)%nat.
    { apply nodup_bound; [apply Hc|].
      intros q Hq. now apply (fc_fresh _ _ _ _ _ _ _ _ Hc q Hq). }
    rewrite length_app in *. simpl in *. lia.
  - assert (Hc' : core v0 s rest visited (blob ++ [p])).
    { destruct Hc as [H1 H2 H3 H4 H5].
      split; rewrite <- ?app_assoc; simpl; auto. }
    destruct (visitAll_spec v0 s p (blob ++ [p]) offsets rest visited Hc')
      as (q1 & v1 & E1 & Hc1 & Hm1 & Hn1); auto.
    { apply elem_of_app. right. left. }
    cbn [floodLoop]. rewrite E1. cbn [mbind outcome_bind].
    apply IH; auto.
    + intros x q Hx Hq Hadj. apply elem_of_app in Hx as [Hx|Hx].
      * apply Hm1; [apply Hq|]. eapply Hdone; eauto.
      * apply list_elem_of_singleton in Hx. subst x.
        apply adjacent_offsets in Hadj as (d & Hd & ->).
        now apply Hn1.
    + rewrite length_app. simpl. lia.
Qed.

(** *** One flood fill *)

Lemma floodFill_spec v0 x y fuel :
  dims v0 -> flagsClosed m w h v0 ->
  (x < w)%nat -> (y < h)%nat ->
  let s := mkPoint (Z.of_nat x) (Z.of_nat y) in
  fg s -> visitedAt v0 s = false -> (w * h <= fuel)%nat ->
  exists blob v',
    floodFill m w h fuel x y v0 = Ok (blob, v') /\
    dims v' /\
    (forall p, inImg p ->
       (visitedAt v' p = true <-> visitedAt v0 p = true \/ p ∈ blob)) /\
    NoDup blob /\
    (forall p, p ∈ blob -> fg p /\ visitedAt v0 p = false /\ conn s p) /\
    head blob = Some s /\
    (forall p q, p ∈ blob -> fg q -> adjacent p q -> q ∈ blob).
Proof.
  intros Hd Hcl Hx Hy s Hs Hv Hfuel.
  assert (Hin : inImg s) by apply Hs.
  assert (Hc : core v0 s [s] (markVisited v0 y x) []).
  { split; simpl.
    - now apply markVisited_dims.
    - intros p Hp. pose proof (visitedAt_mark v0 s p Hd Hin Hp) as H.
      simpl in H. rewrite !Nat2Z.id in H.
      rewrite H, list_elem_of_singleton. tauto.
    - apply NoDup_singleton.
    - intros p Hp. apply list_elem_of_singleton in Hp. subst p.
      split; [assumption|]. split; [assumption|]. now constructor.
    - reflexivity. }
  destruct (floodLoop_spec v0 s fuel [s] (markVisited v0 y x) [] Hc)
    as (blob & v' & E & Hc' & Hdone).
  { intros p q Hp. inversion Hp. }
  { simpl. lia. }
  exists blob, v'. split; [exact E|].
  destruct Hc' as [H1 H2 H3 H4 H5]. rewrite app_nil_r in *.
  split; [assumption|]. split; [assumption|]. split; [assumption|].
  split; [assumption|]. split; [assumption|].
  intros p q Hp Hq Hadj.
  pose proof (Hdone p q Hp Hq Hadj) as Hvq.
  apply H2 in Hvq; [|apply Hq]. destruct Hvq as [Hvq|Hvq]; [|assumption].
  exfalso. destruct (H4 p Hp) as (Hfp & Hvp & _).
  rewrite (Hcl q p Hq Hfp (adjacent_sym _ _ Hadj) Hvq) in Hvp. discriminate.
Qed.

(** *** The scanning loops *)

Local Abbreviation sinv := (scanInv m w h).

Lemma region_closed contours visited todo :
  sinv todo contours visited -> flagsClosed m w h visited.
Proof.
  intros Hi p q Hp Hq Hadj Hv.
  apply (si_visited _ _ _ _ _ _ Hi); [apply Hq|].
  apply (si_visited _ _ _ _ _ _ Hi) in Hv; [|apply Hp].
  apply list_elem_of_In, in_concat in Hv as (b & Hb & Hpb).
  apply list_elem_of_In in Hb, Hpb.
  pose proof (si_regions _ _ _ _ _ _ Hi) as Hreg.
  rewrite Forall_forall in Hreg.
  destruct (Hreg b Hb) as (s & _ & Hiff & _).
  apply list_elem_of_In, in_concat. exists b.
  split; [now apply list_elem_of_In|]. apply list_elem_of_In, Hiff.
  eapply connected_step; eauto. now apply Hiff.
Qed.

Lemma firstPixels_snoc contours (blob : list Point) s :
  head blob = Some s ->
  firstPixels (contours ++ [blob]) = firstPixels contours ++ [s].
Proof.
  intros H. unfold firstPixels. rewrite omap_app. simpl. now rewrite H.
Qed.

Lemma pos_eq (p : Point) y x :
  inImg p -> (Z.to_nat (py p), Z.to_nat (px p)) = (y, x) ->
  p = mkPoint (Z.of_nat x) (Z.of_nat y).
Proof.
  intros [Hx Hy] E. inversion E. destruct p; simpl in *. f_equal; lia.
Qed.

(** A pixel that is skipped: background, or already flagged. *)
Lemma scanInv_skip y x todo contours visited :
  sinv ((y, x) :: todo) contours visited ->
  (fg (mkPoint (Z.of_nat x) (Z.of_nat y)) ->
   visitedAt visited (mkPoint (Z.of_nat x) (Z.of_nat y)) = true) ->
  sinv todo contours visited.
Proof.
  intros [H1 H2 H3 H4 H5 H6 H7 H8] Hc. split; auto.
  - intros p Hp Hnot.
    destruct (decide ((Z.to_nat (py p), Z.to_nat (px p)) = (y, x))) as [E|E].
    + apply pos_eq in E; [|apply Hp]. subst p.
      apply H2; [apply Hp|]. auto.
    + apply H6; auto. rewrite not_elem_of_cons. auto.
  - intros s y' x' Hs Hyx. apply H8; auto. now right.
Qed.

(** A pixel from which a region is flooded. *)
Lemma scanInv_flood y x todo contours visited blob v' :
  let c := mkPoint (Z.of_nat x) (Z.of_nat y) in
  sinv ((y, x) :: todo) contours visited ->
  StronglySorted scanLt ((y, x) :: todo) ->
  dims v' ->
  (forall p, inImg p ->
     (visitedAt v' p = true <-> visitedAt visited p = true \/ p ∈ blob)) ->
  NoDup blob ->
  (forall p, p ∈ blob -> fg p /\ visitedAt visited p = false /\ conn c p) ->
  head blob = Some c ->
  (forall p q, p ∈ blob -> fg q -> adjacent p q -> q ∈ blob) ->
  sinv todo (contours ++ [blob]) v'.
Proof.
  intros c [H1 H2 H3 H4 H5 H6 H7 H8] Hsorted B1 B2 B3 B4 B5 B6.
  apply StronglySorted_cons in Hsorted as [Hall _].
  rewrite Forall_forall in Hall.
  assert (Econcat : concat (contours ++ [blob]) = concat contours ++ blob).
  { rewrite concat_app. simpl. now rewrite app_nil_r. }
  assert (Hcin : c ∈ blob).
  { destruct blob; simplify_eq/=. left. }
  assert (Hnew : forall p, p ∈ blob -> p ∉ concat contours).
  { intros p Hp Hp'. destruct (B4 p Hp) as (Hf & Hv & _).
    apply H2 in Hp'; [congruence|apply Hf]. }
  split; rewrite ?Econcat.
  - assumption.
  - intros p Hp. rewrite B2, H2, elem_of_app by assumption. tauto.
  - apply NoDup_app. split; [assumption|]. split; [|assumption].
    intros p Hp Hp'. now apply (Hnew p).
  - intros p Hp. apply elem_of_app in Hp as [Hp|Hp]; [auto|].
    now apply B4.
  - apply Forall_app. split; [assumption|].
    apply Forall_singleton. exists c. split; [assumption|]. split.
    + intros p. split; [intros Hp; now apply B4|].
      induction 1 as [p Hp|p q r Hpq IH Hr Hadj]; eauto.
    + intros p Hp.
      destruct (decide (p = c)) as [|Hne]; [now left|right].
      destruct (B4 p Hp) as (Hf & _ & _).
      destruct (decide ((Z.to_nat (py p), Z.to_nat (px p)) ∈ (y, x) :: todo))
        as [Hpos|Hpos].
      * apply elem_of_cons in Hpos as [E|Hpos].
        { apply pos_eq in E; [contradiction|apply Hf]. }
        apply Hall in Hpos. destruct Hf as [[? ?] _].
        unfold scanLt, rowMajorLt in *. simpl in *. lia.
      * exfalso. apply (Hnew p Hp). now apply H6.
  - intros p Hp Hnot.
    destruct (decide ((Z.to_nat (py p), Z.to_nat (px p)) = (y, x))) as [E|E].
    + apply pos_eq in E; [|apply Hp]. subst p. apply elem_of_app. now right.
    + apply elem_of_app. left. apply H6; auto.
      rewrite not_elem_of_cons. auto.
  - rewrite (firstPixels_snoc _ _ c) by assumption.
    apply StronglySorted_app. split; [|split; [assumption|repeat constructor]].
    intros s c' Hs Hc'. apply list_elem_of_singleton in Hc'. subst c'.
    apply (H8 s y x Hs). left.
  - intros s y' x' Hs Hyx.
    rewrite (firstPixels_snoc _ _ c) in Hs by assumption.
    apply elem_of_app in Hs as [Hs|Hs].
    + apply (H8 s y' x' Hs). now right.
    + apply list_elem_of_singleton in Hs. subst s.
      apply Hall in Hyx.
      unfold scanLt, rowMajorLt in *. simpl in *. lia.
Qed.

Lemma scanAll_spec fuel :
  (w * h <= fuel)%nat ->
  forall todo contours visited,
    sinv todo contours visited ->
    StronglySorted scanLt todo ->
    (forall y x, (y, x) ∈ todo -> (y < h)%nat /\ (x < w)%nat) ->
    exists contours' visited',
      scanAll m w h fuel todo (contours, visited) = Ok (contours', visited') /\
      sinv [] contours' visited'.
Proof.
  intros Hfuel. induction todo as [|[y x] todo IH];
    intros contours visited Hi Hsorted Hb.
  { exists contours, visited. auto. }
  destruct (Hb y x) as [Hy Hx]; [left|].
  set (c := mkPoint (Z.of_nat x) (Z.of_nat y)).
  assert (Hin : inImg c) by (unfold inImage; simpl; lia).
  destruct (readMask_inImage c Hin) as (b & Hread & Hfg).
  simpl in Hread. rewrite !Nat2Z.id in Hread.
  assert (Hvis : isVisited visited y x = visitedAt visited c).
  { unfold visitedAt. simpl. now rewrite !Nat2Z.id. }
  assert (Hsorted' : StronglySorted scanLt todo).
  { now apply StronglySorted_cons in Hsorted as [_ ?]. }
  assert (Hb' : forall y x, (y, x) ∈ todo -> (y < h)%nat /\ (x < w)%nat).
  { intros y' x' H'. apply Hb. now right. }
  cbn [scanAll]. unfold scanPixel. rewrite Hread. cbn [mbind outcome_bind].
  rewrite Hvis.
  destruct (b && negb (visitedAt visited c)) eqn:Eb.
  - apply andb_true_iff in Eb as [-> Ev]. apply negb_true_iff in Ev.
    destruct (floodFill_spec visited x y fuel) as
      (blob & v' & E & B1 & B2 & B3 & B4 & B5 & B6);
      auto; [apply Hi|eapply region_closed; eauto|now apply Hfg|].
    rewrite E. cbn [mbind outcome_bind].
    apply IH; auto.
    eapply scanInv_flood; eauto.
  - cbn [mbind outcome_bind]. apply IH; auto.
    eapply scanInv_skip; eauto. intros Hc. apply Hfg in Hc. subst b.
    simpl in Eb. now apply negb_false_iff in Eb.
Qed.

(** *** The scan order *)

Lemma scanOrder_elem y x :
  (y, x) ∈ scanOrder w h <-> (y < h)%nat /\ (x < w)%nat.
Proof using Type.
  clear Hrows.
  unfold scanOrder. rewrite list_elem_of_bind. split.
  - intros (y' & Hx & Hy). apply list_elem_of_bind in Hx as (x' & Hx & Hx').
    apply list_elem_of_singleton in Hx. inversion Hx; subst.
    apply elem_of_seq in Hy, Hx'. lia.
  - intros [Hy Hx]. exists y. split; [|apply elem_of_seq; lia].
    apply list_elem_of_bind. exists x. split; [left|apply elem_of_seq; lia].
Qed.

Lemma seq_sorted n : forall a, StronglySorted Nat.lt (seq a n).
Proof.
  induction n as [|n IH]; intros a; simpl; constructor; auto.
  apply Forall_forall. intros b Hb. apply elem_of_seq in Hb. lia.
Qed.

Lemma row_sorted y xs :
  StronglySorted Nat.lt xs ->
  StronglySorted scanLt (xs ≫= fun x => [(y, x)]).
Proof.
  induction 1 as [|x xs Hs IH Hall]; simpl; constructor; auto.
  apply Forall_forall. intros [y' x'] Hin.
  apply list_elem_of_bind in Hin as (x'' & Hin & Hx'').
  apply list_elem_of_singleton in Hin. inversion Hin; subst.
  rewrite Forall_forall in Hall. right. simpl. split; auto.
  apply Hall. assumption.
Qed.

Lemma grid_sorted ys xs :
  StronglySorted Nat.lt ys -> StronglySorted Nat.lt xs ->
  StronglySorted scanLt (ys ≫= fun y => xs ≫= fun x => [(y, x)]).
Proof.
  intros Hys Hxs. induction Hys as [|y ys Hs IH Hall]; simpl; [constructor|].
  apply StronglySorted_app. split; [|split; auto using row_sorted].
  intros [y1 x1] [y2 x2] H1 H2.
  apply list_elem_of_bind in H1 as (x' & H1 & _).
  apply list_elem_of_singleton in H1. inversion H1; subst.
  apply list_elem_of_bind in H2 as (y' & H2 & Hy').
  apply list_elem_of_bind in H2 as (x'' & H2 & _).
  apply list_elem_of_singleton in H2. inversion H2; subst.
  rewrite Forall_forall in Hall. left. simpl. now apply Hall.
Qed.

Lemma scanOrder_sorted : StronglySorted scanLt (scanOrder w h).
Proof. apply grid_sorted; apply seq_sorted. Qed.

Lemma visitedAt_init p :
  visitedAt (replicate h (replicate w false)) p = false.
Proof.
  unfold visitedAt, isVisited.
  destruct (replicate h (replicate w false) !! Z.to_nat (py p)) as [row|] eqn:E;
    [|reflexivity].
  apply lookup_replicate in E as [-> _]. simpl.
  destruct (replicate w false !! Z.to_nat (px p)) as [b|] eqn:E';
    [|reflexivity].
  now apply lookup_replicate in E' as [-> _].
Qed.

Lemma scanInv_init :
  sinv (scanOrder w h) [] (replicate h (replicate w false)).
Proof.
  split; simpl.
  - split; [apply length_replicate|].
    apply Forall_replicate, length_replicate.
  - intros p _. rewrite visitedAt_init. split; [discriminate|].
    intros H. inversion H.
  - constructor.
  - intros p H. inversion H.
  - constructor.
  - intros p [[Hx Hy] _] Hnot. exfalso. apply Hnot, scanOrder_elem. lia.
  - constructor.
  - intros s y x H. inversion H.
Qed.

Lemma findContours_spec fuel :
  (w * h <= fuel)%nat ->
  exists blobs visited,
    findContours m w h fuel = Ok blobs /\ sinv [] blobs visited.
Proof.
  intros Hfuel. unfold findContours.
  destruct (scanAll_spec fuel Hfuel (scanOrder w h) []
              (replicate h (replicate w false)))
    as (blobs & visited & E & Hi);
    auto using scanInv_init, scanOrder_sorted.
  { intros y x. apply scanOrder_elem. }
  rewrite E. exists blobs, visited. auto.
Qed.

(** *** Connectivity is an equivalence on the foreground *)

Lemma connected_fg_r p q : conn p q -> fg q.
Proof. now destruct 1. Qed.

Lemma connected_fg_l p q : conn p q -> fg p.
Proof. induction 1; auto. Qed.

Lemma connected_trans p q r : conn p q -> conn q r -> conn p r.
Proof. intros Hpq. induction 1; eauto using connected_step. Qed.

Lemma connected_sym p q : conn p q -> conn q p.
Proof.
  induction 1 as [p Hp|p q r Hpq IH Hr Hadj]; [now constructor|].
  eapply connected_trans; [|exact IH].
  eapply connected_step; [now constructor| |now apply adjacent_sym].
  eapply connected_fg_r; eauto.
Qed.

Lemma concat_unique (blobs : list (list Point)) : forall i j b b' p,
  NoDup (concat blobs) ->
  blobs !! i = Some b -> blobs !! j = Some b' -> p ∈ b -> p ∈ b' -> i = j.
Proof.
  induction blobs as [|b0 blobs IH]; intros i j b b' p Hnd Hi Hj Hp Hp';
    [inversion Hi|].
  simpl in Hnd. apply NoDup_app in Hnd as (_ & Hdisj & Hnd).
  assert (Hin : forall k c, blobs !! k = Some c -> p ∈ c -> p ∈ concat blobs).
  { intros k c Hk Hc. apply list_elem_of_In, in_concat. exists c.
    split; apply list_elem_of_In; [|assumption].
    eapply list_elem_of_lookup_2; eauto. }
  destruct i as [|i], j as [|j]; simplify_eq/=; auto.
  - exfalso. eapply Hdisj; eauto.
  - exfalso. eapply Hdisj; eauto.
  - f_equal. eauto.
Qed.

End FloodFacts.

(** * Fuel monotonicity and absence of exceptions *)

Section Fuel.

Lemma fuelMono_const {A} (o : outcome A) : fuelMono (fun _ => o).
Proof. intros f f' r H _. exact H. Qed.

Lemma fuelMono_bind {A B} (F : nat -> outcome A) (G : A -> nat -> outcome B) :
  fuelMono F -> (forall a, fuelMono (G a)) ->
  fuelMono (fun f => a ← F f; G a f).
Proof.
  intros HF HG f f' r H Hle. cbn [mbind outcome_bind] in *.
  destruct (F f) as [a| |] eqn:E; try discriminate.
  rewrite (HF f f' a E Hle). cbn [mbind outcome_bind] in *. eapply HG; eauto.
Qed.

Lemma noThrow_bind {A B} (o : outcome A) (k : A -> outcome B) :
  noThrow o -> (forall a, o = Ok a -> noThrow (k a)) -> noThrow (a ← o; k a).
Proof.
  intros Ho Hk e. cbn [mbind outcome_bind].
  destruct o as [a|e'|]; [now apply Hk|now destruct (Ho e')|discriminate].
Qed.

Lemma noThrow_Ok {A} (a : A) : noThrow (Ok a).
Proof. intros e. discriminate. Qed.

Lemma noThrow_OutOfFuel {A} : noThrow (@OutOfFuel A).
Proof. intros e. discriminate. Qed.

(** *** Flood fill *)

Lemma floodLoop_mono m w h queue visited blob :
  fuelMono (fun f => floodLoop m w h f queue visited blob).
Proof.
  intros f. revert queue visited blob.
  induction f as [|f IH]; intros queue visited blob f' r H Hle;
    destruct queue as [|p rest]; cbn [floodLoop] in *; try discriminate.
  - destruct f'; exact H.
  - destruct f'; exact H.
  - destruct f' as [|f']; [lia|]. cbn [floodLoop].
    destruct (visitAll m w h p offsets (rest, visited)) as [[q v]| |];
      cbn [mbind outcome_bind] in *; try discriminate.
    apply IH; [exact H|lia].
Qed.

Lemma floodFill_mono m w h x y visited :
  fuelMono (fun f => floodFill m w h f x y visited).
Proof. apply floodLoop_mono. Qed.

Lemma scanPixel_mono m w h st yx :
  fuelMono (fun f => scanPixel m w h f st yx).
Proof.
  intros f f' r H Hle. unfold scanPixel in *.
  destruct st as [contours visited], yx as [y x].
  destruct (readMask m y x) as [b| |]; cbn [mbind outcome_bind] in *;
    try discriminate.
  destruct (b && negb (isVisited visited y x)); [|exact H].
  destruct (floodFill m w h f x y visited) as [cv| |] eqn:E;
    try discriminate.
  now rewrite (floodFill_mono m w h x y visited f f' cv E Hle).
Qed.

Lemma scanAll_mono m w h todo : forall st,
  fuelMono (fun f => scanAll m w h f todo st).
Proof.
  induction todo as [|yx todo IH]; intros st f f' r H Hle;
    cbn [scanAll] in *; [exact H|].
  destruct (scanPixel m w h f st yx) as [st'| |] eqn:E; try discriminate.
  rewrite (scanPixel_mono m w h st yx f f' st' E Hle).
  cbn [mbind outcome_bind] in *. eapply IH; eauto.
Qed.

Lemma findContours_mono m w h : fuelMono (findContours m w h).
Proof.
  intros f f' r H Hle. unfold findContours in *.
  destruct (scanAll m w h f (scanOrder w h) _) as [st| |] eqn:E;
    try discriminate.
  now rewrite (scanAll_mono m w h _ _ f f' st E Hle).
Qed.

(** *** Tracing, simplification, classification *)

Lemma traceLoop_mono bs s : forall cur dir per,
  fuelMono (fun f => Trace.traceLoop f bs s cur dir per).
Proof.
  intros cur dir per f. revert cur dir per.
  induction f as [|f IH]; intros cur dir per f' r H Hle;
    cbn [Trace.traceLoop] in *; [discriminate|].
  destruct f' as [|f']; [lia|]. cbn [Trace.traceLoop].
  destruct (Trace.findNext bs cur dir) as [[nxt d]|]; [|exact H].
  destruct (negb (px nxt =? px s) || negb (py nxt =? py s)); [|exact H].
  apply IH; [exact H|lia].
Qed.

Lemma traceContour_mono blob w h :
  fuelMono (fun f => traceContour f blob w h).
Proof.
  intros f f' r H Hle. unfold traceContour in *.
  destruct (Trace.startPointOf blob) as [s| |]; cbn [mbind outcome_bind] in *;
    try discriminate.
  eapply traceLoop_mono; eauto.
Qed.

Lemma rdp_mono eps : forall points, fuelMono (fun f => rdp f points eps).
Proof.
  intros points f. revert points.
  induction f as [|f IH]; intros points f' r H Hle;
    cbn [rdp] in *; [discriminate|].
  destruct f' as [|f']; [lia|]. cbn [rdp].
  destruct (length points <? 3)%nat; [exact H|].
  destruct (farthest points) as [index dmax].
  destruct (gt dmax eps); [|exact H].
  destruct (rdp f (take (index + 1) points) eps) as [r1| |] eqn:E1;
    try discriminate.
  rewrite (IH _ f' r1 E1) by lia. cbn [mbind outcome_bind] in *.
  destruct (rdp f (drop index points) eps) as [r2| |] eqn:E2;
    try discriminate.
  rewrite (IH _ f' r2 E2) by lia. exact H.
Qed.

Lemma processBlob_mono w h blob : fuelMono (fun f => processBlob f w h blob).
Proof.
  intros f f' r H Hle. unfold processBlob in *.
  destruct (length blob <? 100)%nat; [exact H|].
  destruct (traceContour f blob w h) as [per| |] eqn:E; try discriminate.
  rewrite (traceContour_mono blob w h f f' per E Hle).
  cbn [mbind outcome_bind] in *.
  destruct (lt _ Lit.c0_2); [exact H|].
  destruct (gt _ Lit.c0_95); [exact H|].
  destruct (rdp f per _) as [vs| |] eqn:E'; try discriminate.
  rewrite (rdp_mono _ per f f' vs E' Hle). exact H.
Qed.

Lemma processBlobs_mono w h contours : forall shapes,
  fuelMono (fun f => processBlobs f w h contours shapes).
Proof.
  induction contours as [|blob rest IH]; intros shapes f f' r H Hle;
    cbn [processBlobs] in *; [exact H|].
  destruct (processBlob f w h blob) as [o| |] eqn:E; try discriminate.
  rewrite (processBlob_mono w h blob f f' o E Hle).
  cbn [mbind outcome_bind] in *. eapply IH; eauto.
Qed.

Lemma detectShapes_mono t0 t1 img :
  fuelMono (fun f => detectShapes f t0 t1 img).
Proof.
  intros f f' r H Hle. unfold detectShapes in *.
  destruct (findContours _ _ _ f) as [contours| |] eqn:E; try discriminate.
  rewrite (findContours_mono _ _ _ f f' contours E Hle).
  cbn [mbind outcome_bind] in *.
  destruct (processBlobs f _ _ contours []) as [ss| |] eqn:E';
    try discriminate.
  rewrite (processBlobs_mono _ _ contours [] f f' ss E' Hle). exact H.
Qed.

End Fuel.

Section NoThrow.
Variable m : list (list Z).
Variables w h : nat.
Hypothesis Hrows : (h <= length m)%nat.

Lemma visitNeighbour_ok p st d :
  exists st', visitNeighbour m w h p st d = Ok st'.
Proof.
  unfold visitNeighbour. destruct st as [queue visited].
  destruct (inBounds w h _ _) eqn:Eb; [|eauto].
  apply (inBounds_inImage w h) in Eb.
  destruct (readMask_inImage m w h Hrows _ Eb) as (b & Hb & _).
  simpl in Hb. rewrite Hb. cbn [mbind outcome_bind].
  destruct (b && _); eauto.
Qed.

Lemma visitAll_ok p ds : forall st, exists st', visitAll m w h p ds st = Ok st'.
Proof.
  induction ds as [|d ds IH]; intros st; cbn [visitAll]; [eauto|].
  destruct (visitNeighbour_ok p st d) as [st1 ->].
  cbn [mbind outcome_bind]. apply IH.
Qed.

Lemma floodLoop_noThrow : forall f queue visited blob,
  noThrow (floodLoop m w h f queue visited blob).
Proof.
  induction f as [|f IH]; intros [|p rest] visited blob; cbn [floodLoop];
    auto using noThrow_Ok, noThrow_OutOfFuel.
  destruct (visitAll_ok p offsets (rest, visited)) as [[q v] ->].
  cbn [mbind outcome_bind]. apply IH.
Qed.

Lemma scanPixel_noThrow f st y x :
  (y < h)%nat -> noThrow (scanPixel m w h f st (y, x)).
Proof.
  intros Hy. unfold scanPixel. destruct st as [contours visited].
  unfold readMask. destruct (lookup_lt_is_Some_2 m y) as [row ->]; [lia|].
  cbn [mbind outcome_bind].
  destruct (_ && _); [|apply noThrow_Ok].
  apply noThrow_bind; [apply floodLoop_noThrow|].
  intros [c v] _. apply noThrow_Ok.
Qed.

Lemma scanAll_noThrow f todo : forall st,
  (forall y x, (y, x) ∈ todo -> (y < h)%nat) ->
  noThrow (scanAll m w h f todo st).
Proof.
  induction todo as [|[y x] todo IH]; intros st Hb; cbn [scanAll];
    [apply noThrow_Ok|].
  apply noThrow_bind.
  - apply scanPixel_noThrow. apply (Hb y x). left.
  - intros st' _. apply IH. intros y' x' H'. apply (Hb y' x'). now right.
Qed.

Lemma findContours_noThrow f : noThrow (findContours m w h f).
Proof.
  unfold findContours. apply noThrow_bind.
  - apply scanAll_noThrow. intros y x Hyx.
    now apply scanOrder_elem in Hyx as [? _].
  - intros [c v] _. apply noThrow_Ok.
Qed.

End NoThrow.

Section NoThrowPipeline.

Lemma traceLoop_noThrow bs s : forall f cur dir per,
  noThrow (Trace.traceLoop f bs s cur dir per).
Proof.
  induction f as [|f IH]; intros cur dir per; cbn [Trace.traceLoop];
    [apply noThrow_OutOfFuel|].
  destruct (Trace.findNext bs cur dir) as [[nxt d]|]; [|apply noThrow_Ok].
  destruct (_ || _); [apply IH|apply noThrow_Ok].
Qed.

Lemma traceContour_noThrow f blob w h :
  blob <> [] -> noThrow (traceContour f blob w h).
Proof.
  intros Hne. unfold traceContour. destruct blob as [|p ps]; [congruence|].
  cbn [Trace.startPointOf mbind outcome_bind]. apply traceLoop_noThrow.
Qed.

Lemma rdp_noThrow eps : forall f points, noThrow (rdp f points eps).
Proof.
  induction f as [|f IH]; intros points; cbn [rdp];
    [apply noThrow_OutOfFuel|].
  destruct (length points <? 3)%nat; [apply noThrow_Ok|].
  destruct (farthest points) as [index dmax].
  destruct (gt dmax eps); [|apply noThrow_Ok].
  apply noThrow_bind; [apply IH|]. intros r1 _.
  apply noThrow_bind; [apply IH|]. intros r2 _. apply noThrow_Ok.
Qed.

Lemma processBlob_noThrow f w h blob : noThrow (processBlob f w h blob).
Proof.
  unfold processBlob.
  destruct (Nat.ltb_spec (length blob) 100); [apply noThrow_Ok|].
  apply noThrow_bind.
  - apply traceContour_noThrow. intros ->. simpl in *. lia.
  - intros per _. destruct (lt _ _); [apply noThrow_Ok|].
    destruct (gt _ _); [apply noThrow_Ok|].
    apply noThrow_bind; [apply rdp_noThrow|]. intros vs _.
    destruct (classifyPolygon vs _) as [[ty conf]|]; apply noThrow_Ok.
Qed.

Lemma processBlobs_noThrow f w h contours : forall shapes,
  noThrow (processBlobs f w h contours shapes).
Proof.
  induction contours as [|blob rest IH]; intros shapes; cbn [processBlobs];
    [apply noThrow_Ok|].
  apply noThrow_bind; [apply processBlob_noThrow|]. intros r _. apply IH.
Qed.

Lemma maskOf_length grayData w h thr :
  length (Otsu.maskOf grayData w h thr) = h.
Proof. unfold Otsu.maskOf. now rewrite length_map, length_seq. Qed.

Lemma detectShapes_noThrow f t0 t1 img : noThrow (detectShapes f t0 t1 img).
Proof.
  unfold detectShapes. apply noThrow_bind.
  - apply findContours_noThrow. unfold otsuBinarize.
    now rewrite maskOf_length.
  - intros contours _. apply noThrow_bind; [apply processBlobs_noThrow|].
    intros ss _. apply noThrow_Ok.
Qed.

End NoThrowPipeline.

(** * Grayscale range and single-intensity images *)

Section Gray.

Lemma round_half_even_nonneg n d : 0 <= n -> 0 < d -> 0 <= round_half_even n d.
Proof.
  intros Hn Hd. unfold round_half_even.
  assert (0 <= n / d) by (apply Z.div_pos; lia).
  destruct (2 * (n mod d) ?= d); [destruct (Z.even (n / d))| |]; lia.
Qed.

Lemma ToUint8Clamp_range v : 0 <= ToUint8Clamp v <= 255.
Proof.
  unfold ToUint8Clamp. destruct (Prim2SF v) as [s|[]| |[] mm e]; try lia.
  assert (0 <= (if 0 <=? e then Z.pos mm * 2 ^ e
                else round_half_even (Z.pos mm) (2 ^ (- e)))); [|lia].
  destruct (Z.leb_spec 0 e).
  - assert (0 <= 2 ^ e) by (apply Z.pow_nonneg; lia). lia.
  - apply round_half_even_nonneg; [lia|]. apply Z.pow_pos_nonneg; lia.
Qed.

Lemma toGrayscale_length img :
  length (toGrayscale img) = (width img * height img)%nat.
Proof.
  unfold toGrayscale. rewrite length_app, length_take, length_replicate. lia.
Qed.

Lemma toGrayscale_range img v : v ∈ toGrayscale img -> 0 <= v <= 255.
Proof.
  unfold toGrayscale. intros H. apply elem_of_app in H as [H|H].
  - apply elem_of_take in H as (i & H & _).
    apply list_lookup_fmap_Some in H as (j & -> & _).
    apply ToUint8Clamp_range.
  - apply elem_of_replicate in H as [-> _]. lia.
Qed.

End Gray.

Module UniformFacts.
Import Otsu OtsuSpec OtsuFacts.

Lemma all_equal_replicate (l : list Z) g :
  (forall v, v ∈ l -> v = g) -> l = replicate (length l) g.
Proof.
  induction l as [|a l IH]; intros H; simpl; [reflexivity|].
  rewrite <- IH by (intros v Hv; apply H; now right).
  f_equal. apply H. left.
Qed.

Lemma binAt_bump hist g k :
  binAt (bump hist g) k =
  binAt hist k + (if decide (k = Z.to_nat g /\ (k < length hist)%nat)
                  then 1 else 0).
Proof.
  unfold binAt, bump. destruct (decide (k = Z.to_nat g)) as [->|Hne].
  - rewrite list_lookup_alter_eq.
    destruct (hist !! Z.to_nat g) as [c|] eqn:E; simpl.
    + apply lookup_lt_Some in E. rewrite decide_True by auto. reflexivity.
    + apply lookup_ge_None in E. rewrite decide_False by lia. reflexivity.
  - rewrite list_lookup_alter_ne by auto. rewrite decide_False by tauto. lia.
Qed.

Lemma bump_length hist g : length (bump hist g) = length hist.
Proof. unfold bump. apply length_alter. Qed.

Lemma binAt_uniform g n : forall hist k,
  binAt (fold_left bump (replicate n g) hist) k =
  binAt hist k + (if decide (k = Z.to_nat g /\ (k < length hist)%nat)
                  then Z.of_nat n else 0).
Proof.
  induction n as [|n IH]; intros hist k; simpl.
  - destruct (decide _); lia.
  - rewrite IH, binAt_bump, bump_length.
    destruct (decide _); lia.
Qed.

(** With a single occupied bin the background weight is 0 up to that
    bin and the whole weight from it on. *)
Lemma prefW_single hist j n :
  (forall k, binAt hist k = if decide (k = j) then n else 0) ->
  forall k, prefW hist k = if decide (j < k)%nat then n else 0.
Proof.
  intros Hbin. induction k as [|k IH]; simpl.
  - reflexivity.
  - rewrite IH, Hbin. repeat destruct (decide _); lia.
Qed.

Lemma uniform_no_candidate g n w h :
  0 <= g <= 255 -> (w * h)%nat = n ->
  forall t, valid (histogramOf (replicate n g)) (Z.of_nat w * Z.of_nat h) t
            = false.
Proof.
  intros Hg Hn t. unfold valid, wFAt, wBAt.
  rewrite (prefW_single _ (Z.to_nat g) (Z.of_nat n)).
  - destruct (decide _); simpl.
    + replace (Z.of_nat w * Z.of_nat h - Z.of_nat n) with 0 by lia.
      simpl. now rewrite andb_false_r.
    + now rewrite andb_false_r.
  - intros k. unfold histogramOf. rewrite binAt_uniform.
    rewrite length_replicate. unfold binAt.
    destruct (replicate 256 0 !! k) as [c|] eqn:E; simpl.
    + apply lookup_replicate in E as [-> Hk].
      destruct (decide (k = Z.to_nat g));
        [rewrite decide_True by auto|rewrite decide_False by tauto]; lia.
    + apply lookup_replicate_None in E.
      rewrite decide_False by lia. rewrite decide_False by lia. lia.
Qed.

Lemma filter_none {A} (P : A -> Prop) `{!forall x, Decision (P x)} (l : list A) :
  (forall x, x ∈ l -> ~ P x) -> filter P l = [].
Proof.
  induction l as [|a l IH]; intros Hall; [reflexivity|].
  rewrite filter_cons, decide_False by (apply Hall; left).
  apply IH. intros x Hx. apply Hall. now right.
Qed.

Lemma uniform_sweep g n w h :
  0 <= g <= 255 -> (w * h)%nat = n ->
  divisors (runSweep (replicate n g) w h) = [] /\
  otsuThreshold (replicate n g) w h = 0.
Proof.
  intros Hg Hn.
  destruct (runSweep_swept (replicate n g) w h) as [Hlog _ Harg].
  pose proof (uniform_no_candidate g n w h Hg Hn) as Hinv.
  split.
  - rewrite Hlog, filter_none; [reflexivity|].
    intros t _. rewrite Hinv. discriminate.
  - unfold otsuThreshold. destruct Harg as [[_ ?]|(t & _ & _ & Hv & _)]; auto.
    rewrite Hinv in Hv. discriminate.
Qed.

(** *** An all-background mask has no component *)

Lemma scanAll_background m w h fuel todo : forall st,
  (forall y x, (y, x) ∈ todo -> readMask m y x = Ok false) ->
  scanAll m w h fuel todo st = Ok st.
Proof.
  induction todo as [|[y x] todo IH]; intros st H; cbn [scanAll];
    [reflexivity|].
  unfold scanPixel. destruct st as [contours visited].
  rewrite (H y x) by left. cbn [mbind outcome_bind andb].
  apply IH. intros y' x' H'. apply H. now right.
Qed.

Lemma maskOf_zero grayData w h :
  (forall v, v ∈ grayData -> 0 <= v) ->
  forall row v, row ∈ maskOf grayData w h 0 -> v ∈ row -> v = 0.
Proof.
  intros Hnn row v Hrow Hv. unfold maskOf in Hrow.
  apply list_elem_of_fmap in Hrow as (y & -> & _).
  apply list_elem_of_fmap in Hv as (x & -> & _).
  unfold maskBit. destruct (grayData !! _) as [g|] eqn:E; [|reflexivity].
  apply list_elem_of_lookup_2, Hnn in E.
  destruct (Z.ltb_spec g 0); [lia|reflexivity].
Qed.

Lemma findContours_background m w h fuel :
  length m = h -> (forall row v, row ∈ m -> v ∈ row -> v = 0) ->
  findContours m w h fuel = Ok [].
Proof.
  intros Hlen Hzero. unfold findContours.
  rewrite scanAll_background; [reflexivity|].
  intros y x Hyx. apply scanOrder_elem in Hyx as [Hy _].
  unfold readMask. destruct (lookup_lt_is_Some_2 m y) as [row Hrow]; [lia|].
  rewrite Hrow. f_equal. apply bool_decide_eq_false. intros Hx.
  apply list_elem_of_lookup_2 in Hrow, Hx.
  specialize (Hzero row 1 Hrow Hx). discriminate.
Qed.

End UniformFacts.

(** * Boundary tracing that never returns *)

Module TraceFacts.
Import Trace TraceSpec Examples.

Lemma trapped_step bs s states st :
  trapped bs s states = true -> st ∈ states ->
  exists st', step bs s st = Some st' /\ st' ∈ states.
Proof.
  unfold trapped. rewrite forallb_forall. intros H Hst.
  apply list_elem_of_In, H in Hst.
  destruct (step bs s st) as [st'|]; [|discriminate].
  exists st'. split; [reflexivity|]. now apply bool_decide_eq_true in Hst.
Qed.

(** From a trapped state the loop uses up any amount of fuel. *)
Lemma trapped_loops bs s states :
  trapped bs s states = true ->
  forall fuel st perimeter, st ∈ states ->
    traceLoop fuel bs s st.1 st.2 perimeter = OutOfFuel.
Proof.
  intros Htrap. induction fuel as [|fuel IH]; intros st perimeter Hst;
    [reflexivity|].
  destruct (trapped_step bs s states st Htrap Hst) as ([nxt d] & Hstep & Hin).
  cbn [traceLoop]. unfold step in Hstep.
  destruct (findNext bs st.1 st.2) as [[nxt' d']|]; [|discriminate].
  destruct (negb (px nxt' =? px s) || negb (py nxt' =? py s));
    [|discriminate].
  inversion Hstep; subst. exact (IH (nxt, d) _ Hin).
Qed.

Lemma ringBlob_found :
  findContours (otsuBinarize (toGrayscale ringImage) 9 93) 9 93 837
  = Ok [ringBlob].
Proof. vm_compute. reflexivity. Qed.

Lemma ringBlob_length : length ringBlob = 100%nat.
Proof. vm_compute. reflexivity. Qed.

Lemma ringBlob_start : startPointOf ringBlob = Ok (mkPoint 1 1).
Proof. vm_compute. reflexivity. Qed.

Lemma ringBlob_trapped :
  trapped (blobSetOf ringBlob) (mkPoint 1 1)
          (orbit (blobSetOf ringBlob) (mkPoint 1 1) 110 (mkPoint 1 1, 0%nat))
  = true.
Proof. vm_compute. reflexivity. Qed.

Lemma ringBlob_loops fuel : traceContour fuel ringBlob 9 93 = OutOfFuel.
Proof.
  unfold traceContour. rewrite ringBlob_start. cbn [mbind outcome_bind].
  apply (trapped_loops _ _ _ ringBlob_trapped fuel (mkPoint 1 1, 0%nat)).
  left.
Qed.

Lemma ringImage_loops fuel t0 t1 :
  detectShapes fuel t0 t1 ringImage = OutOfFuel.
Proof.
  unfold detectShapes.
  change (width ringImage) with 9%nat. change (height ringImage) with 93%nat.
  set (mask := otsuBinarize (toGrayscale ringImage) 9 93).
  destruct (findContours mask 9 93 fuel) as [contours|e|] eqn:E.
  - assert (contours = [ringBlob]) as ->.
    { pose proof (findContours_mono mask 9 93 fuel (Nat.max fuel 837)
                    contours E ltac:(lia)) as H1.
      pose proof (findContours_mono mask 9 93 837%nat (Nat.max fuel 837)
                    [ringBlob] ringBlob_found ltac:(lia)) as H2.
      congruence. }
    cbn [mbind outcome_bind processBlobs]. unfold processBlob.
    rewrite ringBlob_length. cbn [Nat.ltb Nat.leb].
    now rewrite ringBlob_loops.
  - exfalso. eapply findContours_noThrow; [|exact E].
    unfold mask, otsuBinarize. rewrite maskOf_length. lia.
  - reflexivity.
Qed.

End TraceFacts.

(** * Detection returns when tracing does *)

Section Sign.

Lemma binary_round_aux_notNegative mx ex lx :
  notNegative (binary_round_aux prec emax false mx ex lx).
Proof.
  unfold binary_round_aux.
  destruct (shr_fexp prec emax mx ex lx) as [mrs' e'].
  destruct (shr_fexp prec emax _ e' loc_Exact) as [mrs'' e''].
  destruct (shr_m mrs''); simpl; auto.
  destruct (e'' <=? emax - prec); simpl; auto.
Qed.

Lemma binary_round_notNegative mx ex :
  notNegative (binary_round prec emax false mx ex).
Proof.
  unfold binary_round. destruct (shl_align mx ex _) as [mz ez].
  apply binary_round_aux_notNegative.
Qed.

Lemma binary_normalize_notNegative z e :
  0 <= z -> notNegative (binary_normalize prec emax z e false).
Proof.
  intros Hz. destruct z; simpl; auto using binary_round_notNegative. lia.
Qed.

Lemma SFldexp_notNegative f e :
  notNegative f -> notNegative (SFldexp prec emax f e).
Proof.
  destruct f as [s|s| |[] m ex]; simpl; auto; [contradiction|].
  intros _. apply binary_round_notNegative.
Qed.

Lemma ofZ_notNegative z : 0 <= z -> notNegative (Prim2SF (ofZ z)).
Proof.
  intros Hz. unfold ofZ.
  pose proof (binary_normalize_notNegative z 0 Hz) as Hn.
  destruct (binary_normalize prec emax z 0 false) as [[]|[]| |[] m e];
    try contradiction; try exact I.
  unfold SF2Prim, Z.ldexp.
  rewrite ldshiftexp_spec, of_uint63_spec.
  apply SFldexp_notNegative, binary_normalize_notNegative.
  apply Uint63.to_Z_bounded.
Qed.

Lemma mul_notNegative x y :
  notNegative (Prim2SF x) -> notNegative (Prim2SF y) ->
  notNegative (Prim2SF (x * y)%float).
Proof.
  rewrite mul_spec.
  destruct (Prim2SF x) as [s|[]| |[] m e], (Prim2SF y) as [s'|[]| |[] m' e'];
    simpl; intros Hx Hy; try contradiction; auto.
  apply binary_round_aux_notNegative.
Qed.

Lemma notNegative_not_lt0 x :
  notNegative (Prim2SF x) -> (x <? 0)%float = false.
Proof.
  rewrite ltb_spec.
  destruct (Prim2SF x) as [s|[]| |[] m e]; simpl; auto; contradiction.
Qed.

(** The tolerance that [detectShapes] passes to RDP is never negative. *)
Lemma epsilon_not_negative n : (ofNat n * Lit.c0_042 <? 0)%float = false.
Proof.
  apply notNegative_not_lt0, mul_notNegative.
  - apply ofZ_notNegative. lia.
  - exact I.
Qed.

End Sign.

Section Returns.

Lemma processBlob_returns w h blob f0 per fuel :
  traceContour f0 blob w h = Ok per ->
  (f0 <= fuel)%nat -> (length per < fuel)%nat ->
  exists o, processBlob fuel w h blob = Ok o.
Proof.
  intros Ht Hf Hl. unfold processBlob.
  destruct (length blob <? 100)%nat; [eauto|].
  rewrite (traceContour_mono blob w h f0 fuel per Ht Hf).
  cbn [mbind outcome_bind].
  destruct (lt _ Lit.c0_2); [eauto|].
  destruct (gt _ Lit.c0_95); [eauto|].
  destruct (RDPFacts.rdp_spec _ (epsilon_not_negative (length per))
              (length per) per fuel) as (vs & -> & _); [lia|lia|].
  cbn [mbind outcome_bind].
  destruct (classifyPolygon vs _) as [[ty conf]|]; eauto.
Qed.

Lemma processBlob_small fuel w h blob :
  (length blob < 100)%nat -> processBlob fuel w h blob = Ok None.
Proof.
  intros Hlen. unfold processBlob.
  destruct (Nat.ltb_spec (length blob) 100); [reflexivity|lia].
Qed.

Lemma processBlobs_returns fuel w h contours : forall acc,
  Forall (fun blob => exists o, processBlob fuel w h blob = Ok o) contours ->
  exists ss, processBlobs fuel w h contours acc = Ok ss.
Proof.
  induction contours as [|blob rest IH]; intros acc H; cbn [processBlobs];
    [eauto|].
  apply Forall_cons in H as [[o ->] H]. cbn [mbind outcome_bind]. now apply IH.
Qed.

(** A common amount of fuel for the blobs whose trace returns. *)
Lemma blobs_fuel w h (contours : list (list Point)) :
  Forall (fun blob => (100 <= length blob)%nat ->
                      exists f per, traceContour f blob w h = Ok per)
         contours ->
  exists F, forall fuel, (F <= fuel)%nat ->
    Forall (fun blob => exists o, processBlob fuel w h blob = Ok o) contours.
Proof.
  induction 1 as [|blob rest Hb Hrest [F IH]].
  - exists 0%nat. intros fuel _. constructor.
  - destruct (Nat.lt_ge_cases (length blob) 100) as [Hs|Hl].
    + exists F. intros fuel Hf. constructor; [|now apply IH].
      exists None. now apply processBlob_small.
    + destruct (Hb Hl) as (f & per & Ht).
      exists (Nat.max F (Nat.max f (S (length per)))). intros fuel Hf.
      constructor; [|apply IH; lia].
      eapply processBlob_returns; eauto; lia.
Qed.

Lemma detectShapes_returns t0 t1 img contours :
  findContours (otsuBinarize (toGrayscale img) (width img) (height img))
               (width img) (height img) (width img * height img)
  = Ok contours ->
  Forall (fun blob => (100 <= length blob)%nat ->
            exists f per, traceContour f blob (width img) (height img) = Ok per)
         contours ->
  exists fuel0, forall fuel, (fuel0 <= fuel)%nat ->
    exists r, detectShapes fuel t0 t1 img = Ok r.
Proof.
  intros Hc Htr. destruct (blobs_fuel _ _ _ Htr) as [F HF].
  exists (Nat.max (width img * height img) F). intros fuel Hfuel.
  unfold detectShapes.
  rewrite (findContours_mono _ _ _ _ fuel contours Hc) by lia.
  cbn [mbind outcome_bind].
  destruct (processBlobs_returns fuel (width img) (height img) contours [])
    as [ss ->]; [apply HF; lia|].
  cbn [mbind outcome_bind]. eauto.
Qed.

End Returns.

(** * The threshold is an occupied gray level *)

Module OtsuLevels.
Import Otsu OtsuSpec OtsuFacts FOrder FOrderFacts UniformFacts.

(** *** The histogram counts the entries of the buffer *)

Lemma binAt_fold_bump gs : forall hist k,
  binAt (fold_left bump gs hist) k =
  binAt hist k +
  (if decide (k < length hist)%nat
   then Z.of_nat (length (filter (fun v => Z.to_nat v = k) gs)) else 0).
Proof.
  induction gs as [|g gs IH]; intros hist k; cbn [fold_left].
  - rewrite filter_nil. destruct (decide _); simpl; lia.
  - rewrite IH, binAt_bump, bump_length, filter_cons.
    destruct (decide (k < length hist)%nat) as [Hk|Hk].
    + destruct (decide (Z.to_nat g = k)) as [E|E].
      * rewrite decide_True by auto. cbn [length]. lia.
      * rewrite decide_False by (intros [? _]; congruence). lia.
    + rewrite decide_False by tauto. lia.
Qed.

Lemma binAt_replicate_zero n k : binAt (replicate n 0) k = 0.
Proof.
  unfold binAt. destruct (replicate n 0 !! k) as [c|] eqn:E; [|reflexivity].
  now apply lookup_replicate in E as [-> _].
Qed.

Lemma filter_ext_in {A} (P Q : A -> Prop) `{!forall x, Decision (P x)}
      `{!forall x, Decision (Q x)} (l : list A) :
  Forall (fun x => P x <-> Q x) l -> filter P l = filter Q l.
Proof.
  induction 1 as [|x l Hx _ IH]; [reflexivity|].
  rewrite !filter_cons, IH.
  destruct (decide (P x)), (decide (Q x)); tauto.
Qed.

Lemma binAt_histogram grayData k :
  isBytes grayData ->
  binAt (histogramOf grayData) k =
  Z.of_nat (length (filter (fun v => v = Z.of_nat k) grayData)).
Proof.
  intros Hb. unfold histogramOf.
  rewrite binAt_fold_bump, binAt_replicate_zero, length_replicate.
  assert (E : filter (fun v => Z.to_nat v = k) grayData
              = filter (fun v => v = Z.of_nat k) grayData).
  { apply filter_ext_in. eapply Forall_impl; [exact Hb|].
    intros v Hv. simpl in *. lia. }
  rewrite E. destruct (decide (k < 256)%nat) as [Hk|Hk]; [lia|].
  rewrite (filter_none (fun v => v = Z.of_nat k)); [reflexivity|].
  intros v Hv ->. unfold isBytes in Hb. rewrite Forall_forall in Hb.
  specialize (Hb _ Hv). lia.
Qed.

Lemma filter_lt_S (l : list Z) k :
  Forall (fun v => 0 <= v) l ->
  length (filter (fun v => v < Z.of_nat (S k)) l) =
  (length (filter (fun v => (v < Z.of_nat k)%Z) l)
   + length (filter (fun v => v = Z.of_nat k) l))%nat.
Proof.
  induction 1 as [|v l Hv _ IH]; [reflexivity|].
  rewrite !filter_cons.
  repeat destruct (decide _); cbn [length]; lia.
Qed.

(** The background weight below [k] is the number of entries below [k]. *)
Lemma prefW_histogram grayData k :
  isBytes grayData ->
  prefW (histogramOf grayData) k =
  Z.of_nat (length (filter (fun v => v < Z.of_nat k) grayData)).
Proof.
  intros Hb. induction k as [|k IH]; cbn [prefW].
  - rewrite (filter_none (fun v => v < Z.of_nat 0)); [reflexivity|].
    intros v Hv. unfold isBytes in Hb. rewrite Forall_forall in Hb.
    specialize (Hb _ Hv). lia.
  - rewrite IH, binAt_histogram by auto. rewrite filter_lt_S; [lia|].
    eapply Forall_impl; [exact Hb|]. intros v Hv. simpl in Hv. lia.
Qed.

Lemma filter_all_or_not {A} (P : A -> Prop) `{!forall x, Decision (P x)}
      (l : list A) :
  length (filter P l) <> length l -> exists x, x ∈ l /\ ~ P x.
Proof.
  induction l as [|a l IH]; intros Hne; [now destruct Hne|].
  rewrite filter_cons in Hne. destruct (decide (P a)) as [Ha|Ha].
  - destruct IH as (x & Hx & Hnx); [cbn [length] in Hne; lia|].
    exists x. split; [now right|exact Hnx].
  - exists a. split; [left|exact Ha].
Qed.

Lemma filter_nonempty_elem {A} (P : A -> Prop) `{!forall x, Decision (P x)}
      (l : list A) :
  length (filter P l) <> 0%nat -> exists x, x ∈ l /\ P x.
Proof.
  intros Hne. destruct (filter P l) as [|x l'] eqn:E; [now destruct Hne|].
  assert (Hx : x ∈ filter P l) by (rewrite E; left).
  apply list_elem_of_filter in Hx as [? ?]. eauto.
Qed.

(** *** The running maximum is never NaN *)

Lemma sweep_ordered hist N T ts : forall st,
  ordered (maxVariance st) ->
  ordered (maxVariance (sweep hist N T ts st)).
Proof.
  induction ts as [|t ts IH]; intros st Ho; cbn [sweep]; [exact Ho|].
  destruct (_ =? 0); [apply IH; exact Ho|].
  destruct (_ =? 0); [exact Ho|].
  destruct (gt _ (maxVariance st)) eqn:E; apply IH; cbn [maxVariance];
    [|exact Ho].
  unfold gt in E. now apply ltb_ordered in E as [_ ?].
Qed.

Lemma runSweep_ordered grayData w h :
  ordered (maxVariance (runSweep grayData w h)).
Proof. apply sweep_ordered, ordered_zero. Qed.

Lemma leb_refl_ordered x : ordered x -> (x <=? x)%float = true.
Proof. intros Ho. apply not_ltb_leb; auto using ltb_irrefl. Qed.

(** *** A threshold other than the initial 0 is an occupied bin *)

Lemma valid_pred hist N t :
  binAt hist (S t) = 0 -> valid hist N (S t) = true ->
  valid hist N t = true /\
  wBAt hist (S t) = wBAt hist t /\ sumAt hist (S t) = sumAt hist t.
Proof.
  intros Hbin Hv.
  assert (EW : wBAt hist (S t) = wBAt hist t).
  { unfold wBAt. cbn [prefW]. cbn [prefW] in *. lia. }
  assert (ES : sumAt hist (S t) = sumAt hist t).
  { unfold sumAt. cbn [prefS]. rewrite Hbin. lia. }
  split; [|auto]. unfold valid, wFAt in *. rewrite EW in Hv.
  apply andb_true_iff in Hv as [Hv HF].
  apply andb_true_iff in Hv as [Hr HB].
  rewrite HB, HF, (reached_mono hist N t (S t)); auto.
Qed.

Lemma threshold_occupied grayData w h :
  let hist := histogramOf grayData in
  let N := Z.of_nat w * Z.of_nat h in
  otsuThreshold grayData w h = 0 \/
  exists t, (t < 256)%nat /\ otsuThreshold grayData w h = Z.of_nat t /\
            valid hist N t = true /\ binAt hist t <> 0.
Proof.
  intros hist N. unfold otsuThreshold.
  destruct (runSweep_swept grayData w h) as [_ _ Harg].
  fold hist N in Harg.
  destruct Harg as [[_ ?]|(t & Ht & Hthr & Hv & Hmax & Hfirst)]; [now left|].
  right. exists t. repeat split; auto. intros Hbin.
  destruct t as [|t].
  - unfold valid, wBAt in Hv. cbn [prefW] in Hv. rewrite Hbin in Hv.
    change (0 + 0 =? 0) with true in Hv. cbn [negb] in Hv.
    rewrite andb_false_r in Hv. discriminate.
  - destruct (valid_pred hist N t Hbin Hv) as (Hv' & EW & ES).
    specialize (Hfirst t ltac:(lia) Hv').
    assert (E : varAt hist N (totalIntensityOf grayData) (S t)
                = varAt hist N (totalIntensityOf grayData) t).
    { unfold varAt, wFAt. now rewrite EW, ES. }
    rewrite <- E, <- Hmax, leb_refl_ordered in Hfirst; [discriminate|].
    apply runSweep_ordered.
Qed.

(** On a buffer of [w * h] bytes: the threshold, unless it is the
    initial 0, is the level of some entry, and some entry lies above it. *)
Lemma threshold_levels grayData w h :
  isBytes grayData -> length grayData = (w * h)%nat ->
  let thr := otsuThreshold grayData w h in
  0 <= thr <= 255 /\
  (thr = 0 \/ (thr ∈ grayData /\ exists v, v ∈ grayData /\ thr < v)).
Proof.
  intros Hb Hlen thr. unfold thr.
  destruct (threshold_occupied grayData w h)
    as [->|(t & Ht & -> & Hv & Hbin)]; [split; [lia|now left]|].
  split; [lia|]. right. split.
  - rewrite binAt_histogram in Hbin by auto.
    destruct (filter_nonempty_elem (fun v => v = Z.of_nat t) grayData)
      as (x & Hx & ->); [lia|exact Hx].
  - unfold valid, wFAt, wBAt in Hv. apply andb_true_iff in Hv as [_ HF].
    rewrite prefW_histogram in HF by auto.
    destruct (filter_all_or_not (fun v => v < Z.of_nat (S t)) grayData)
      as (x & Hx & Hnx).
    + intros E. rewrite E, Hlen in HF.
      replace (Z.of_nat w * Z.of_nat h - Z.of_nat (w * h)) with 0 in HF by lia.
      discriminate.
    + exists x. split; [exact Hx|]. lia.
Qed.

(** *** The sweep against the criterion read off the buffer *)

Lemma sumZ_filter_lt_S (l : list Z) k :
  sumZ (filter (fun v => v < Z.of_nat (S k)) l) =
  sumZ (filter (fun v => (v < Z.of_nat k)%Z) l)
  + Z.of_nat k * Z.of_nat (length (filter (fun v => v = Z.of_nat k) l)).
Proof.
  unfold sumZ. induction l as [|v l IH]; [simpl; lia|].
  rewrite !filter_cons.
  set (A := foldr Z.add 0 (filter (fun v => v < Z.of_nat (S k)) l)) in *.
  set (B := foldr Z.add 0 (filter (fun v => v < Z.of_nat k) l)) in *.
  set (c := length (filter (fun v => v = Z.of_nat k) l)) in *.
  repeat destruct (decide _); cbn [length foldr]; fold A B c;
    rewrite ?Nat2Z.inj_succ; nia.
Qed.

Lemma prefS_histogram grayData k :
  isBytes grayData ->
  prefS (histogramOf grayData) k =
  sumZ (filter (fun v => v < Z.of_nat k) grayData).
Proof.
  intros Hb. induction k as [|k IH]; cbn [prefS].
  - rewrite (filter_none (fun v => v < Z.of_nat 0)); [reflexivity|].
    intros v Hv. unfold isBytes in Hb. rewrite Forall_forall in Hb.
    specialize (Hb _ Hv). lia.
  - now rewrite IH, binAt_histogram, sumZ_filter_lt_S.
Qed.

Lemma filter_le_lt (l : list Z) t :
  filter (fun v => v <= Z.of_nat t) l
  = filter (fun v => v < Z.of_nat (S t)) l.
Proof.
  apply filter_ext_in, Forall_forall. intros v _. lia.
Qed.

Lemma wBAt_weightB grayData t :
  isBytes grayData ->
  wBAt (histogramOf grayData) t = OtsuCriterion.weightB grayData t.
Proof.
  intros Hb. unfold wBAt, OtsuCriterion.weightB.
  now rewrite prefW_histogram, filter_le_lt.
Qed.

Lemma sumAt_sumB grayData t :
  isBytes grayData ->
  sumAt (histogramOf grayData) t = OtsuCriterion.sumB grayData t.
Proof.
  intros Hb. unfold sumAt, OtsuCriterion.sumB.
  now rewrite prefS_histogram, filter_le_lt.
Qed.

Lemma fold_left_add (l : list Z) : forall a,
  fold_left Z.add l a = a + sumZ l.
Proof.
  induction l as [|v l IH]; intros a; cbn [fold_left sumZ foldr].
  - lia.
  - rewrite IH. unfold sumZ. lia.
Qed.

Lemma totalIntensity_sumZ grayData : totalIntensityOf grayData = sumZ grayData.
Proof. unfold totalIntensityOf. now rewrite fold_left_add. Qed.

Lemma valid_candidate grayData N t :
  isBytes grayData ->
  valid (histogramOf grayData) N t = OtsuCriterion.candidate N grayData t.
Proof.
  intros Hb. unfold valid, reached, OtsuCriterion.candidate,
    OtsuCriterion.endsAt, OtsuCriterion.weightF, wFAt.
  rewrite !wBAt_weightB by assumption. f_equal. f_equal.
  induction (seq 0 t) as [|j js IH]; [reflexivity|].
  cbn [forallb]. rewrite IH, wBAt_weightB by assumption.
  f_equal. now destruct (_ =? 0), (_ =? 0).
Qed.

Lemma varAt_criterion grayData N t :
  isBytes grayData ->
  varAt (histogramOf grayData) N (totalIntensityOf grayData) t
  = OtsuCriterion.betweenClassVariance N grayData t.
Proof.
  intros Hb. unfold varAt, varianceOf, wFAt,
    OtsuCriterion.betweenClassVariance, OtsuCriterion.meanB,
    OtsuCriterion.meanF, OtsuCriterion.weightF.
  now rewrite wBAt_weightB, sumAt_sumB, totalIntensity_sumZ.
Qed.

Lemma filter_candidates grayData N (l : list nat) :
  isBytes grayData ->
  filter (fun t => valid (histogramOf grayData) N t = true) l
  = filter (fun t => OtsuCriterion.candidate N grayData t = true) l.
Proof.
  intros Hb. apply filter_ext_in, Forall_forall. intros t _.
  now rewrite valid_candidate.
Qed.

(** The sweep keeps the first maximum of the criterion over the valid
    candidates. *)
Lemma runSweep_criterion grayData w h :
  isBytes grayData ->
  let N := Z.of_nat w * Z.of_nat h in
  let st := runSweep grayData w h in
  divisors st =
    map (fun t => (OtsuCriterion.weightB grayData t,
                   OtsuCriterion.weightF N grayData t))
        (filter (fun t => OtsuCriterion.candidate N grayData t = true)
                (seq 0 256)) /\
  (forall t, (t < 256)%nat -> OtsuCriterion.candidate N grayData t = true ->
     gt (OtsuCriterion.betweenClassVariance N grayData t) (maxVariance st)
     = false) /\
  ((maxVariance st = 0%float /\ optimalThreshold st = 0) \/
   exists t, (t < 256)%nat /\ optimalThreshold st = Z.of_nat t /\
     OtsuCriterion.candidate N grayData t = true /\
     maxVariance st = OtsuCriterion.betweenClassVariance N grayData t /\
     forall i, (i < t)%nat -> OtsuCriterion.candidate N grayData i = true ->
       (OtsuCriterion.betweenClassVariance N grayData t
        <=? OtsuCriterion.betweenClassVariance N grayData i)%float = false).
Proof.
  intros Hb N st.
  destruct (runSweep_swept grayData w h) as [H1 H2 H3].
  fold N in H1, H2, H3. fold st in H1, H2, H3.
  split; [|split].
  - rewrite H1, filter_candidates by assumption.
    apply map_ext. intros t. unfold OtsuCriterion.weightF, wFAt.
    now rewrite wBAt_weightB.
  - intros t Ht Hc. rewrite <- varAt_criterion by assumption.
    apply H2; [exact Ht|]. now rewrite valid_candidate.
  - destruct H3 as [H3|(t & Ht & Eo & Hv & Em & Hfirst)]; [now left|].
    right. exists t. split; [exact Ht|]. split; [exact Eo|].
    split; [now rewrite <- valid_candidate|].
    split; [now rewrite <- varAt_criterion|].
    intros i Hi Hc. rewrite <- !varAt_criterion by assumption.
    apply Hfirst; [exact Hi|]. now rewrite valid_candidate.
Qed.

End OtsuLevels.

(** * Boundary tracing: what a returned perimeter is *)

Module TraceWalk.
Import Trace.

Lemma key_in_blobSet blob p : key p ∈ blobSetOf blob <-> p ∈ blob.
Proof.
  unfold blobSetOf. rewrite elem_of_list_to_set, list_elem_of_fmap.
  split.
  - intros (q & E & Hq). destruct p, q. unfold key in E. simpl in E.
    now inversion E; subst.
  - intros Hp. eauto.
Qed.

(** *** The start point *)

Lemma pickStart_spec p q :
  (pickStart p q = p \/ pickStart p q = q) /\
  (pickStart p q = p \/ rowMajorLt (pickStart p q) p) /\
  (pickStart p q = q \/ rowMajorLt (pickStart p q) q).
Proof.
  unfold pickStart, rowMajorLt. destruct p as [x1 y1], q as [x2 y2]; simpl.
  destruct (Z.ltb_spec y1 y2); simpl; [repeat split; auto; right; lia|].
  destruct (Z.ltb_spec y2 y1); simpl; [repeat split; auto; right; lia|].
  destruct (Z.ltb_spec x1 x2); simpl; [repeat split; auto; right; lia|].
  repeat split; auto.
  destruct (decide (x1 = x2)) as [->|Hne]; [left; f_equal; lia|right; lia].
Qed.

Lemma rowMajorLt_trans p q r : rowMajorLt p q -> rowMajorLt q r -> rowMajorLt p r.
Proof. unfold rowMajorLt. lia. Qed.

Lemma rowMajorLt_asym p q : rowMajorLt p q -> ~ rowMajorLt q p.
Proof. unfold rowMajorLt. lia. Qed.

Lemma rowMajorLt_irrefl p : ~ rowMajorLt p p.
Proof. unfold rowMajorLt. lia. Qed.

Lemma fold_pickStart ps : forall p,
  fold_left pickStart ps p ∈ p :: ps /\
  forall q, q ∈ p :: ps ->
    fold_left pickStart ps p = q \/ rowMajorLt (fold_left pickStart ps p) q.
Proof.
  induction ps as [|a ps IH]; intros p; cbn [fold_left].
  - split; [left|]. intros q Hq. apply list_elem_of_singleton in Hq. auto.
  - destruct (IH (pickStart p a)) as [Hin Hmin].
    destruct (pickStart_spec p a) as (Hsel & Hp & Ha).
    assert (Hm := Hmin (pickStart p a) ltac:(left)).
    set (m := pickStart p a) in *.
    set (r := fold_left pickStart ps m) in *.
    assert (Hle : forall q, m = q \/ rowMajorLt m q -> r = q \/ rowMajorLt r q).
    { intros q [Eq|Hq]; destruct Hm as [Em|Hm].
      - left. congruence.
      - right. now rewrite <- Eq.
      - right. now rewrite Em.
      - right. eapply rowMajorLt_trans; eauto. }
    split.
    + apply elem_of_cons in Hin as [E|Hin].
      * rewrite E. destruct Hsel as [->| ->]; [left|right; left].
      * right. now right.
    + intros q Hq.
      apply elem_of_cons in Hq as [->|Hq];
        [|apply elem_of_cons in Hq as [->|Hq]]; auto.
      apply Hmin. now right.
Qed.

Lemma startPointOf_spec blob s :
  startPointOf blob = Ok s ->
  s ∈ blob /\ forall q, q ∈ blob -> s = q \/ rowMajorLt s q.
Proof.
  destruct blob as [|p ps]; [discriminate|]. cbn [startPointOf].
  intros E. inversion E; subst. apply fold_pickStart.
Qed.

Lemma startPointOf_unique blob blob' s s' :
  (forall p, p ∈ blob <-> p ∈ blob') ->
  startPointOf blob = Ok s -> startPointOf blob' = Ok s' -> s = s'.
Proof.
  intros Hset Hs Hs'.
  apply startPointOf_spec in Hs as [Hin Hmin].
  apply startPointOf_spec in Hs' as [Hin' Hmin'].
  destruct (Hmin s' (proj2 (Hset _) Hin')) as [|H1]; [assumption|].
  destruct (Hmin' s (proj1 (Hset _) Hin)) as [|H2]; [congruence|].
  now apply rowMajorLt_asym in H1.
Qed.

(** *** The search for the next point *)

Lemma neighbors_length : length neighbors = 8%nat.
Proof. reflexivity. Qed.

Lemma neighborAt_adjacent cur d : (d < 8)%nat -> adjacent cur (neighborAt cur d).
Proof.
  intros Hd. unfold adjacent, neighborAt. destruct cur as [x y].
  do 8 (destruct d as [|d]; [simpl; repeat split; try lia;
                             intros E; inversion E; lia|]).
  lia.
Qed.

Lemma neighborAt_back cur d :
  (d < 8)%nat -> neighborAt (neighborAt cur d) ((d + 4) mod 8) = cur.
Proof.
  intros Hd. unfold neighborAt. destruct cur as [x y].
  do 8 (destruct d as [|d]; [simpl; f_equal; lia|]).
  lia.
Qed.

Lemma adjacent_neighborAt p q :
  adjacent p q -> exists d, (d < 8)%nat /\ q = neighborAt p d.
Proof.
  unfold adjacent, neighborAt. destruct p as [x y], q as [x' y']; simpl.
  intros (Hx & Hy & Hne).
  assert (Hc : (x' = x - 1 \/ x' = x \/ x' = x + 1) /\
               (y' = y - 1 \/ y' = y \/ y' = y + 1)) by lia.
  destruct Hc as [[-> | [-> | ->]] [-> | [-> | ->]]].
  - exists 7%nat. split; [lia|]. simpl. f_equal; lia.
  - exists 6%nat. split; [lia|]. simpl. f_equal; lia.
  - exists 5%nat. split; [lia|]. simpl. f_equal; lia.
  - exists 0%nat. split; [lia|]. simpl. f_equal; lia.
  - congruence.
  - exists 4%nat. split; [lia|]. simpl. f_equal; lia.
  - exists 1%nat. split; [lia|]. simpl. f_equal; lia.
  - exists 2%nat. split; [lia|]. simpl. f_equal; lia.
  - exists 3%nat. split; [lia|]. simpl. f_equal; lia.
Qed.

Lemma searchFrom_Some bs cur nd steps q d :
  searchFrom bs cur nd steps = Some (q, d) ->
  key q ∈ bs /\ (d < 8)%nat /\ q = neighborAt cur d.
Proof.
  induction steps as [|i steps IH]; cbn [searchFrom]; [discriminate|].
  destruct (bool_decide _) eqn:E; [|exact IH].
  intros H. apply bool_decide_eq_true in E.
  pose proof (Nat.mod_upper_bound (nd + i) 8 ltac:(lia)) as Hb.
  injection H as Hq Hd. rewrite <- Hq, <- Hd.
  split; [exact E|]. split; [exact Hb|reflexivity].
Qed.

Lemma searchFrom_None bs cur nd steps :
  searchFrom bs cur nd steps = None ->
  forall i, i ∈ steps -> key (neighborAt cur ((nd + i) mod 8)) ∉ bs.
Proof.
  induction steps as [|j steps IH]; cbn [searchFrom]; intros H i Hi.
  - inversion Hi.
  - destruct (bool_decide _) eqn:E; [discriminate|].
    apply bool_decide_eq_false in E.
    apply elem_of_cons in Hi as [->|Hi]; auto.
Qed.

Lemma findNext_Some bs cur dir q d :
  findNext bs cur dir = Some (q, d) ->
  key q ∈ bs /\ (d < 8)%nat /\ q = neighborAt cur d.
Proof. apply searchFrom_Some. Qed.

(** The search looks in all eight directions. *)
Lemma findNext_None bs cur dir d :
  findNext bs cur dir = None -> (d < 8)%nat -> key (neighborAt cur d) ∉ bs.
Proof.
  unfold findNext. intros H Hd.
  set (nd := ((dir + 7) mod 8)%nat) in *.
  assert (Hnd : (nd < 8)%nat) by (apply Nat.mod_upper_bound; lia).
  pose proof (searchFrom_None _ _ _ _ H ((d + 8 - nd) mod 8)%nat) as Hn.
  replace ((nd + (d + 8 - nd) mod 8) mod 8)%nat with d in Hn.
  - apply Hn. apply elem_of_seq. split; [lia|].
    apply Nat.mod_upper_bound. lia.
  - clear -Hd Hnd.
    do 8 (destruct nd as [|nd];
          [do 8 (destruct d as [|d]; [reflexivity|]); lia|]).
    lia.
Qed.

(** *** The loop *)

Lemma isWalk_snoc l a b :
  isWalk (l ++ [a]) -> adjacent a b -> isWalk (l ++ [a; b]).
Proof.
  induction l as [|x l IH]; cbn [app]; intros H Hab.
  - simpl. auto.
  - destruct l as [|y l]; cbn [app] in *.
    + destruct H as [Hxa _]. simpl. auto.
    + destruct H as [Hxy H]. split; [exact Hxy|]. now apply IH.
Qed.

Lemma isWalk_cons a b l : adjacent a b -> isWalk (b :: l) -> isWalk (a :: b :: l).
Proof. intros. split; assumption. Qed.

(** What the loop appends when it returns: a walk through the set
    that avoids the start point and ends next to it, unless the very
    first point has no neighbour at all. *)
Lemma traceLoop_spec bs s : forall fuel cur dir per0 per,
  key cur ∈ bs ->
  (per0 = [] \/ exists d, (d < 8)%nat /\ key (neighborAt cur d) ∈ bs) ->
  traceLoop fuel bs s cur dir per0 = Ok per ->
  exists ext l,
    per = per0 ++ cur :: ext /\
    Forall (fun p => key p ∈ bs) ext /\
    isWalk (cur :: ext) /\
    (s ∉ ext) /\
    last (cur :: ext) = Some l /\
    ((adjacent l s /\ key s ∈ bs) \/
     (per0 = [] /\ ext = [] /\
      forall d, (d < 8)%nat -> key (neighborAt cur d) ∉ bs)).
Proof.
  induction fuel as [|fuel IH]; intros cur dir per0 per Hcur Hprev;
    cbn [traceLoop]; [discriminate|].
  destruct (findNext bs cur dir) as [[nxt d']|] eqn:En.
  - apply findNext_Some in En as (Hnxt & Hd' & ->).
    destruct (negb _ || negb _) eqn:Es.
    + intros H. apply IH in H as (ext & l & -> & Hall & Hw & Hs & Hl & Hend).
      * exists (neighborAt cur d' :: ext), l. split_and!.
        -- now rewrite <- app_assoc.
        -- constructor; assumption.
        -- apply isWalk_cons; [now apply neighborAt_adjacent|exact Hw].
        -- intros Hin. apply elem_of_cons in Hin as [E|Hin]; [|auto].
           rewrite <- E in Es.
           rewrite !Z.eqb_refl in Es. discriminate.
        -- exact Hl.
        -- destruct Hend as [?|(E & _)]; [now left|].
           now destruct per0.
      * exact Hnxt.
      * right. exists ((d' + 4) mod 8)%nat. split.
        -- apply Nat.mod_upper_bound. lia.
        -- now rewrite neighborAt_back.
    + intros H. inversion H; subst. exists [], cur.
      apply orb_false_iff in Es as [E1 E2].
      apply negb_false_iff, Z.eqb_eq in E1, E2.
      assert (Es : neighborAt cur d' = s).
      { destruct (neighborAt cur d'), s. simpl in *. now subst. }
      split_and!; auto; try exact I.
      * intros Hin. inversion Hin.
      * left. rewrite <- Es. split; [now apply neighborAt_adjacent|exact Hnxt].
  - intros H. inversion H; subst. exists [], cur.
    split_and!; auto; try exact I; [intros Hin; inversion Hin|].
    right. destruct Hprev as [->|(d & Hd & Hin)].
    + split_and!; auto. intros d Hd. eapply findNext_None; eauto.
    + exfalso. eapply findNext_None; eauto.
Qed.

Lemma traceContour_spec fuel blob w h per :
  traceContour fuel blob w h = Ok per ->
  exists s ext l,
    startPointOf blob = Ok s /\ per = s :: ext /\
    (forall p, p ∈ per -> p ∈ blob) /\
    isWalk per /\ (s ∉ ext) /\ last per = Some l /\
    ((adjacent l s /\ ext <> []) \/
     (ext = [] /\ forall q, q ∈ blob -> ~ adjacent s q)).
Proof.
  unfold traceContour. destruct (startPointOf blob) as [s| |] eqn:Es;
    cbn [mbind outcome_bind]; try discriminate.
  intros H. pose proof (startPointOf_spec _ _ Es) as [Hs _].
  apply traceLoop_spec in H as (ext & l & -> & Hall & Hw & Hns & Hl & Hend);
    [|now apply key_in_blobSet|now left].
  exists s, ext, l. split_and!; auto.
  - intros p Hp. apply elem_of_cons in Hp as [->|Hp]; [exact Hs|].
    rewrite Forall_forall in Hall. apply key_in_blobSet. now apply Hall.
  - destruct Hend as [[Hadj _]|(_ & -> & Hnone)].
    + left. split; [exact Hadj|]. intros ->. simpl in Hl.
      inversion Hl; subst. destruct Hadj as (_ & _ & Hne). congruence.
    + right. split; [reflexivity|]. intros q Hq Hadj.
      apply adjacent_neighborAt in Hadj as (d & Hd & ->).
      apply (Hnone d Hd). now apply key_in_blobSet.
Qed.

(** *** Only the set of pixels matters *)

Lemma blobSetOf_ext blob blob' :
  (forall p, p ∈ blob <-> p ∈ blob') -> blobSetOf blob = blobSetOf blob'.
Proof.
  intros Hset. apply set_eq. intros [x y].
  change (x, y) with (key (mkPoint x y)).
  rewrite !key_in_blobSet. apply Hset.
Qed.

Lemma traceContour_ext fuel blob blob' w h w' h' :
  (forall p, p ∈ blob <-> p ∈ blob') ->
  traceContour fuel blob w h = traceContour fuel blob' w' h'.
Proof.
  intros Hset. unfold traceContour.
  rewrite (blobSetOf_ext blob blob' Hset).
  destruct blob as [|p ps], blob' as [|p' ps'].
  - reflexivity.
  - exfalso. assert (H : p' ∈ @nil Point) by (apply Hset; left). inversion H.
  - exfalso. assert (H : p ∈ @nil Point) by (apply Hset; left). inversion H.
  - assert (E : fold_left pickStart ps p = fold_left pickStart ps' p').
    { eapply startPointOf_unique; [exact Hset| |]; reflexivity. }
    cbn [startPointOf mbind outcome_bind]. now rewrite E.
Qed.

End TraceWalk.

(** * Ramer-Douglas-Peucker: the error bound *)

Module RDPBound.
Import FOrder FOrderFacts RDP RDPFacts.

(** A distance that does not exceed the maximum does not exceed a
    tolerance that the maximum does not exceed. *)
Lemma gt_bound d dmax eps :
  ordered dmax -> gt d dmax = false -> gt dmax eps = false ->
  gt d eps = false.
Proof.
  unfold gt. intros Ho Hd Hm.
  destruct (eps <? d)%float eqn:E; [|reflexivity].
  destruct (ltb_ordered _ _ E) as [_ Hod].
  pose proof (not_ltb_leb _ _ Ho Hod Hd) as Hle.
  rewrite (ltb_leb_trans _ _ _ E Hle) in Hm. discriminate.
Qed.

Lemma head_app_mid {A} (l r : list A) c : head (l ++ c :: r) = head (l ++ [c]).
Proof. now destruct l. Qed.

Lemma last_app_mid {A} (l r : list A) c : last (l ++ c :: r) = last (c :: r).
Proof.
  rewrite last_app. destruct (last (c :: r)) eqn:E; [reflexivity|].
  now apply last_None in E.
Qed.

Lemma rdp_covers eps : forall fuel points out,
  rdp fuel points eps = Ok out ->
  covers eps points out /\ head out = head points /\ last out = last points.
Proof.
  induction fuel as [|fuel IH]; intros points out; [discriminate|].
  destruct (Nat.lt_ge_cases (length points) 3) as [Hshort|Hlong].
  { rewrite rdp_short by assumption. intros H. inversion H; subst.
    split; [now constructor|auto]. }
  destruct (ends_split points) as (a & mid & b & ->); [lia|].
  assert (Hmid : mid <> []).
  { intros ->. simpl in Hlong. lia. }
  rewrite rdp_long by assumption.
  set (g := fun q => pointLineDistance q a b).
  destruct (scan (map g mid) 1 (0%nat, 0%float)) as [index dmax] eqn:Escan.
  destruct (scan_max (map g mid) 1 (0%nat, 0%float) ordered_zero)
    as (Ho & _ & Hmax).
  rewrite Escan in Ho, Hmax. simpl in Ho.
  destruct (gt dmax eps) eqn:Egt.
  2:{ intros H. inversion H; subst. split; [|split].
      - constructor. intros q Hq. eapply gt_bound; eauto.
        apply Hmax. apply list_elem_of_fmap. eauto.
      - reflexivity.
      - now rewrite app_comm_cons, last_snoc. }
  assert (Hidx : (index <= length mid)%nat).
  { destruct (scan_index (map g mid) 1 (0%nat, 0%float)) as [H|H];
      rewrite Escan, ?length_map in H; simpl in H; lia. }
  set (pts := a :: mid ++ [b]) in *.
  assert (Hlen : length pts = (length mid + 2)%nat).
  { unfold pts. simpl. rewrite length_app. simpl. lia. }
  destruct (lookup_lt_is_Some_2 pts index) as [c Hc]; [lia|].
  replace (index + 1)%nat with (S index) by lia.
  rewrite (take_S_r pts index c Hc), (drop_S pts c index Hc).
  set (l1 := take index pts). set (l2 := drop (S index) pts).
  destruct (rdp fuel (l1 ++ [c]) eps) as [r1| |] eqn:E1;
    cbn [mbind outcome_bind]; try discriminate.
  destruct (rdp fuel (c :: l2) eps) as [r2| |] eqn:E2;
    cbn [mbind outcome_bind]; try discriminate.
  intros H. inversion H; subst out. clear H.
  apply IH in E1 as (Hc1 & Hh1 & Hl1). apply IH in E2 as (Hc2 & Hh2 & Hl2).
  rewrite last_snoc in Hl1. apply last_Some in Hl1 as [o1 ->].
  simpl in Hh2. destruct r2 as [|c' o2]; [discriminate|].
  simpl in Hh2. inversion Hh2; subst c'.
  assert (Epts : pts = l1 ++ c :: l2)
    by (symmetry; apply take_drop_middle; exact Hc).
  rewrite dropLast_snoc, Epts. split; [|split].
  - now constructor.
  - rewrite (head_app_mid o1 o2), (head_app_mid l1 l2). exact Hh1.
  - rewrite (last_app_mid o1 o2), (last_app_mid l1 l2). exact Hl2.
Qed.

(** The bound read point by point. *)
Lemma covers_pointwise eps points out :
  covers eps points out ->
  forall q, q ∈ points ->
    q ∈ out \/
    exists l a b r, out = l ++ a :: b :: r /\
                    gt (pointLineDistance q a b) eps = false.
Proof.
  induction 1 as [points Hs|a mid b Hmid|l1 c l2 o1 o2 H1 IH1 H2 IH2];
    intros q Hq.
  - now left.
  - apply elem_of_cons in Hq as [->|Hq]; [left; left|].
    apply elem_of_app in Hq as [Hq|Hq].
    + right. exists [], a, b, []. split; [reflexivity|now apply Hmid].
    + apply list_elem_of_singleton in Hq as ->. left. right. left.
  - assert (Hq' : q ∈ l1 ++ [c] \/ q ∈ c :: l2).
    { apply elem_of_app in Hq as [Hq|Hq]; [left|right; exact Hq].
      apply elem_of_app. now left. }
    destruct Hq' as [Hq'|Hq'].
    + destruct (IH1 q Hq') as [Hin|(l & x & y & r & E & Hd)].
      * left. apply elem_of_app in Hin as [Hin|Hin].
        -- apply elem_of_app. now left.
        -- apply list_elem_of_singleton in Hin as ->.
           apply elem_of_app. right. left.
      * right. exists l, x, y, (r ++ o2). split; [|exact Hd].
        change (o1 ++ c :: o2) with (o1 ++ [c] ++ o2).
        rewrite app_assoc, E, <- app_assoc. reflexivity.
    + destruct (IH2 q Hq') as [Hin|(l & x & y & r & E & Hd)].
      * left. apply elem_of_app. now right.
      * right. exists (o1 ++ l), x, y, r. split; [|exact Hd].
        rewrite E, <- app_assoc. reflexivity.
Qed.

End RDPBound.

(** * The stages of the pipeline, composed *)

Section Pipeline.
Import FOrder FOrderFacts.

(** *** The mask *)

Lemma maskBit_binary grayData w thr y x :
  Otsu.maskBit grayData w thr y x = 0 \/ Otsu.maskBit grayData w thr y x = 1.
Proof.
  unfold Otsu.maskBit. destruct (grayData !! _) as [g|]; [|now left].
  destruct (g <? thr); auto.
Qed.

Lemma maskOf_isMask grayData w h thr : isMask (Otsu.maskOf grayData w h thr) w h.
Proof.
  split; [apply maskOf_length|]. unfold Otsu.maskOf.
  apply Forall_fmap, Forall_forall. intros y _. simpl. split.
  - now rewrite length_map, length_seq.
  - apply Forall_fmap, Forall_forall. intros x _. simpl.
    apply maskBit_binary.
Qed.

Lemma otsuBinarize_isMask grayData w h : isMask (otsuBinarize grayData w h) w h.
Proof. apply maskOf_isMask. Qed.

(** No entry below the threshold: the mask is all background. *)
Lemma maskOf_none grayData w h thr :
  (forall v, v ∈ grayData -> thr <= v) ->
  forall row v, row ∈ Otsu.maskOf grayData w h thr -> v ∈ row -> v = 0.
Proof.
  intros Hnn row v Hrow Hv. unfold Otsu.maskOf in Hrow.
  apply list_elem_of_fmap in Hrow as (y & -> & _).
  apply list_elem_of_fmap in Hv as (x & -> & _).
  unfold Otsu.maskBit. destruct (grayData !! _) as [g|] eqn:E; [|reflexivity].
  apply list_elem_of_lookup_2, Hnn in E.
  destruct (Z.ltb_spec g thr); [lia|reflexivity].
Qed.

Lemma maskOf_lookup grayData w h thr y x :
  (y < h)%nat -> (x < w)%nat ->
  (Otsu.maskOf grayData w h thr !! y) ≫= (fun row => row !! x)
  = Some (Otsu.maskBit grayData w thr y x).
Proof.
  intros Hy Hx. unfold Otsu.maskOf.
  rewrite list_lookup_fmap, lookup_seq_lt by assumption. simpl.
  rewrite list_lookup_fmap, lookup_seq_lt by assumption. reflexivity.
Qed.

Lemma maskBit_one grayData w thr y x :
  Otsu.maskBit grayData w thr y x = 1 <->
  exists g, grayData !! (y * w + x)%nat = Some g /\ g < thr.
Proof.
  unfold Otsu.maskBit. destruct (grayData !! _) as [g|].
  - destruct (Z.ltb_spec g thr); split; eauto; try discriminate.
    intros (g' & E & Hlt). inversion E; subst. lia.
  - split; [discriminate|]. intros (g & E & _). discriminate.
Qed.

(** The foreground of the mask: the pixels below the threshold. *)
Lemma foreground_dark grayData w h p :
  foreground (otsuBinarize grayData w h) w h p <->
  inImage w h p /\
  exists g, grayAt grayData w p = Some g /\
            g < Otsu.otsuThreshold grayData w h.
Proof.
  unfold foreground, otsuBinarize, grayAt. split.
  - intros [Hin E]. split; [exact Hin|]. destruct Hin as [Hx Hy].
    rewrite maskOf_lookup in E by lia. inversion E as [E'].
    now apply maskBit_one in E'.
  - intros [Hin Hg]. split; [exact Hin|]. destruct Hin as [Hx Hy].
    rewrite maskOf_lookup by lia. f_equal. now apply maskBit_one.
Qed.

Lemma toGrayscale_isBytes img : isBytes (toGrayscale img).
Proof. apply Forall_forall. intros v Hv. now apply toGrayscale_range in Hv. Qed.

(** *** From blobs to shapes *)

Lemma processBlob_shape fuel w h blob s :
  processBlob fuel w h blob = Ok (Some s) ->
  area s = length blob /\ (100 <= length blob)%nat /\
  center s = calculateCentroid blob /\
  boundingBox s = calculateBoundingBox blob.
Proof.
  unfold processBlob. destruct (Nat.ltb_spec (length blob) 100) as [|Hlen];
    [discriminate|].
  destruct (traceContour fuel blob w h) as [per| |];
    cbn [mbind outcome_bind]; try discriminate.
  destruct (lt _ Lit.c0_2); [discriminate|].
  destruct (gt _ Lit.c0_95).
  - intros H. inversion H; subst. simpl. auto.
  - destruct (rdp fuel per _) as [vs| |]; cbn [mbind outcome_bind];
      try discriminate.
    destruct (classifyPolygon vs _) as [[ty conf]|]; [|discriminate].
    intros H. inversion H; subst. simpl. auto.
Qed.

Lemma processBlobs_sub fuel w h (R : DetectedShape -> list Point -> Prop) :
  (forall blob s, processBlob fuel w h blob = Ok (Some s) -> R s blob) ->
  forall contours acc ss,
    processBlobs fuel w h contours acc = Ok ss ->
    exists new kept, ss = acc ++ new /\ kept `sublist_of` contours /\
                     Forall2 R new kept.
Proof.
  intros HR. induction contours as [|blob rest IH]; intros acc ss H;
    cbn [processBlobs] in H.
  - inversion H; subst. exists [], []. rewrite app_nil_r.
    repeat split; constructor.
  - destruct (processBlob fuel w h blob) as [[s|]| |] eqn:E;
      cbn [mbind outcome_bind] in H; try discriminate.
    + apply IH in H as (new & kept & -> & Hsub & HF).
      exists (s :: new), (blob :: kept). rewrite <- app_assoc.
      repeat split; [now apply sublist_skip|].
      constructor; [now apply HR|exact HF].
    + apply IH in H as (new & kept & -> & Hsub & HF).
      exists new, kept. repeat split; [now apply sublist_cons|exact HF].
Qed.

Lemma sublist_concat_length {A} (k l : list (list A)) :
  k `sublist_of` l -> (length (concat k) <= length (concat l))%nat.
Proof.
  induction 1 as [|x k l _ IH|x k l _ IH]; simpl; rewrite ?length_app; lia.
Qed.

Lemma elem_concat_length {A} (b : list A) (l : list (list A)) :
  b ∈ l -> (length b <= length (concat l))%nat.
Proof.
  induction 1 as [b l|b c l _ IH]; simpl; rewrite length_app; lia.
Qed.

(** The blobs of the pipeline, whatever the fuel they were found
    with, are pairwise disjoint sets of pixels of the image. *)
Lemma blobs_fit img fuel blobs :
  findContours (otsuBinarize (toGrayscale img) (width img) (height img))
               (width img) (height img) fuel = Ok blobs ->
  NoDup (concat blobs) /\
  (forall p, p ∈ concat blobs ->
     foreground (otsuBinarize (toGrayscale img) (width img) (height img))
                (width img) (height img) p) /\
  (length (concat blobs) <= width img * height img)%nat.
Proof.
  intros E.
  set (m := otsuBinarize (toGrayscale img) (width img) (height img)) in *.
  assert (Hrows : (height img <= length m)%nat).
  { unfold m, otsuBinarize. rewrite maskOf_length. lia. }
  destruct (findContours_spec m (width img) (height img) Hrows
              (Nat.max fuel (width img * height img)) ltac:(lia))
    as (blobs' & visited & E' & [H1 H2 H3 H4 H5 H6 H7 H8]).
  rewrite (findContours_mono m _ _ fuel _ blobs E) in E' by lia.
  inversion E'; subst blobs'. split; [exact H3|]. split; [exact H4|].
  apply (nodup_bound m _ _ Hrows); [exact H3|]. intros p Hp. now apply H4.
Qed.

Lemma processBlobs_each fuel w h contours : forall acc ss,
  processBlobs fuel w h contours acc = Ok ss ->
  Forall (fun blob => exists o, processBlob fuel w h blob = Ok o) contours.
Proof.
  induction contours as [|blob rest IH]; intros acc ss H;
    cbn [processBlobs] in H; [constructor|].
  destruct (processBlob fuel w h blob) as [o| |] eqn:E;
    cbn [mbind outcome_bind] in H; try discriminate.
  constructor; [eauto|]. eapply IH; eauto.
Qed.

Lemma processBlob_traced fuel w h blob o :
  processBlob fuel w h blob = Ok o -> (100 <= length blob)%nat ->
  exists per, traceContour fuel blob w h = Ok per.
Proof.
  unfold processBlob. destruct (Nat.ltb_spec (length blob) 100); [lia|].
  destruct (traceContour fuel blob w h) as [per| |];
    cbn [mbind outcome_bind]; try discriminate. eauto.
Qed.

Lemma classifyPolygon_rule vs c ty conf :
  classifyPolygon vs c = Some (ty, conf) ->
  (ty ∈ ["star"; "pentagon"; "triangle"]%string /\ conf = Lit.c0_85) \/
  (ty = "square"%string /\ conf ∈ [Lit.c0_7; Lit.c0_9; Lit.c0_65]) \/
  (ty = "rectangle"%string /\ conf ∈ [Lit.c0_9; Lit.c0_65]).
Proof.
  unfold classifyPolygon.
  repeat match goal with
         | |- context [if ?b then _ else _] => destruct b
         end;
    intros H; inversion H; subst;
    first [left; split; [set_solver|reflexivity]
          |right; left; split; [reflexivity|set_solver]
          |right; right; split; [reflexivity|set_solver]].
Qed.

Lemma confidence_circle c :
  gt c Lit.c0_95 = true ->
  (Lit.c0_95 <? Math_min c 1)%float = true.
Proof.
  unfold gt. intros Hc. destruct (ltb_ordered _ _ Hc) as [_ Ho].
  unfold Math_min, is_nan.
  assert (E : (c =? c)%float = true).
  { rewrite FloatAxioms.eqb_spec. unfold SFeqb. destruct Ho as [a Ha].
    rewrite SFcompare_rank, Ha. unfold lex3. now rewrite !Z.compare_refl. }
  rewrite E. change (negb true || negb (1 =? 1)%float) with false. cbv iota.
  destruct (c <? 1)%float; [exact Hc|].
  destruct (1 <? c)%float; [reflexivity|].
  destruct (get_sign c); [exact Hc|reflexivity].
Qed.

End Pipeline.

Section MissingRows.

(** A scan that comes to a pixel of a missing row does not return. *)
Lemma scanAll_missing_row m w h fuel todo y x : forall st r,
  (y, x) ∈ todo -> m !! y = None ->
  scanAll m w h fuel todo st <> Ok r.
Proof.
  induction todo as [|yx todo IH]; intros st r Hin Hrow; [inversion Hin|].
  cbn [scanAll].
  destruct (decide (yx = (y, x))) as [->|Hne].
  - unfold scanPixel, readMask. destruct st as [contours visited].
    rewrite Hrow. discriminate.
  - destruct (scanPixel m w h fuel st yx) as [st'| |];
      cbn [mbind outcome_bind]; try discriminate.
    apply IH; [|exact Hrow].
    apply elem_of_cons in Hin as [E|Hin]; [congruence|exact Hin].
Qed.

End MissingRows.

(** * Grayscale conversion, entry by entry *)

Section GrayEntries.

Lemma pixels_lt len j : (j < Nat.div (len + 3) 4)%nat <-> (4 * j < len)%nat.
Proof.
  pose proof (Nat.div_mod_eq (len + 3) 4) as E.
  pose proof (Nat.mod_upper_bound (len + 3) 4 ltac:(lia)) as Hm.
  lia.
Qed.

(** Entry [j] of the result: the gray level computed at offset [4 * j]
    when the loop reaches that offset, 0 otherwise. *)
Lemma toGrayscale_lookup img j :
  (j < width img * height img)%nat ->
  toGrayscale img !! j =
  Some (if (4 * j <? length (data img))%nat
        then grayOf (data img) (4 * j) else 0).
Proof.
  intros Hj. unfold toGrayscale.
  set (n := (width img * height img)%nat) in *.
  set (pixels := Nat.div (length (data img) + 3) 4).
  set (written := map (fun j => grayOf (data img) (4 * j)) (seq 0 pixels)).
  assert (Hw : length written = pixels)
    by (unfold written; now rewrite length_map, length_seq).
  destruct (Nat.ltb_spec (4 * j) (length (data img))) as [Hlt|Hge].
  - apply pixels_lt in Hlt. fold pixels in Hlt.
    rewrite lookup_app_l by (rewrite length_take; lia).
    rewrite lookup_take_lt by lia. unfold written.
    rewrite list_lookup_fmap, lookup_seq_lt by lia. reflexivity.
  - assert (Hp : (pixels <= j)%nat).
    { destruct (Nat.lt_ge_cases j pixels) as [H|H]; [|exact H].
      apply pixels_lt in H. lia. }
    rewrite lookup_app_r by (rewrite length_take; lia).
    rewrite length_take. apply lookup_replicate. split; [reflexivity|lia].
Qed.

(** Two buffers that agree on the red, green and blue bytes. *)
Lemma grayOf_alpha d d' j :
  (forall i, (i mod 4 <> 3)%nat -> d !! i = d' !! i) ->
  grayOf d (4 * j) = grayOf d' (4 * j).
Proof.
  intros H. unfold grayOf, readByte.
  assert (H0 : ((4 * j) mod 4 <> 3)%nat).
  { rewrite Nat.mul_comm, Nat.Div0.mod_mul. lia. }
  assert (H1 : ((4 * j + 1) mod 4 <> 3)%nat).
  { rewrite Nat.add_comm, Nat.mul_comm, Nat.Div0.mod_add. simpl. lia. }
  assert (H2 : ((4 * j + 2) mod 4 <> 3)%nat).
  { rewrite Nat.add_comm, Nat.mul_comm, Nat.Div0.mod_add. simpl. lia. }
  now rewrite (H _ H0), (H _ H1), (H _ H2).
Qed.

(** The weights add up so that a gray pixel keeps its level. *)
Lemma gray_levels_fixed :
  forallb (fun v => grayOf [v; v; v] 0 =? v) (map Z.of_nat (seq 0 256)) = true.
Proof. vm_compute. reflexivity. Qed.

Lemma grayOf_gray d i v :
  0 <= v <= 255 ->
  d !! i = Some v -> d !! (i + 1)%nat = Some v -> d !! (i + 2)%nat = Some v ->
  grayOf d i = v.
Proof.
  intros Hv H0 H1 H2.
  assert (E : grayOf d i = grayOf [v; v; v] 0).
  { unfold grayOf, readByte. now rewrite H0, H1, H2. }
  rewrite E. pose proof gray_levels_fixed as Hall.
  rewrite forallb_forall in Hall.
  apply Z.eqb_eq, Hall, in_map_iff. exists (Z.to_nat v).
  split; [lia|]. apply in_seq. lia.
Qed.

End GrayEntries.

(** * Distances are never negative *)

Section SignClear.

Lemma binary_round_aux_signClear mx ex lx :
  signClear (binary_round_aux prec emax false mx ex lx).
Proof.
  unfold binary_round_aux.
  destruct (shr_fexp prec emax mx ex lx) as [mrs' e'].
  destruct (shr_fexp prec emax _ e' loc_Exact) as [mrs'' e''].
  destruct (shr_m mrs''); simpl; auto.
  destruct (e'' <=? emax - prec); simpl; auto.
Qed.

Lemma binary_round_signClear mx ex :
  signClear (binary_round prec emax false mx ex).
Proof.
  unfold binary_round. destruct (shl_align mx ex _) as [mz ez].
  apply binary_round_aux_signClear.
Qed.

Lemma abs_signClear x : signClear (Prim2SF (abs x)).
Proof. rewrite abs_spec. destruct (Prim2SF x); simpl; auto. Qed.

Lemma square_signClear x : signClear (Prim2SF (x * x)%float).
Proof.
  rewrite mul_spec. destruct (Prim2SF x) as [[]|[]| |[] m e]; simpl; auto;
    apply binary_round_aux_signClear.
Qed.

Lemma add_signClear x y :
  signClear (Prim2SF x) -> signClear (Prim2SF y) ->
  signClear (Prim2SF (x + y)%float).
Proof.
  rewrite add_spec.
  destruct (Prim2SF x) as [s|s| |s m e], (Prim2SF y) as [s'|s'| |s' m' e'];
    simpl; intros Hx Hy; subst; simpl; auto.
  destruct (shl_align m e (Z.min e e')) as [a ?],
           (shl_align m' e' (Z.min e e')) as [b ?]. simpl.
  apply binary_round_signClear.
Qed.

Lemma sqrt_signClear x :
  signClear (Prim2SF x) -> signClear (Prim2SF (sqrt x)).
Proof.
  rewrite sqrt_spec. destruct (Prim2SF x) as [s|s| |s m e]; simpl;
    intros Hx; subst; simpl; auto.
  unfold SFsqrt. simpl.
  destruct (SFsqrt_core_binary prec emax (Z.pos m) e) as [[mz ez] lz].
  apply binary_round_aux_signClear.
Qed.

Lemma div_signClear x y :
  signClear (Prim2SF x) -> signClear (Prim2SF y) ->
  signClear (Prim2SF (x / y)%float).
Proof.
  rewrite div_spec.
  destruct (Prim2SF x) as [s|s| |s m e], (Prim2SF y) as [s'|s'| |s' m' e'];
    simpl; intros Hx Hy; subst; simpl; auto.
  destruct (SFdiv_core_binary prec emax (Z.pos m) e (Z.pos m') e')
    as [[mz ez] lz].
  apply binary_round_aux_signClear.
Qed.

(** A value with a clear sign is NaN or at least 0. *)
Lemma signClear_nan_or_nonneg x :
  signClear (Prim2SF x) ->
  is_nan x = true \/ (0 <=? x)%float = true.
Proof.
  unfold is_nan. rewrite FloatAxioms.eqb_spec, leb_spec.
  change (Prim2SF 0) with (S754_zero false).
  destruct (Prim2SF x) as [s|s| |s m e]; simpl; intros Hx; subst; auto.
Qed.

Lemma signClear_not_lt0 x :
  signClear (Prim2SF x) -> (x <? 0)%float = false.
Proof.
  rewrite ltb_spec. change (Prim2SF 0) with (S754_zero false).
  destruct (Prim2SF x) as [s|s| |s m e]; simpl; intros Hx; subst; auto.
Qed.

Lemma pointLineDistance_signClear p p1 p2 :
  signClear (Prim2SF (pointLineDistance p p1 p2)).
Proof.
  unfold pointLineDistance.
  apply div_signClear; [apply abs_signClear|].
  apply sqrt_signClear, add_signClear; apply square_signClear.
Qed.

Lemma dist_signClear p1 p2 : signClear (Prim2SF (dist p1 p2)).
Proof.
  unfold dist. apply sqrt_signClear, add_signClear; apply square_signClear.
Qed.

End SignClear.

(** * Boundary tracing of a filled rectangle *)

Module TraceRect.
Import Trace TraceWalk.

(** *** Runs of the loop *)

Lemma traceLoop_move fuel bs s cur dir per nxt d :
  findNext bs cur dir = Some (nxt, d) ->
  px nxt <> px s \/ py nxt <> py s ->
  traceLoop (S fuel) bs s cur dir per = traceLoop fuel bs s nxt d (per ++ [cur]).
Proof.
  intros Hn Hne. cbn [traceLoop]. rewrite Hn.
  destruct (negb _ || negb _) eqn:E; [reflexivity|].
  apply orb_false_iff in E as [E1 E2].
  apply negb_false_iff, Z.eqb_eq in E1, E2. lia.
Qed.

Lemma traceLoop_stop fuel bs s cur dir per d :
  findNext bs cur dir = Some (s, d) ->
  traceLoop (S fuel) bs s cur dir per = Ok (per ++ [cur]).
Proof.
  intros Hn. cbn [traceLoop]. rewrite Hn, !Z.eqb_refl. reflexivity.
Qed.

(** [n] moves along the points [f k], [f (k + 1)], ..., all found in
    direction [d], whether the loop arrives with direction [d0] or
    [d]. *)
Lemma traceLoop_run bs s (f : nat -> Point) d0 d : forall n fuel k dir per,
  (forall i, (k <= i < k + n)%nat ->
     (forall dir', dir' = d0 \/ dir' = d ->
        findNext bs (f i) dir' = Some (f (S i), d)) /\
     (px (f (S i)) <> px s \/ py (f (S i)) <> py s)) ->
  dir = d0 \/ dir = d ->
  traceLoop (n + fuel) bs s (f k) dir per
  = traceLoop fuel bs s (f (k + n)%nat)
              (match n with O => dir | S _ => d end)
              (per ++ map f (seq k n)).
Proof.
  induction n as [|n IH]; intros fuel k dir per Hstep Hdir.
  - now rewrite Nat.add_0_r, app_nil_r.
  - destruct (Hstep k ltac:(lia)) as [Hn Hne].
    cbn [Nat.add]. rewrite (traceLoop_move _ _ _ _ _ _ _ _ (Hn dir Hdir) Hne).
    rewrite (IH fuel (S k) d (per ++ [f k]));
      [|intros i Hi; apply Hstep; lia|now right].
    cbn [seq map]. rewrite <- app_assoc.
    replace (S k + n)%nat with (k + S n)%nat by lia.
    now destruct n.
Qed.

(** *** The eight neighbours *)

Lemma nb0 x y : neighborAt (mkPoint x y) 0 = mkPoint x (y - 1).
Proof. unfold neighborAt. simpl. f_equal; lia. Qed.
Lemma nb1 x y : neighborAt (mkPoint x y) 1 = mkPoint (x + 1) (y - 1).
Proof. unfold neighborAt. simpl. f_equal; lia. Qed.
Lemma nb2 x y : neighborAt (mkPoint x y) 2 = mkPoint (x + 1) y.
Proof. unfold neighborAt. simpl. f_equal; lia. Qed.
Lemma nb3 x y : neighborAt (mkPoint x y) 3 = mkPoint (x + 1) (y + 1).
Proof. unfold neighborAt. simpl. f_equal; lia. Qed.
Lemma nb4 x y : neighborAt (mkPoint x y) 4 = mkPoint x (y + 1).
Proof. unfold neighborAt. simpl. f_equal; lia. Qed.
Lemma nb5 x y : neighborAt (mkPoint x y) 5 = mkPoint (x - 1) (y + 1).
Proof. unfold neighborAt. simpl. f_equal; lia. Qed.
Lemma nb6 x y : neighborAt (mkPoint x y) 6 = mkPoint (x - 1) y.
Proof. unfold neighborAt. simpl. f_equal; lia. Qed.
Lemma nb7 x y : neighborAt (mkPoint x y) 7 = mkPoint (x - 1) (y - 1).
Proof. unfold neighborAt. simpl. f_equal; lia. Qed.

Section Rect.
Import RectSides.
Variables (x0 y0 : Z) (W H : nat).
Hypotheses (HW : (2 <= W)%nat) (HH : (2 <= H)%nat).
Variable blob : list Point.
Hypothesis Hblob : forall p, p ∈ blob <-> inRect x0 y0 W H p.

Local Abbreviation bs := (blobSetOf blob).
Local Abbreviation s := (mkPoint x0 y0).

Lemma mem_rect x y :
  bool_decide (key (mkPoint x y) ∈ bs) =
  (x0 <=? x) && (x <? x0 + Z.of_nat W) && (y0 <=? y) && (y <? y0 + Z.of_nat H).
Proof.
  destruct (_ && _) eqn:E.
  - apply bool_decide_eq_true. rewrite key_in_blobSet, Hblob.
    unfold inRect. simpl. lia.
  - apply bool_decide_eq_false. rewrite key_in_blobSet, Hblob.
    unfold inRect. simpl. lia.
Qed.

Lemma top_step x dir :
  x0 <= x -> x + 1 < x0 + Z.of_nat W -> (dir = 0 \/ dir = 2)%nat ->
  findNext bs (mkPoint x y0) dir = Some (mkPoint (x + 1) y0, 2%nat).
Proof.
  intros H1 H2 [-> | ->]; unfold findNext; cbn;
    rewrite ?nb0, ?nb1, ?nb2, ?nb3, ?nb4, ?nb5, ?nb6, ?nb7, ?mem_rect;
    repeat (match goal with
            | |- context [Z.leb ?a ?b] => destruct (Z.leb_spec a b)
            | |- context [Z.ltb ?a ?b] => destruct (Z.ltb_spec a b)
            end; try lia; cbn [andb]);
    reflexivity.
Qed.

Lemma right_step y dir :
  y0 <= y -> y + 1 < y0 + Z.of_nat H -> (dir = 2 \/ dir = 4)%nat ->
  findNext bs (mkPoint (x0 + Z.of_nat W - 1) y) dir
  = Some (mkPoint (x0 + Z.of_nat W - 1) (y + 1), 4%nat).
Proof.
  intros H1 H2 [-> | ->]; unfold findNext; cbn;
    rewrite ?nb0, ?nb1, ?nb2, ?nb3, ?nb4, ?nb5, ?nb6, ?nb7, ?mem_rect;
    repeat (match goal with
            | |- context [Z.leb ?a ?b] => destruct (Z.leb_spec a b)
            | |- context [Z.ltb ?a ?b] => destruct (Z.ltb_spec a b)
            end; try lia; cbn [andb]);
    reflexivity.
Qed.

Lemma bottom_step x dir :
  x0 <= x - 1 -> x < x0 + Z.of_nat W -> (dir = 4 \/ dir = 6)%nat ->
  findNext bs (mkPoint x (y0 + Z.of_nat H - 1)) dir
  = Some (mkPoint (x - 1) (y0 + Z.of_nat H - 1), 6%nat).
Proof.
  intros H1 H2 [-> | ->]; unfold findNext; cbn;
    rewrite ?nb0, ?nb1, ?nb2, ?nb3, ?nb4, ?nb5, ?nb6, ?nb7, ?mem_rect;
    repeat (match goal with
            | |- context [Z.leb ?a ?b] => destruct (Z.leb_spec a b)
            | |- context [Z.ltb ?a ?b] => destruct (Z.ltb_spec a b)
            end; try lia; cbn [andb]);
    reflexivity.
Qed.

Lemma left_step y dir :
  y0 <= y - 1 -> y < y0 + Z.of_nat H -> (dir = 6 \/ dir = 0)%nat ->
  findNext bs (mkPoint x0 y) dir = Some (mkPoint x0 (y - 1), 0%nat).
Proof.
  intros H1 H2 [-> | ->]; unfold findNext; cbn;
    rewrite ?nb0, ?nb1, ?nb2, ?nb3, ?nb4, ?nb5, ?nb6, ?nb7, ?mem_rect;
    repeat (match goal with
            | |- context [Z.leb ?a ?b] => destruct (Z.leb_spec a b)
            | |- context [Z.ltb ?a ?b] => destruct (Z.ltb_spec a b)
            end; try lia; cbn [andb]);
    reflexivity.
Qed.

Lemma rect_start : startPointOf blob = Ok s.
Proof.
  assert (Hs : s ∈ blob).
  { apply Hblob. unfold inRect. simpl. lia. }
  destruct (startPointOf blob) as [s'| |] eqn:E.
  - apply startPointOf_spec in E as [Hin Hmin]. f_equal.
    apply Hblob in Hin. unfold inRect in Hin.
    destruct (Hmin s Hs) as [->|Hlt]; [reflexivity|].
    unfold rowMajorLt in Hlt. simpl in Hlt. lia.
  - destruct blob; [inversion Hs|discriminate].
  - destruct blob; discriminate.
Qed.

(** The loop walks the four sides and stops on its return to the
    top left corner. *)
Lemma rect_loop fuel :
  traceLoop ((W - 1) + ((H - 1) + ((W - 1) + ((H - 2) + S fuel))))
            bs s s 0 []
  = Ok (rectPerimeter x0 y0 W H).
Proof.
  assert (EW : exists w, (W - 1)%nat = S w) by (exists (W - 2)%nat; lia).
  assert (EH : exists h, (H - 1)%nat = S h /\ (H - 2)%nat = h)
    by (exists (H - 2)%nat; lia).
  destruct EW as [w EW], EH as (h & EH & EH').
  unfold rectPerimeter. rewrite EW, EH, EH'.
  assert (Es : s = topF x0 y0 0) by (unfold topF; f_equal; simpl; lia).
  rewrite Es at 2.
  rewrite (traceLoop_run bs s (topF x0 y0) 0%nat 2%nat (S w)); [| |now left].
  2:{ intros i Hi. unfold topF. split.
      - intros dir Hdir. rewrite Nat2Z.inj_succ.
        replace (x0 + Z.succ (Z.of_nat i)) with (x0 + Z.of_nat i + 1) by lia.
        apply top_step; lia.
      - left. simpl. lia. }
  replace (topF x0 y0 (0 + S w)) with (rightF x0 y0 W 0)
    by (unfold topF, rightF; f_equal; lia).
  rewrite (traceLoop_run bs s (rightF x0 y0 W) 2%nat 4%nat (S h));
    [| |now left].
  2:{ intros i Hi. unfold rightF. split.
      - intros dir Hdir. rewrite Nat2Z.inj_succ.
        replace (y0 + Z.succ (Z.of_nat i)) with (y0 + Z.of_nat i + 1) by lia.
        apply right_step; lia.
      - left. simpl. lia. }
  replace (rightF x0 y0 W (0 + S h)) with (bottomF x0 y0 W H 0)
    by (unfold bottomF, rightF; f_equal; lia).
  rewrite (traceLoop_run bs s (bottomF x0 y0 W H) 4%nat 6%nat (S w));
    [| |now left].
  2:{ intros i Hi. unfold bottomF. split.
      - intros dir Hdir. rewrite Nat2Z.inj_succ.
        replace (x0 + Z.of_nat W - 1 - Z.succ (Z.of_nat i))
          with (x0 + Z.of_nat W - 1 - Z.of_nat i - 1) by lia.
        apply bottom_step; lia.
      - right. simpl. lia. }
  replace (bottomF x0 y0 W H (0 + S w)) with (leftF x0 y0 H 0)
    by (unfold bottomF, leftF; f_equal; lia).
  rewrite (traceLoop_run bs s (leftF x0 y0 H) 6%nat 0%nat h);
    [| |now left].
  2:{ intros i Hi. unfold leftF. split.
      - intros dir Hdir. rewrite Nat2Z.inj_succ.
        replace (y0 + Z.of_nat H - 1 - Z.succ (Z.of_nat i))
          with (y0 + Z.of_nat H - 1 - Z.of_nat i - 1) by lia.
        apply left_step; lia.
      - right. simpl. lia. }
  rewrite (traceLoop_stop _ _ _ _ _ _ 0%nat).
  - rewrite Nat.add_0_l, app_nil_l, <- !app_assoc. do 3 f_equal.
    rewrite (seq_S h 0), map_app. reflexivity.
  - unfold leftF. rewrite Nat.add_0_l.
    replace s with (mkPoint x0 (y0 + Z.of_nat H - 1 - Z.of_nat h - 1))
      by (f_equal; lia).
    apply left_step; [lia|lia|destruct h; auto].
Qed.

Lemma rect_trace fuel w h :
  (2 * (W + H) - 4 <= fuel)%nat ->
  traceContour fuel blob w h = Ok (rectPerimeter x0 y0 W H).
Proof.
  intros Hfuel. unfold traceContour. rewrite rect_start.
  cbn [mbind outcome_bind].
  replace fuel
    with ((W - 1) + ((H - 1) + ((W - 1) + ((H - 2)
          + S (fuel - (2 * (W + H) - 4))))))%nat by lia.
  apply rect_loop.
Qed.

Lemma rectPerimeter_length :
  length (rectPerimeter x0 y0 W H) = (2 * (W + H) - 4)%nat.
Proof.
  unfold rectPerimeter. rewrite !length_app, !length_map, !length_seq. lia.
Qed.

End Rect.
End TraceRect.

(** * Integer arithmetic in binary64 is exact below 2^53 *)

Module Exact.

(** *** Digits *)

Lemma digits2_size p : digits2_pos p = Pos.size p.
Proof. induction p; simpl; congruence. Qed.

Lemma digits_log2 p : Z.pos (digits2_pos p) = Z.log2 (Z.pos p) + 1.
Proof.
  rewrite digits2_size. destruct p; simpl; try reflexivity;
    rewrite Pos2Z.inj_succ; lia.
Qed.

Lemma digits_bounds p :
  2 ^ (Z.pos (digits2_pos p) - 1) <= Z.pos p < 2 ^ Z.pos (digits2_pos p).
Proof.
  rewrite digits_log2.
  pose proof (Z.log2_spec (Z.pos p) ltac:(lia)) as H.
  replace (Z.log2 (Z.pos p) + 1 - 1) with (Z.log2 (Z.pos p)) by lia.
  replace (Z.log2 (Z.pos p) + 1) with (Z.succ (Z.log2 (Z.pos p))) by lia.
  exact H.
Qed.

Lemma digits_mul_pow2 p q k :
  0 <= k -> Z.pos p = Z.pos q * 2 ^ k ->
  Z.pos (digits2_pos p) = Z.pos (digits2_pos q) + k.
Proof.
  intros Hk E. rewrite !digits_log2, E, Z.log2_mul_pow2 by lia. lia.
Qed.

Lemma digits_le_53 p : Z.pos p < 2 ^ 53 <-> Z.pos (digits2_pos p) <= 53.
Proof.
  pose proof (digits_bounds p) as [H1 H2]. split; intros H.
  - destruct (Z.le_gt_cases (Z.pos (digits2_pos p)) 53) as [|Hgt]; [assumption|].
    assert (2 ^ 53 <= 2 ^ (Z.pos (digits2_pos p) - 1))
      by (apply Z.pow_le_mono_r; lia).
    lia.
  - assert (2 ^ Z.pos (digits2_pos p) <= 2 ^ 53)
      by (apply Z.pow_le_mono_r; lia).
    lia.
Qed.

(** *** Shifts *)

Lemma iter_pos_nat {A} (f : A -> A) n : forall x,
  @SpecFloat.iter_pos A f n x = Nat.iter (Pos.to_nat n) f x.
Proof.
  induction n as [n IH|n IH|]; intros x; cbn [SpecFloat.iter_pos].
  - rewrite !IH.
    replace (Pos.to_nat n~1) with (Pos.to_nat n + (Pos.to_nat n + 1))%nat
      by (rewrite Pos2Nat.inj_xI; lia).
    now rewrite !Nat.iter_add.
  - rewrite !IH.
    replace (Pos.to_nat n~0) with (Pos.to_nat n + Pos.to_nat n)%nat
      by (rewrite Pos2Nat.inj_xO; lia).
    now rewrite Nat.iter_add.
  - reflexivity.
Qed.

Lemma Pos_iter_nat {A} (f : A -> A) n x :
  Pos.iter f x n = Nat.iter (Pos.to_nat n) f x.
Proof. apply Pos2Nat.inj_iter. Qed.

Lemma iter_xO_value n q :
  Z.pos (Nat.iter n xO q) = Z.pos q * 2 ^ Z.of_nat n.
Proof.
  induction n as [|n IH].
  - simpl. lia.
  - change (Nat.iter (S n) xO q) with (xO (Nat.iter n xO q)).
    rewrite Pos2Z.inj_xO, IH, Nat2Z.inj_succ, Z.pow_succ_r by lia. lia.
Qed.

Lemma shr_iter_exact n q :
  Nat.iter n shr_1 (Build_shr_record (Z.pos (Nat.iter n xO q)) false false)
  = Build_shr_record (Z.pos q) false false.
Proof.
  induction n as [|n IH]; [reflexivity|].
  rewrite Nat.iter_succ_r.
  change (Nat.iter (S n) xO q) with (xO (Nat.iter n xO q)).
  cbn [shr_1 orb]. exact IH.
Qed.

(** Shifting right the zeros that a shift left put in is exact. *)
Lemma shr_exact p q n :
  Z.pos p = Z.pos q * 2 ^ Z.pos n ->
  @SpecFloat.iter_pos _ shr_1 n (Build_shr_record (Z.pos p) false false)
  = Build_shr_record (Z.pos q) false false.
Proof.
  intros E. rewrite iter_pos_nat.
  replace p with (Nat.iter (Pos.to_nat n) xO q).
  - apply shr_iter_exact.
  - apply Pos2Z.inj. rewrite iter_xO_value, positive_nat_Z. lia.
Qed.

Lemma shl_exact p n : Z.pos (Pos.iter xO p n) = Z.pos p * 2 ^ Z.pos n.
Proof. now rewrite Pos_iter_nat, iter_xO_value, positive_nat_Z. Qed.

(** *** Rounding an exactly representable value *)

Lemma fexp_val e : -1021 <= e -> fexp prec emax e = e - 53.
Proof. intros H. unfold fexp, emin, prec, emax. lia. Qed.

Lemma aux_exact s p e q t :
  Z.pos p = Z.pos q * 2 ^ (t - e) -> e <= t ->
  Z.pos (digits2_pos q) = 53 -> -52 <= t <= 0 ->
  binary_round_aux prec emax s (Z.pos p) e loc_Exact = S754_finite s q t.
Proof.
  intros Ep Het Hq Ht.
  assert (Hdp : Z.pos (digits2_pos p) = 53 + (t - e))
    by (rewrite (digits_mul_pow2 p q (t - e)); lia).
  assert (Hstage2 :
    (let '(mrs'', e'') := shr_fexp prec emax (Z.pos q) t loc_Exact in
     match shr_m mrs'' with
     | 0 => S754_zero s
     | Z.pos m => if e'' <=? emax - prec then S754_finite s m e''
                  else S754_infinity s
     | Z.neg _ => S754_nan
     end) = S754_finite s q t).
  { unfold shr_fexp. cbn [Zdigits2]. rewrite Hq, fexp_val by lia.
    replace (53 + t - 53 - t) with 0 by lia. cbn [shr shr_record_of_loc shr_m].
    destruct (Z.leb_spec t (emax - prec)) as [|Hgt]; [reflexivity|].
    unfold emax, prec in Hgt. lia. }
  unfold binary_round_aux, shr_fexp at 1. cbn [Zdigits2].
  rewrite Hdp, fexp_val by lia.
  replace (53 + (t - e) + e - 53 - e) with (t - e) by lia.
  destruct (t - e) as [|n|n] eqn:En; [| |lia].
  - cbn [shr shr_record_of_loc shr_m loc_of_shr_record round_nearest_even].
    assert (p = q) as -> by (apply Pos2Z.inj; rewrite Ep; simpl; lia).
    replace e with t by lia. exact Hstage2.
  - cbn [shr shr_record_of_loc].
    rewrite (shr_exact p q n Ep).
    cbn [shr_m loc_of_shr_record round_nearest_even].
    replace (e + Z.pos n) with t by lia. exact Hstage2.
Qed.

Lemma binary_round_exact s p k z :
  0 < z < 2 ^ 53 -> 0 <= k -> Z.pos p = z * 2 ^ k ->
  intRepr (binary_round prec emax s p (- k)) (if s then - z else z).
Proof.
  intros Hz Hk Ep.
  destruct z as [|q|q]; try lia.
  pose proof (proj1 (digits_le_53 q) ltac:(lia)) as Hd.
  assert (Hd1 : 1 <= Z.pos (digits2_pos q)) by lia.
  set (d := Z.pos (digits2_pos q)) in *.
  set (t := d - 53).
  assert (Hdp : Z.pos (digits2_pos p) = d + k)
    by (apply (digits_mul_pow2 p q k); assumption).
  (* the mantissa of the result *)
  assert (Hm : exists m, Z.pos m = Z.pos q * 2 ^ (- t)).
  { exists (Z.to_pos (Z.pos q * 2 ^ (- t))). rewrite Z2Pos.id; [reflexivity|].
    apply Z.mul_pos_pos; [lia|]. apply Z.pow_pos_nonneg; lia. }
  destruct Hm as [m Em].
  assert (Hdm : Z.pos (digits2_pos m) = 53).
  { rewrite (digits_mul_pow2 m q (- t)); [fold d; unfold t; lia|unfold t; lia|exact Em]. }
  assert (Hres : binary_round prec emax s p (- k) = S754_finite s m t).
  { unfold binary_round. rewrite Hdp, fexp_val by lia.
    replace (d + k + - k - 53) with t by (unfold t; lia).
    unfold shl_align. destruct (t - - k) as [|n|n] eqn:En.
    - apply aux_exact; try (unfold t; lia).
      rewrite Ep, Em. replace (- t) with k by lia.
      replace (t - - k) with 0 by lia. simpl. lia.
    - apply aux_exact; try (unfold t; lia).
      rewrite Ep, Em, <- Z.mul_assoc, <- Z.pow_add_r by (unfold t; lia).
      f_equal. f_equal. lia.
    - apply aux_exact; try (unfold t; lia).
      rewrite shl_exact, Ep, Em, Z.sub_diag, <- Z.mul_assoc,
        <- Z.pow_add_r by lia.
      simpl. rewrite Z.mul_1_r. f_equal. f_equal. lia. }
  rewrite Hres. cbn [intRepr]. split; [exact Hdm|].
  split; [unfold t; lia|]. split.
  - rewrite Em. destruct s; simpl; reflexivity.
  - destruct s; simpl; reflexivity.
Qed.

Lemma normalize_exact D k z :
  Z.abs z < 2 ^ 53 -> 0 <= k -> D = z * 2 ^ k ->
  intRepr (binary_normalize prec emax D (- k) false) z.
Proof.
  intros Hz Hk ED.
  assert (Hpow : 0 < 2 ^ k) by (apply Z.pow_pos_nonneg; lia).
  destruct D as [|p|p]; cbn [binary_normalize].
  - cbn [intRepr]. split; [reflexivity|]. nia.
  - assert (0 < z) by nia.
    apply (binary_round_exact false p k z); [lia|lia|exact ED].
  - assert (z < 0) by nia.
    pose proof (binary_round_exact true p k (- z)) as Hr.
    cbv iota in Hr. rewrite Z.opp_involutive in Hr.
    apply Hr; [lia|lia|]. rewrite Z.mul_opp_l, <- ED. reflexivity.
Qed.

(** *** The value of an integer *)

Lemma intRepr_bound f z : intRepr f z -> Z.abs z < 2 ^ 53.
Proof.
  destruct f as [s|s| |s m e]; cbn [intRepr]; try tauto.
  - intros [_ ->]. reflexivity.
  - intros (Hd & He & Em & _).
    pose proof (proj2 (digits_le_53 m) ltac:(lia)) as Hm.
    assert (0 < 2 ^ (- e)) by (apply Z.pow_pos_nonneg; lia).
    nia.
Qed.

Lemma intRepr_valid f z : intRepr f z -> valid_binary f = true.
Proof.
  destruct f as [s|s| |s m e]; cbn [intRepr valid_binary]; try tauto.
  intros (Hd & He & _). unfold bounded, canonical_mantissa.
  rewrite Hd, fexp_val by lia.
  apply andb_true_iff. split; [apply Z.eqb_eq; lia|].
  apply Z.leb_le. unfold emax, prec. lia.
Qed.

Lemma intRepr_inj f g z : intRepr f z -> intRepr g z -> f = g.
Proof.
  destruct f as [s|s| |s m e], g as [s'|s'| |s' m' e'];
    cbn [intRepr]; try tauto.
  - intros [-> _] [-> _]. reflexivity.
  - intros [_ ->] (_ & _ & Em & _). simpl in Em. lia.
  - intros (_ & _ & Em & _) [_ ->]. simpl in Em. lia.
  - intros (Hd & He & Em & ->) (Hd' & He' & Em' & ->).
    destruct (Z.abs z) as [|q|q] eqn:Eq; [simpl in Em; lia| |lia].
    pose proof (digits_mul_pow2 m q (- e) ltac:(lia) Em) as H1.
    pose proof (digits_mul_pow2 m' q (- e') ltac:(lia) Em') as H2.
    assert (e = e') by lia. subst e'.
    assert (m = m') by (apply Pos2Z.inj; congruence). subst m'.
    reflexivity.
Qed.

Lemma ofZ_repr z : Z.abs z < 2 ^ 53 -> intRepr (Prim2SF (ofZ z)) z.
Proof.
  intros Hz. unfold ofZ.
  pose proof (normalize_exact z 0 z Hz ltac:(lia) ltac:(simpl; lia)) as H.
  change (- 0) with 0 in H.
  now rewrite Prim2SF_SF2Prim by (eapply intRepr_valid; eauto).
Qed.

Lemma intRepr_ofZ x z : intRepr (Prim2SF x) z -> x = ofZ z.
Proof.
  intros H. pose proof (ofZ_repr z (intRepr_bound _ _ H)) as H'.
  rewrite <- (SF2Prim_Prim2SF x), <- (SF2Prim_Prim2SF (ofZ z)).
  f_equal. eapply intRepr_inj; eauto.
Qed.

(** *** Comparison *)

Lemma mag_compare m e m' e' x y :
  0 < x -> 0 < y ->
  Z.pos (digits2_pos m) = 53 -> Z.pos (digits2_pos m') = 53 ->
  e <= 0 -> e' <= 0 ->
  Z.pos m = x * 2 ^ (- e) -> Z.pos m' = y * 2 ^ (- e') ->
  match e ?= e' with
  | Lt => Lt
  | Gt => Gt
  | Eq => Pos.compare_cont Eq m m'
  end = (x ?= y).
Proof.
  intros Hx Hy Hd Hd' He He' Em Em'.
  pose proof (digits_bounds m) as Hm. pose proof (digits_bounds m') as Hm'.
  rewrite Hd in Hm. rewrite Hd' in Hm'.
  change (2 ^ (53 - 1)) with 4503599627370496 in *.
  change (2 ^ 53) with 9007199254740992 in *.
  destruct (Z.compare_spec e e') as [->|Hlt|Hgt].
  - change (Pos.compare_cont Eq m m') with (Z.pos m ?= Z.pos m').
    rewrite Em, Em'.
    assert (HP : 0 < 2 ^ (- e')) by (apply Z.pow_pos_nonneg; lia).
    destruct (Z.compare_spec x y) as [->|H|H].
    + apply Z.compare_refl.
    + apply Z.compare_lt_iff. nia.
    + apply Z.compare_gt_iff. nia.
  - symmetry. apply Z.compare_lt_iff.
    assert (HP : 0 < 2 ^ (- e')) by (apply Z.pow_pos_nonneg; lia).
    assert (HQ : 2 <= 2 ^ (e' - e))
      by (change 2 with (2 ^ 1) at 1; apply Z.pow_le_mono_r; lia).
    assert (E : 2 ^ (- e) = 2 ^ (- e') * 2 ^ (e' - e))
      by (rewrite <- Z.pow_add_r by lia; f_equal; lia).
    rewrite E in Em. nia.
  - symmetry. apply Z.compare_gt_iff.
    assert (HP : 0 < 2 ^ (- e)) by (apply Z.pow_pos_nonneg; lia).
    assert (HQ : 2 <= 2 ^ (e - e'))
      by (change 2 with (2 ^ 1) at 1; apply Z.pow_le_mono_r; lia).
    assert (E : 2 ^ (- e') = 2 ^ (- e) * 2 ^ (e - e'))
      by (rewrite <- Z.pow_add_r by lia; f_equal; lia).
    rewrite E in Em'. nia.
Qed.

Lemma intRepr_nonzero s m e z : intRepr (S754_finite s m e) z -> z <> 0.
Proof. cbn [intRepr]. intros (_ & _ & Em & _) ->. simpl in Em. lia. Qed.

Lemma intRepr_compare f g a b :
  intRepr f a -> intRepr g b -> SFcompare f g = Some (a ?= b).
Proof.
  intros Hf Hg.
  destruct f as [s|s| |s m e], g as [s'|s'| |s' m' e'];
    try (cbn [intRepr] in Hf, Hg; tauto).
  - destruct Hf as [_ ->], Hg as [_ ->]. reflexivity.
  - pose proof (intRepr_nonzero _ _ _ _ Hg) as Hb.
    destruct Hf as [_ ->], Hg as (_ & _ & _ & ->). cbn [SFcompare].
    f_equal. destruct (Z.ltb_spec b 0), (Z.compare_spec 0 b); lia || reflexivity.
  - pose proof (intRepr_nonzero _ _ _ _ Hf) as Ha.
    destruct Hg as [_ ->], Hf as (_ & _ & _ & ->). cbn [SFcompare].
    f_equal. destruct (Z.ltb_spec a 0), (Z.compare_spec a 0); lia || reflexivity.
  - pose proof (intRepr_nonzero _ _ _ _ Hf) as Ha.
    pose proof (intRepr_nonzero _ _ _ _ Hg) as Hb.
    destruct Hf as (Hd & He & Em & ->), Hg as (Hd' & He' & Em' & ->).
    cbn [SFcompare]. f_equal.
    destruct (Z.ltb_spec a 0), (Z.ltb_spec b 0).
    + assert (E : match e ?= e' with
                  | Lt => Lt | Gt => Gt | Eq => Pos.compare_cont Eq m m'
                  end = (- a ?= - b)).
      { apply mag_compare; lia. }
      rewrite Z.compare_opp in E.
      rewrite (Z.compare_antisym b a).
      destruct (e ?= e'); rewrite <- E; reflexivity.
    + symmetry. apply Z.compare_lt_iff. lia.
    + symmetry. apply Z.compare_gt_iff. lia.
    + apply mag_compare; lia.
Qed.

Lemma ltb_int x y a b :
  intRepr (Prim2SF x) a -> intRepr (Prim2SF y) b ->
  (x <? y)%float = (a <? b).
Proof.
  intros Hx Hy. rewrite ltb_spec. unfold SFltb.
  rewrite (intRepr_compare _ _ _ _ Hx Hy). unfold Z.ltb.
  now destruct (a ?= b).
Qed.

Lemma is_nan_int x a : intRepr (Prim2SF x) a -> is_nan x = false.
Proof.
  intros Hx. unfold is_nan. rewrite FloatAxioms.eqb_spec. unfold SFeqb.
  now rewrite (intRepr_compare _ _ _ _ Hx Hx), Z.compare_refl.
Qed.

(** *** Subtraction and addition *)

Lemma shl_align_fst m e ez :
  ez <= e -> Z.pos (fst (shl_align m e ez)) = Z.pos m * 2 ^ (e - ez).
Proof.
  intros H. unfold shl_align. destruct (ez - e) as [|d|d] eqn:E; try lia.
  - replace (e - ez) with 0 by lia. simpl. lia.
  - cbn [fst]. rewrite shl_exact. f_equal. f_equal. lia.
Qed.

Lemma signed_mantissa s m e z ez :
  intRepr (S754_finite s m e) z -> ez <= e ->
  cond_Zopp s (Z.pos (fst (shl_align m e ez))) = z * 2 ^ (- ez).
Proof.
  intros (_ & He & Em & ->) Hez.
  rewrite shl_align_fst, Em, <- Z.mul_assoc, <- Z.pow_add_r by lia.
  replace (- e + (e - ez)) with (- ez) by lia.
  unfold cond_Zopp. destruct (Z.ltb_spec z 0).
  - rewrite Z.abs_neq by lia. lia.
  - rewrite Z.abs_eq by lia. lia.
Qed.

Lemma intRepr_opp s m e z :
  intRepr (S754_finite s m e) z -> intRepr (S754_finite (negb s) m e) (- z).
Proof.
  intros H. pose proof (intRepr_nonzero _ _ _ _ H) as Hz.
  destruct H as (Hd & He & Em & ->). cbn [intRepr].
  rewrite Z.abs_opp. split; [exact Hd|]. split; [exact He|].
  split; [exact Em|].
  destruct (Z.ltb_spec z 0), (Z.ltb_spec (- z) 0); lia || reflexivity.
Qed.

Lemma intRepr_sub f g a b :
  intRepr f a -> intRepr g b -> Z.abs (a - b) < 2 ^ 53 ->
  intRepr (SFsub prec emax f g) (a - b).
Proof.
  intros Hf Hg Hab.
  destruct f as [s|s| |s m e], g as [s'|s'| |s' m' e'];
    try (cbn [intRepr] in Hf, Hg; tauto).
  - destruct Hf as [-> ->], Hg as [-> ->]. cbn. auto.
  - destruct Hf as [-> ->]. cbn [SFsub]. rewrite Z.sub_0_l.
    now apply intRepr_opp.
  - destruct Hg as [-> ->]. cbn [SFsub]. now rewrite Z.sub_0_r.
  - cbn [SFsub].
    assert (He : -52 <= e <= 0) by (destruct Hf as (_ & ? & _); assumption).
    assert (He' : -52 <= e' <= 0) by (destruct Hg as (_ & ? & _); assumption).
    rewrite (signed_mantissa s m e a (Z.min e e') Hf) by lia.
    rewrite (signed_mantissa s' m' e' b (Z.min e e') Hg) by lia.
    rewrite <- Z.mul_sub_distr_r.
    rewrite <- (Z.opp_involutive (Z.min e e')) at 2.
    apply normalize_exact; [exact Hab|lia|reflexivity].
Qed.

Lemma intRepr_add f g a b :
  intRepr f a -> intRepr g b -> Z.abs (a + b) < 2 ^ 53 ->
  intRepr (SFadd prec emax f g) (a + b).
Proof.
  intros Hf Hg Hab.
  destruct f as [s|s| |s m e], g as [s'|s'| |s' m' e'];
    try (cbn [intRepr] in Hf, Hg; tauto).
  - destruct Hf as [-> ->], Hg as [-> ->]. cbn. auto.
  - destruct Hf as [-> ->]. cbn [SFadd]. now rewrite Z.add_0_l.
  - destruct Hg as [-> ->]. cbn [SFadd]. now rewrite Z.add_0_r.
  - cbn [SFadd].
    assert (He : -52 <= e <= 0) by (destruct Hf as (_ & ? & _); assumption).
    assert (He' : -52 <= e' <= 0) by (destruct Hg as (_ & ? & _); assumption).
    rewrite (signed_mantissa s m e a (Z.min e e') Hf) by lia.
    rewrite (signed_mantissa s' m' e' b (Z.min e e') Hg) by lia.
    rewrite <- Z.mul_add_distr_r.
    rewrite <- (Z.opp_involutive (Z.min e e')) at 2.
    apply normalize_exact; [exact Hab|lia|reflexivity].
Qed.

Lemma sub_int x y a b :
  intRepr (Prim2SF x) a -> intRepr (Prim2SF y) b ->
  Z.abs (a - b) < 2 ^ 53 ->
  intRepr (Prim2SF (x - y)%float) (a - b).
Proof. intros. rewrite sub_spec. now apply intRepr_sub. Qed.

Lemma add_int x y a b :
  intRepr (Prim2SF x) a -> intRepr (Prim2SF y) b ->
  Z.abs (a + b) < 2 ^ 53 ->
  intRepr (Prim2SF (x + y)%float) (a + b).
Proof. intros. rewrite add_spec. now apply intRepr_add. Qed.

End Exact.

(** * The bounding box is exact *)

Module BoxFacts.
Import Exact.

Lemma one_int : intRepr (Prim2SF 1%float) 1.
Proof. vm_compute. repeat split; discriminate || reflexivity. Qed.

Lemma ofZ_id z : Z.abs z < 2 ^ 53 -> forall x, intRepr (Prim2SF x) z -> x = ofZ z.
Proof. intros _ x. apply intRepr_ofZ. Qed.

(** *** [Math.min] and [Math.max] on integers *)

Lemma ltb_inf_l x a : intRepr (Prim2SF x) a -> (infinity <? x)%float = false.
Proof.
  intros H. rewrite ltb_spec. change (Prim2SF infinity) with (S754_infinity false).
  destruct (Prim2SF x) as [s|s| |s m e]; try (cbn [intRepr] in H; tauto);
    reflexivity.
Qed.

Lemma ltb_inf_r x a : intRepr (Prim2SF x) a -> (x <? infinity)%float = true.
Proof.
  intros H. rewrite ltb_spec. change (Prim2SF infinity) with (S754_infinity false).
  destruct (Prim2SF x) as [s|s| |s m e]; try (cbn [intRepr] in H; tauto);
    reflexivity.
Qed.

Lemma ltb_ninf_l x a : intRepr (Prim2SF x) a -> (neg_infinity <? x)%float = true.
Proof.
  intros H. rewrite ltb_spec.
  change (Prim2SF neg_infinity) with (S754_infinity true).
  destruct (Prim2SF x) as [s|s| |s m e]; try (cbn [intRepr] in H; tauto);
    reflexivity.
Qed.

Lemma Math_min_inf x a : intRepr (Prim2SF x) a -> Math_min infinity x = x.
Proof.
  intros H. unfold Math_min. rewrite (is_nan_int x a H).
  change (is_nan infinity) with false. cbn [orb].
  now rewrite (ltb_inf_l x a H), (ltb_inf_r x a H).
Qed.

Lemma Math_max_ninf x a : intRepr (Prim2SF x) a -> Math_max neg_infinity x = x.
Proof.
  intros H. unfold Math_max. rewrite (is_nan_int x a H).
  change (is_nan neg_infinity) with false. cbn [orb].
  now rewrite (ltb_ninf_l x a H).
Qed.

Lemma Math_min_int x y a b :
  intRepr (Prim2SF x) a -> intRepr (Prim2SF y) b ->
  intRepr (Prim2SF (Math_min x y)) (Z.min a b).
Proof.
  intros Hx Hy. unfold Math_min.
  rewrite (is_nan_int x a Hx), (is_nan_int y b Hy). cbn [orb].
  rewrite (ltb_int x y a b Hx Hy), (ltb_int y x b a Hy Hx).
  destruct (Z.ltb_spec a b); [now rewrite Z.min_l by lia|].
  destruct (Z.ltb_spec b a); [now rewrite Z.min_r by lia|].
  assert (a = b) by lia. subst b. rewrite Z.min_id.
  now destruct (get_sign x).
Qed.

Lemma Math_max_int x y a b :
  intRepr (Prim2SF x) a -> intRepr (Prim2SF y) b ->
  intRepr (Prim2SF (Math_max x y)) (Z.max a b).
Proof.
  intros Hx Hy. unfold Math_max.
  rewrite (is_nan_int x a Hx), (is_nan_int y b Hy). cbn [orb].
  rewrite (ltb_int x y a b Hx Hy), (ltb_int y x b a Hy Hx).
  destruct (Z.ltb_spec a b); [now rewrite Z.max_r by lia|].
  destruct (Z.ltb_spec b a); [now rewrite Z.max_l by lia|].
  assert (a = b) by lia. subst b. rewrite Z.max_id.
  now destruct (get_sign x).
Qed.

(** *** The four folds *)

Lemma fold_min_int (f : Point -> Z) l : forall x a,
  intRepr (Prim2SF x) a ->
  (forall q, q ∈ l -> Z.abs (f q) < 2 ^ 53) ->
  exists z,
    intRepr (Prim2SF (fold_left (fun m p => Math_min m (ofZ (f p))) l x)) z /\
    (z = a \/ exists q, q ∈ l /\ f q = z) /\
    z <= a /\ forall q, q ∈ l -> z <= f q.
Proof.
  induction l as [|p l IH]; intros x a Hx Hb; cbn [fold_left].
  - exists a. repeat split; auto; [lia|]. intros q Hq. inversion Hq.
  - destruct (IH (Math_min x (ofZ (f p))) (Z.min a (f p)))
      as (z & Hz & Hin & Hle & Hall).
    { apply Math_min_int; [exact Hx|]. apply ofZ_repr, Hb. left. }
    { intros q Hq. apply Hb. now right. }
    exists z. split; [exact Hz|]. split; [|split; [lia|]].
    + destruct Hin as [->|(q & Hq & E)].
      * destruct (Z.min_spec a (f p)) as [[_ ->]|[_ ->]]; [now left|].
        right. exists p. split; [left|reflexivity].
      * right. exists q. split; [now right|exact E].
    + intros q Hq. apply elem_of_cons in Hq as [->|Hq]; [lia|auto].
Qed.

Lemma fold_max_int (f : Point -> Z) l : forall x a,
  intRepr (Prim2SF x) a ->
  (forall q, q ∈ l -> Z.abs (f q) < 2 ^ 53) ->
  exists z,
    intRepr (Prim2SF (fold_left (fun m p => Math_max m (ofZ (f p))) l x)) z /\
    (z = a \/ exists q, q ∈ l /\ f q = z) /\
    a <= z /\ forall q, q ∈ l -> f q <= z.
Proof.
  induction l as [|p l IH]; intros x a Hx Hb; cbn [fold_left].
  - exists a. repeat split; auto; [lia|]. intros q Hq. inversion Hq.
  - destruct (IH (Math_max x (ofZ (f p))) (Z.max a (f p)))
      as (z & Hz & Hin & Hle & Hall).
    { apply Math_max_int; [exact Hx|]. apply ofZ_repr, Hb. left. }
    { intros q Hq. apply Hb. now right. }
    exists z. split; [exact Hz|]. split; [|split; [lia|]].
    + destruct Hin as [->|(q & Hq & E)].
      * destruct (Z.max_spec a (f p)) as [[_ ->]|[_ ->]]; [|now left].
        right. exists p. split; [left|reflexivity].
      * right. exists q. split; [now right|exact E].
    + intros q Hq. apply elem_of_cons in Hq as [->|Hq]; [lia|auto].
Qed.

Lemma blob_min (f : Point -> Z) blob :
  blob <> [] -> (forall q, q ∈ blob -> Z.abs (f q) < 2 ^ 53) ->
  exists z,
    fold_left (fun m p => Math_min m (ofZ (f p))) blob infinity = ofZ z /\
    (exists q, q ∈ blob /\ f q = z) /\ forall q, q ∈ blob -> z <= f q.
Proof.
  intros Hne Hb. destruct blob as [|p l]; [congruence|]. cbn [fold_left].
  assert (Hp : intRepr (Prim2SF (ofZ (f p))) (f p))
    by (apply ofZ_repr, Hb; left).
  rewrite (Math_min_inf _ _ Hp).
  destruct (fold_min_int f l (ofZ (f p)) (f p) Hp) as (z & Hz & Hin & Hle & Hall).
  { intros q Hq. apply Hb. now right. }
  exists z. split; [now apply intRepr_ofZ|]. split.
  - destruct Hin as [->|(q & Hq & E)].
    + exists p. split; [left|reflexivity].
    + exists q. split; [now right|exact E].
  - intros q Hq. apply elem_of_cons in Hq as [->|Hq]; auto.
Qed.

Lemma blob_max (f : Point -> Z) blob :
  blob <> [] -> (forall q, q ∈ blob -> Z.abs (f q) < 2 ^ 53) ->
  exists z,
    fold_left (fun m p => Math_max m (ofZ (f p))) blob neg_infinity = ofZ z /\
    (exists q, q ∈ blob /\ f q = z) /\ forall q, q ∈ blob -> f q <= z.
Proof.
  intros Hne Hb. destruct blob as [|p l]; [congruence|]. cbn [fold_left].
  assert (Hp : intRepr (Prim2SF (ofZ (f p))) (f p))
    by (apply ofZ_repr, Hb; left).
  rewrite (Math_max_ninf _ _ Hp).
  destruct (fold_max_int f l (ofZ (f p)) (f p) Hp) as (z & Hz & Hin & Hle & Hall).
  { intros q Hq. apply Hb. now right. }
  exists z. split; [now apply intRepr_ofZ|]. split.
  - destruct Hin as [->|(q & Hq & E)].
    + exists p. split; [left|reflexivity].
    + exists q. split; [now right|exact E].
  - intros q Hq. apply elem_of_cons in Hq as [->|Hq]; auto.
Qed.

(** [hi - lo + 1] in binary64 is the integer it denotes. *)
Lemma extent_int lo hi :
  Z.abs lo < 2 ^ 52 -> Z.abs hi < 2 ^ 52 -> lo <= hi ->
  (ofZ hi - ofZ lo + 1)%float = ofZ (hi - lo + 1).
Proof.
  intros Hlo Hhi Hle.
  change (2 ^ 52) with 4503599627370496 in *.
  assert (H53 : 2 ^ 53 = 9007199254740992) by reflexivity.
  apply intRepr_ofZ, add_int; [apply sub_int| |]; try apply ofZ_repr;
    try apply one_int; rewrite ?H53; lia.
Qed.

Lemma boundingBox_exact blob :
  blob <> [] ->
  (forall p, p ∈ blob -> Z.abs (px p) < 2 ^ 52 /\ Z.abs (py p) < 2 ^ 52) ->
  exists minX maxX minY maxY,
    isBounds blob minX maxX minY maxY /\
    calculateBoundingBox blob
    = mkBox (ofZ minX) (ofZ minY)
            (ofZ (maxX - minX + 1)) (ofZ (maxY - minY + 1)).
Proof.
  intros Hne Hb.
  assert (H52 : 2 ^ 52 < 2 ^ 53) by reflexivity.
  assert (Hbx : forall q, q ∈ blob -> Z.abs (px q) < 2 ^ 53)
    by (intros q Hq; destruct (Hb q Hq); lia).
  assert (Hby : forall q, q ∈ blob -> Z.abs (py q) < 2 ^ 53)
    by (intros q Hq; destruct (Hb q Hq); lia).
  destruct (blob_min px blob Hne Hbx) as (minX & E1 & (p1 & Hp1 & Ep1) & Hmin1).
  destruct (blob_min py blob Hne Hby) as (minY & E2 & (p2 & Hp2 & Ep2) & Hmin2).
  destruct (blob_max px blob Hne Hbx) as (maxX & E3 & (p3 & Hp3 & Ep3) & Hmax3).
  destruct (blob_max py blob Hne Hby) as (maxY & E4 & (p4 & Hp4 & Ep4) & Hmax4).
  exists minX, maxX, minY, maxY. split.
  - unfold isBounds. repeat split; eauto.
  - unfold calculateBoundingBox. rewrite E1, E2, E3, E4.
    pose proof (Hb p1 Hp1) as [? _]. pose proof (Hb p3 Hp3) as [? _].
    pose proof (Hb p2 Hp2) as [_ ?]. pose proof (Hb p4 Hp4) as [_ ?].
    pose proof (Hmin1 p3 Hp3). pose proof (Hmin2 p4 Hp4).
    rewrite !extent_int by lia. reflexivity.
Qed.

End BoxFacts.

(** * Bounding boxes in the pipeline *)

Section BoxPipeline.
Import Exact BoxFacts.

Lemma NoDup_concat_elem {A} (l : list (list A)) b :
  NoDup (concat l) -> b ∈ l -> NoDup b.
Proof.
  induction l as [|c l IH]; intros Hnd Hb; [inversion Hb|].
  simpl in Hnd. apply NoDup_app in Hnd as (Hc & _ & Hl).
  apply elem_of_cons in Hb as [->|Hb]; auto.
Qed.

(** A blob without repetition inside a box has at most as many points
    as the box has pixels. *)
Lemma box_count blob x y bw bh :
  NoDup blob -> 0 <= bw -> 0 <= bh ->
  (forall p, p ∈ blob -> x <= px p < x + bw /\ y <= py p < y + bh) ->
  Z.of_nat (length blob) <= bw * bh.
Proof.
  intros Hnd Hbw Hbh Hin.
  set (shift := fun p : Point => mkPoint (px p - x) (py p - y)).
  assert (H : (length (shift <$> blob) <= Z.to_nat bw * Z.to_nat bh)%nat).
  { apply (nodup_bound (replicate (Z.to_nat bh) []) (Z.to_nat bw) (Z.to_nat bh)).
    - rewrite length_replicate. lia.
    - apply NoDup_fmap_2; [|exact Hnd].
      intros [x1 y1] [x2 y2] E. unfold shift in E. simpl in E.
      inversion E. f_equal; lia.
    - intros p Hp. apply list_elem_of_fmap in Hp as (q & -> & Hq).
      destruct (Hin q Hq). unfold inImage, shift. simpl. lia. }
  rewrite length_fmap in H. nia.
Qed.

Lemma Forall2_elem_l {A B} (R : A -> B -> Prop) l k a :
  Forall2 R l k -> a ∈ l -> exists b, b ∈ k /\ R a b.
Proof.
  induction 1 as [|x y l k Hxy _ IH]; intros Ha; [inversion Ha|].
  apply elem_of_cons in Ha as [->|Ha].
  - exists y. split; [left|exact Hxy].
  - destruct (IH Ha) as (b & Hb & HR). exists b. split; [now right|exact HR].
Qed.

(** Every shape of a result has a blob of component extraction. *)
Lemma shape_has_blob fuel t0 t1 img r s :
  detectShapes fuel t0 t1 img = Ok r -> s ∈ shapes r ->
  exists blobs blob,
    findContours (otsuBinarize (toGrayscale img) (width img) (height img))
                 (width img) (height img) fuel = Ok blobs /\
    blob ∈ blobs /\ shapeOfBlob s blob.
Proof.
  unfold detectShapes. intros H Hs.
  destruct (findContours _ _ _ fuel) as [blobs| |];
    cbn [mbind outcome_bind] in H; try discriminate.
  destruct (processBlobs fuel _ _ blobs []) as [ss| |] eqn:E;
    cbn [mbind outcome_bind] in H; try discriminate.
  inversion H; subst. cbn [shapes] in Hs.
  apply (processBlobs_sub fuel _ _ shapeOfBlob) in E
    as (new & kept & -> & Hsub & HF); [|apply processBlob_shape].
  cbn [app] in Hs.
  destruct (Forall2_elem_l _ _ _ _ HF Hs) as (blob & Hb & HR).
  exists blobs, blob. split; [reflexivity|]. split; [|exact HR].
  eapply elem_of_sublist; eauto.
Qed.

Lemma shape_box fuel t0 t1 img r s :
  Z.of_nat (width img) < 2 ^ 52 -> Z.of_nat (height img) < 2 ^ 52 ->
  detectShapes fuel t0 t1 img = Ok r -> s ∈ shapes r ->
  exists x y bw bh,
    boundingBox s = mkBox (ofZ x) (ofZ y) (ofZ bw) (ofZ bh) /\
    0 <= x /\ 0 <= y /\ 1 <= bw /\ 1 <= bh /\
    x + bw <= Z.of_nat (width img) /\ y + bh <= Z.of_nat (height img) /\
    Z.of_nat (area s) <= bw * bh.
Proof.
  intros Hw Hh H Hs.
  destruct (shape_has_blob _ _ _ _ _ _ H Hs) as (blobs & blob & Ec & Hb & HR).
  destruct HR as (Harea & Hlen & _ & Hbox).
  apply blobs_fit in Ec as (Hnd & Hfg & _).
  assert (Himg : forall p, p ∈ blob -> inImage (width img) (height img) p).
  { intros p Hp. apply Hfg. apply list_elem_of_In, in_concat.
    exists blob. split; apply list_elem_of_In; assumption. }
  destruct (boundingBox_exact blob)
    as (minX & maxX & minY & maxY & Hbnd & Ebox).
  { intros ->. simpl in Hlen. lia. }
  { intros p Hp. destruct (Himg p Hp). lia. }
  destruct Hbnd as ((p1 & Hp1 & E1) & (p2 & Hp2 & E2) & (p3 & Hp3 & E3)
                    & (p4 & Hp4 & E4) & Hall).
  destruct (Himg p1 Hp1), (Himg p2 Hp2), (Himg p3 Hp3), (Himg p4 Hp4).
  destruct (Hall p2 Hp2), (Hall p4 Hp4).
  exists minX, minY, (maxX - minX + 1), (maxY - minY + 1).
  rewrite Hbox, Ebox. split; [reflexivity|].
  repeat (split; [lia|]).
  rewrite Harea. apply (box_count blob minX minY); try lia.
  - eapply NoDup_concat_elem; eauto.
  - intros p Hp. destruct (Hall p Hp). lia.
Qed.

End BoxPipeline.

(** * [dist] is symmetric and [isSquare] ignores the order of the sides *)

Module SquareFacts.
Import FOrder FOrderFacts.

(** *** The square of a difference *)

Lemma round_aux_opp mx ex lx :
  binary_round_aux prec emax true mx ex lx
  = SFopp (binary_round_aux prec emax false mx ex lx).
Proof.
  unfold binary_round_aux.
  destruct (shr_fexp prec emax mx ex lx) as [mrs' e'].
  destruct (shr_fexp prec emax _ e' loc_Exact) as [mrs'' e''].
  destruct (shr_m mrs''); try reflexivity.
  destruct (e'' <=? emax - prec); reflexivity.
Qed.

Lemma round_opp p e :
  binary_round prec emax true p e = SFopp (binary_round prec emax false p e).
Proof.
  unfold binary_round. destruct (shl_align p e _) as [mz ez].
  apply round_aux_opp.
Qed.

Lemma normalize_opp D e :
  SFmul prec emax (binary_normalize prec emax (- D) e false)
                  (binary_normalize prec emax (- D) e false)
  = SFmul prec emax (binary_normalize prec emax D e false)
                    (binary_normalize prec emax D e false).
Proof.
  destruct D as [|p|p];
    [reflexivity
    |change (- Z.pos p) with (Z.neg p)
    |change (- Z.neg p) with (Z.pos p)];
    cbn [binary_normalize];
    rewrite round_opp;
    destruct (binary_round prec emax false p e) as [[]|[]| |[] m e'];
    reflexivity.
Qed.

Lemma SFsub_square x y :
  SFmul prec emax (SFsub prec emax x y) (SFsub prec emax x y)
  = SFmul prec emax (SFsub prec emax y x) (SFsub prec emax y x).
Proof.
  destruct x as [[]|[]| |sx mx ex], y as [[]|[]| |sy my ey];
    try reflexivity; try (destruct sx; reflexivity);
    try (destruct sy; reflexivity).
  cbn [SFsub]. rewrite (Z.min_comm ey ex).
  rewrite <- normalize_opp. f_equal; f_equal; lia.
Qed.

Lemma sub_square x y : ((x - y) * (x - y) = (y - x) * (y - x))%float.
Proof.
  rewrite <- (SF2Prim_Prim2SF ((x - y) * (x - y))),
          <- (SF2Prim_Prim2SF ((y - x) * (y - x))).
  f_equal. rewrite !mul_spec, !sub_spec. apply SFsub_square.
Qed.

Lemma dist_sym p q : dist p q = dist q p.
Proof.
  unfold dist.
  now rewrite (sub_square (ofZ (px p))), (sub_square (ofZ (py p))).
Qed.

(** *** The order on values with a clear sign *)

Lemma is_nan_ordered x : is_nan x = false <-> ordered x.
Proof.
  unfold is_nan, ordered. rewrite FloatAxioms.eqb_spec. unfold SFeqb.
  rewrite SFcompare_rank.
  destruct (rank (Prim2SF x)) as [a|] eqn:E.
  - assert (El : lex3 a a = Eq) by (unfold lex3; now rewrite !Z.compare_refl).
    rewrite El. split; [eauto|reflexivity].
  - split; [discriminate|]. intros [a Ha]. discriminate.
Qed.

Lemma rank_inj f g a :
  signClear f -> signClear g -> rank f = Some a -> rank g = Some a -> f = g.
Proof.
  destruct f as [s|s| |s m e], g as [s'|s'| |s' m' e']; cbn [signClear];
    intros Hf Hg H1 H2; subst; simpl in H1, H2; try discriminate;
    inversion H1; subst; inversion H2; subst; reflexivity.
Qed.

Lemma sc_eq a b :
  signClear (Prim2SF a) -> signClear (Prim2SF b) ->
  ordered a -> ordered b ->
  (a <? b)%float = false -> (b <? a)%float = false -> a = b.
Proof.
  intros Ha Hb [ra Hra] [rb Hrb] H1 H2.
  assert (E : ra = rb).
  { destruct (decide (lexlt ra rb)) as [Hl|Hl].
    - assert ((a <? b)%float = true) by (apply ltb_rank; eauto 6). congruence.
    - destruct (decide (lexlt rb ra)) as [Hl'|Hl'].
      + assert ((b <? a)%float = true) by (apply ltb_rank; eauto 6).
        congruence.
      + destruct ra as [[a1 a2] a3], rb as [[b1 b2] b3].
        unfold lexlt in *. simpl in *.
        assert (a1 = b1 /\ a2 = b2 /\ a3 = b3) as (-> & -> & ->) by lia.
        reflexivity. }
  subst rb. rewrite <- (SF2Prim_Prim2SF a), <- (SF2Prim_Prim2SF b).
  f_equal. eapply rank_inj; eauto.
Qed.

Lemma ltb_iff a b ra rb :
  rank (Prim2SF a) = Some ra -> rank (Prim2SF b) = Some rb ->
  ((a <? b)%float = true <-> lexlt ra rb).
Proof.
  intros Ha Hb. rewrite ltb_rank. split.
  - intros (ra' & rb' & Ha' & Hb' & H). congruence.
  - intros H. eauto 6.
Qed.

Lemma ltb_iff_false a b ra rb :
  rank (Prim2SF a) = Some ra -> rank (Prim2SF b) = Some rb ->
  ((a <? b)%float = false <-> ~ lexlt ra rb).
Proof.
  intros Ha Hb. rewrite <- (ltb_iff a b ra rb Ha Hb).
  destruct (a <? b)%float; split; congruence || auto.
Qed.

Lemma rank_eq_val a b ra rb :
  signClear (Prim2SF a) -> signClear (Prim2SF b) ->
  rank (Prim2SF a) = Some ra -> rank (Prim2SF b) = Some rb ->
  ~ lexlt ra rb -> ~ lexlt rb ra -> a = b.
Proof.
  intros Ha Hb Hra Hrb H1 H2. apply sc_eq; auto.
  - unfold ordered. rewrite Hra. eauto.
  - unfold ordered. rewrite Hrb. eauto.
  - now apply (ltb_iff_false a b ra rb).
  - now apply (ltb_iff_false b a rb ra).
Qed.

(** *** [Math.min] and [Math.max] on such values *)

Local Abbreviation sc x := (signClear (Prim2SF x)).

Lemma Math_min_sc a b :
  sc a -> sc b ->
  Math_min a b = if is_nan a || is_nan b then nan
                 else if (a <? b)%float then a else b.
Proof.
  intros Ha Hb. unfold Math_min.
  destruct (is_nan a || is_nan b) eqn:En; [reflexivity|].
  apply orb_false_iff in En as [Ea Eb]. apply is_nan_ordered in Ea, Eb.
  destruct (a <? b)%float eqn:E1; [reflexivity|].
  destruct (b <? a)%float eqn:E2; [reflexivity|].
  assert (a = b) by (apply sc_eq; auto). subst b.
  now destruct (get_sign a).
Qed.

Lemma Math_max_sc a b :
  sc a -> sc b ->
  Math_max a b = if is_nan a || is_nan b then nan
                 else if (a <? b)%float then b else a.
Proof.
  intros Ha Hb. unfold Math_max.
  destruct (is_nan a || is_nan b) eqn:En; [reflexivity|].
  apply orb_false_iff in En as [Ea Eb]. apply is_nan_ordered in Ea, Eb.
  destruct (a <? b)%float eqn:E1; [reflexivity|].
  destruct (b <? a)%float eqn:E2; [reflexivity|].
  assert (a = b) by (apply sc_eq; auto). subst b.
  now destruct (get_sign a).
Qed.

Lemma Math_min_closed a b : sc a -> sc b -> sc (Math_min a b).
Proof.
  intros Ha Hb. rewrite Math_min_sc by assumption.
  destruct (_ || _); [exact I|]. now destruct (a <? b)%float.
Qed.

Lemma Math_max_closed a b : sc a -> sc b -> sc (Math_max a b).
Proof.
  intros Ha Hb. rewrite Math_max_sc by assumption.
  destruct (_ || _); [exact I|]. now destruct (a <? b)%float.
Qed.

Lemma Math_min_nan_l b : Math_min nan b = nan.
Proof. reflexivity. Qed.

Lemma Math_max_nan_l b : Math_max nan b = nan.
Proof. reflexivity. Qed.

Lemma min_swap acc x y :
  sc acc -> sc x -> sc y ->
  Math_min (Math_min acc x) y = Math_min (Math_min acc y) x.
Proof.
  intros Hacc Hx Hy.
  rewrite (Math_min_sc acc x), (Math_min_sc acc y) by assumption.
  destruct (is_nan acc) eqn:Ea; [reflexivity|].
  destruct (is_nan x) eqn:Ex, (is_nan y) eqn:Ey; cbn [orb].
  - reflexivity.
  - rewrite Math_min_nan_l. unfold Math_min.
    rewrite Ex, orb_true_r. reflexivity.
  - rewrite Math_min_nan_l. unfold Math_min.
    rewrite Ey, orb_true_r. reflexivity.
  - apply is_nan_ordered in Ea as [ra Hra], Ex as [rx Hrx], Ey as [ry Hry].
    destruct (acc <? x)%float eqn:E1, (acc <? y)%float eqn:E2;
      rewrite !Math_min_sc by assumption;
      rewrite ?(proj2 (is_nan_ordered acc)), ?(proj2 (is_nan_ordered x)),
        ?(proj2 (is_nan_ordered y))
        by (unfold ordered; rewrite ?Hra, ?Hrx, ?Hry; eauto);
      cbn [orb]; rewrite ?E1, ?E2;
      destruct (x <? y)%float eqn:E3, (y <? x)%float eqn:E4;
      try reflexivity;
      repeat match goal with
             | H : (?a <? ?b)%float = true,
               Ha : rank (Prim2SF ?a) = Some ?ra,
               Hb : rank (Prim2SF ?b) = Some ?rb |- _ =>
                 apply (ltb_iff a b ra rb Ha Hb) in H
             | H : (?a <? ?b)%float = false,
               Ha : rank (Prim2SF ?a) = Some ?ra,
               Hb : rank (Prim2SF ?b) = Some ?rb |- _ =>
                 apply (ltb_iff_false a b ra rb Ha Hb) in H
             end;
      first [exfalso; unfold lexlt in *; lia
            |match goal with
             | |- ?a = ?b =>
                 eapply (rank_eq_val a b);
                 [assumption|assumption|eassumption|eassumption
                 |unfold lexlt in *; lia|unfold lexlt in *; lia]
             end].
Qed.

Lemma max_swap acc x y :
  sc acc -> sc x -> sc y ->
  Math_max (Math_max acc x) y = Math_max (Math_max acc y) x.
Proof.
  intros Hacc Hx Hy.
  rewrite (Math_max_sc acc x), (Math_max_sc acc y) by assumption.
  destruct (is_nan acc) eqn:Ea; [reflexivity|].
  destruct (is_nan x) eqn:Ex, (is_nan y) eqn:Ey; cbn [orb].
  - reflexivity.
  - rewrite Math_max_nan_l. unfold Math_max.
    rewrite Ex, orb_true_r. reflexivity.
  - rewrite Math_max_nan_l. unfold Math_max.
    rewrite Ey, orb_true_r. reflexivity.
  - apply is_nan_ordered in Ea as [ra Hra], Ex as [rx Hrx], Ey as [ry Hry].
    destruct (acc <? x)%float eqn:E1, (acc <? y)%float eqn:E2;
      rewrite !Math_max_sc by assumption;
      rewrite ?(proj2 (is_nan_ordered acc)), ?(proj2 (is_nan_ordered x)),
        ?(proj2 (is_nan_ordered y))
        by (unfold ordered; rewrite ?Hra, ?Hrx, ?Hry; eauto);
      cbn [orb]; rewrite ?E1, ?E2;
      destruct (x <? y)%float eqn:E3, (y <? x)%float eqn:E4;
      try reflexivity;
      repeat match goal with
             | H : (?a <? ?b)%float = true,
               Ha : rank (Prim2SF ?a) = Some ?ra,
               Hb : rank (Prim2SF ?b) = Some ?rb |- _ =>
                 apply (ltb_iff a b ra rb Ha Hb) in H
             | H : (?a <? ?b)%float = false,
               Ha : rank (Prim2SF ?a) = Some ?ra,
               Hb : rank (Prim2SF ?b) = Some ?rb |- _ =>
                 apply (ltb_iff_false a b ra rb Ha Hb) in H
             end;
      first [exfalso; unfold lexlt in *; lia
            |match goal with
             | |- ?a = ?b =>
                 eapply (rank_eq_val a b);
                 [assumption|assumption|eassumption|eassumption
                 |unfold lexlt in *; lia|unfold lexlt in *; lia]
             end].
Qed.

(** *** The folds do not depend on the order of the list *)

Lemma fold_min_perm l l' :
  l ≡ₚ l' -> forall acc, sc acc -> Forall (fun x => sc x) l ->
  fold_left Math_min l acc = fold_left Math_min l' acc.
Proof.
  induction 1 as [|x l l' _ IH|x y l|l l' l'' H1 IH1 H2 IH2];
    intros acc Hacc Hall; cbn [fold_left].
  - reflexivity.
  - apply Forall_cons in Hall as [Hx Hall].
    apply IH; [now apply Math_min_closed|exact Hall].
  - apply Forall_cons in Hall as [Hx Hall].
    apply Forall_cons in Hall as [Hy Hall].
    now rewrite min_swap.
  - rewrite IH1 by assumption. apply IH2; [exact Hacc|].
    now rewrite <- H1.
Qed.

Lemma fold_max_perm l l' :
  l ≡ₚ l' -> forall acc, sc acc -> Forall (fun x => sc x) l ->
  fold_left Math_max l acc = fold_left Math_max l' acc.
Proof.
  induction 1 as [|x l l' _ IH|x y l|l l' l'' H1 IH1 H2 IH2];
    intros acc Hacc Hall; cbn [fold_left].
  - reflexivity.
  - apply Forall_cons in Hall as [Hx Hall].
    apply IH; [now apply Math_max_closed|exact Hall].
  - apply Forall_cons in Hall as [Hx Hall].
    apply Forall_cons in Hall as [Hy Hall].
    now rewrite max_swap.
  - rewrite IH1 by assumption. apply IH2; [exact Hacc|].
    now rewrite <- H1.
Qed.

(** The start value of the maximum, [-Infinity], is below every value
    with a clear sign, and so is [+0]: the first element replaces
    either. *)
Lemma sc_nan d : is_nan d = true -> d = nan.
Proof.
  intros Hn.
  assert (Hno : ~ ordered d).
  { intros Ho. apply is_nan_ordered in Ho. congruence. }
  rewrite <- (SF2Prim_Prim2SF d).
  unfold ordered in Hno.
  destruct (Prim2SF d) as [[|]|[|]| |[|] m e];
    try (exfalso; apply Hno; simpl; eauto; fail).
  change S754_nan with (Prim2SF nan). apply SF2Prim_Prim2SF.
Qed.

Lemma Math_max_ninf_sc d : sc d -> Math_max neg_infinity d = d.
Proof.
  intros Hd. unfold Math_max.
  change (is_nan neg_infinity) with false. cbn [orb].
  destruct (is_nan d) eqn:En; [symmetry; now apply sc_nan|].
  assert (E : (neg_infinity <? d)%float = true).
  { apply is_nan_ordered in En as [r Hr]. rewrite ltb_spec.
    change (Prim2SF neg_infinity) with (S754_infinity true).
    destruct (Prim2SF d) as [s|s| |s m e]; cbn [signClear] in Hd;
      subst; try reflexivity; discriminate. }
  now rewrite E.
Qed.

Lemma Math_max_zero_sc d : sc d -> Math_max zero d = d.
Proof.
  intros Hd.
  assert (Hz : sc zero) by reflexivity.
  rewrite (Math_max_sc zero d Hz Hd).
  change (is_nan zero) with false. cbn [orb].
  destruct (is_nan d) eqn:En; [symmetry; now apply sc_nan|].
  destruct (zero <? d)%float eqn:E; [reflexivity|].
  apply sc_eq; auto.
  - apply is_nan_ordered. reflexivity.
  - now apply is_nan_ordered.
  - apply is_nan_ordered in En as [r Hr]. rewrite ltb_spec.
    change (Prim2SF zero) with (S754_zero false).
    destruct (Prim2SF d) as [s|s| |s m e]; cbn [signClear] in Hd;
      subst; try reflexivity; discriminate.
Qed.

Lemma fold_max_ninf l :
  Forall (fun x => sc x) l -> l <> [] ->
  fold_left Math_max l neg_infinity = fold_left Math_max l zero.
Proof.
  intros Hall Hne. destruct l as [|d k]; [congruence|].
  apply Forall_cons in Hall as [Hd _]. cbn [fold_left].
  now rewrite Math_max_ninf_sc, Math_max_zero_sc.
Qed.

Lemma fold_max_perm_ninf l l' :
  l ≡ₚ l' -> Forall (fun x => sc x) l ->
  fold_left Math_max l neg_infinity = fold_left Math_max l' neg_infinity.
Proof.
  intros Hp Hall.
  assert (Hall' : Forall (fun x => sc x) l') by now rewrite <- Hp.
  destruct l as [|d k].
  - apply Permutation_nil in Hp. now subst.
  - assert (Hne : l' <> []).
    { intros ->. symmetry in Hp. now apply Permutation_nil_cons in Hp. }
    rewrite !fold_max_ninf by (assumption || discriminate).
    apply fold_max_perm; [exact Hp|reflexivity|exact Hall].
Qed.

(** The verdict of [isSquare], read off the list of the four sides. *)
Lemma isSquare_sides v0 v1 v2 v3 :
  isSquare [v0; v1; v2; v3] =
  lt (fold_left Math_max [dist v0 v1; dist v1 v2; dist v2 v3; dist v3 v0]
                neg_infinity
      / fold_left Math_min [dist v0 v1; dist v1 v2; dist v2 v3; dist v3 v0]
                  infinity)%float Lit.c1_2.
Proof. reflexivity. Qed.

Lemma sides_sc (ds : list number) :
  (forall d, d ∈ ds -> exists p q, d = dist p q) ->
  Forall (fun x => sc x) ds.
Proof.
  intros H. apply Forall_forall. intros d Hd.
  destruct (H d Hd) as (p & q & ->). apply dist_signClear.
Qed.

Lemma isSquare_perm v0 v1 v2 v3 w0 w1 w2 w3 :
  [dist v0 v1; dist v1 v2; dist v2 v3; dist v3 v0]
  ≡ₚ [dist w0 w1; dist w1 w2; dist w2 w3; dist w3 w0] ->
  isSquare [v0; v1; v2; v3] = isSquare [w0; w1; w2; w3].
Proof.
  intros Hp. rewrite !isSquare_sides.
  assert (Hsc : Forall (fun x => sc x)
                  [dist v0 v1; dist v1 v2; dist v2 v3; dist v3 v0]).
  { repeat constructor; apply dist_signClear. }
  rewrite (fold_min_perm _ _ Hp infinity), (fold_max_perm_ninf _ _ Hp);
    auto; reflexivity.
Qed.

Lemma isSquare_rotate v0 v1 v2 v3 :
  isSquare [v0; v1; v2; v3] = isSquare [v1; v2; v3; v0].
Proof.
  apply isSquare_perm.
  change [dist v0 v1; dist v1 v2; dist v2 v3; dist v3 v0]
    with ([dist v0 v1] ++ [dist v1 v2; dist v2 v3; dist v3 v0]).
  change [dist v1 v2; dist v2 v3; dist v3 v0; dist v0 v1]
    with ([dist v1 v2; dist v2 v3; dist v3 v0] ++ [dist v0 v1]).
  apply Permutation_app_comm.
Qed.

Lemma isSquare_reverse v0 v1 v2 v3 :
  isSquare [v0; v1; v2; v3] = isSquare [v3; v2; v1; v0].
Proof.
  apply isSquare_perm.
  rewrite (dist_sym v3 v2), (dist_sym v2 v1), (dist_sym v1 v0),
    (dist_sym v0 v3).
  change [dist v0 v1; dist v1 v2; dist v2 v3; dist v3 v0]
    with ([dist v0 v1; dist v1 v2; dist v2 v3] ++ [dist v3 v0]).
  change [dist v2 v3; dist v1 v2; dist v0 v1; dist v3 v0]
    with (reverse [dist v0 v1; dist v1 v2; dist v2 v3] ++ [dist v3 v0]).
  now rewrite reverse_Permutation.
Qed.

End SquareFacts.

(** * The point-to-line distance on integer points *)

Module CrossFacts.
Import Exact FOrder FOrderFacts RDP RDPFacts.

(** *** Values up to the sign of zero *)

Lemma intVal_repr f z : intRepr f z -> intVal f z.
Proof. destruct f; cbn [intVal intRepr]; tauto. Qed.

Lemma intVal_finite s m e z :
  intVal (S754_finite s m e) z -> intRepr (S754_finite s m e) z.
Proof. trivial. Qed.

Lemma intVal_nonzero f z : intVal f z -> z <> 0 -> intRepr f z.
Proof. destruct f; cbn [intVal intRepr]; tauto. Qed.

Lemma intVal_bound f z : intVal f z -> Z.abs z < 2 ^ 53.
Proof.
  destruct f as [s|s| |s m e]; cbn [intVal]; try apply intRepr_bound.
  intros ->. reflexivity.
Qed.

Lemma intVal_mul f g a b :
  intVal f a -> intVal g b -> Z.abs (a * b) < 2 ^ 53 ->
  intVal (SFmul prec emax f g) (a * b).
Proof.
  intros Hf Hg Hab.
  destruct f as [s|s| |s m e], g as [s'|s'| |s' m' e'];
    try (cbn [intVal intRepr] in Hf, Hg; tauto).
  - cbn [intVal] in *. subst. reflexivity.
  - cbn [intVal] in Hf. subst. reflexivity.
  - cbn [intVal] in Hg. subst. cbn. lia.
  - apply intVal_finite in Hf, Hg.
    pose proof (intRepr_nonzero _ _ _ _ Hf) as Ha.
    pose proof (intRepr_nonzero _ _ _ _ Hg) as Hb.
    destruct Hf as (Hd & He & Em & ->), Hg as (Hd' & He' & Em' & ->).
    cbn [SFmul].
    destruct (Z.abs (a * b)) as [|q0|q0] eqn:Eq0; [lia| |lia].
    pose proof (proj1 (digits_le_53 q0) ltac:(lia)) as Hq0.
    set (d := Z.pos (digits2_pos q0)) in *.
    assert (Hd1 : 1 <= d) by (unfold d; lia).
    set (t := d - 53).
    assert (Hm : exists q, Z.pos q = Z.pos q0 * 2 ^ (- t)).
    { exists (Z.to_pos (Z.pos q0 * 2 ^ (- t))).
      rewrite Z2Pos.id; [reflexivity|].
      apply Z.mul_pos_pos; [lia|]. apply Z.pow_pos_nonneg; unfold t; lia. }
    destruct Hm as [q Eq].
    assert (Hdq : Z.pos (digits2_pos q) = 53).
    { rewrite (digits_mul_pow2 q q0 (- t));
        [fold d; unfold t; lia|unfold t; lia|exact Eq]. }
    assert (Ep : Z.pos (m * m') = Z.pos q0 * 2 ^ (- (e + e'))).
    { rewrite Pos2Z.inj_mul, Em, Em', <- Eq0, Z.abs_mul.
      replace (- (e + e')) with (- e + - e') by lia.
      rewrite Z.pow_add_r by lia. ring. }
    assert (Hdp : Z.pos (digits2_pos (m * m')) = d - (e + e')).
    { rewrite (digits_mul_pow2 (m * m') q0 (- (e + e')));
        [fold d; lia|lia|exact Ep]. }
    assert (Hte : e + e' <= t).
    { pose proof (digits_bounds m) as Bm. rewrite Hd in Bm.
      pose proof (digits_bounds m') as Bm'. rewrite Hd' in Bm'.
      pose proof (digits_bounds (m * m')) as Bp. rewrite Hdp in Bp.
      change (53 - 1) with 52 in *.
      assert (H104 : 2 ^ 104 <= Z.pos (m * m')).
      { rewrite Pos2Z.inj_mul. change (2 ^ 104) with (2 ^ 52 * 2 ^ 52).
        apply Z.mul_le_mono_nonneg; lia. }
      assert (Hlt : 2 ^ 104 < 2 ^ (d - (e + e'))) by lia.
      apply Z.pow_lt_mono_r_iff in Hlt; unfold t; lia. }
    rewrite (aux_exact (xorb (a <? 0) (b <? 0)) (m * m') (e + e') q t).
    + cbn [intVal intRepr]. split; [exact Hdq|].
      split; [unfold t; lia|]. split.
      * rewrite Eq0. exact Eq.
      * destruct (Z.ltb_spec a 0), (Z.ltb_spec b 0), (Z.ltb_spec (a * b) 0);
          simpl; reflexivity || nia.
    + rewrite Ep, Eq, <- Z.mul_assoc, <- Z.pow_add_r by (unfold t; lia).
      f_equal. f_equal. lia.
    + exact Hte.
    + exact Hdq.
    + unfold t. lia.
Qed.

Lemma intVal_add f g a b :
  intVal f a -> intVal g b -> Z.abs (a + b) < 2 ^ 53 ->
  intVal (SFadd prec emax f g) (a + b).
Proof.
  intros Hf Hg Hab.
  destruct f as [s|s| |s m e], g as [s'|s'| |s' m' e'];
    try (cbn [intVal intRepr] in Hf, Hg; tauto).
  - cbn [intVal] in Hf, Hg. subst. destruct s, s'; reflexivity.
  - cbn [intVal] in Hf. subst. exact Hg.
  - cbn [intVal] in Hg. subst. rewrite Z.add_0_r. exact Hf.
  - apply intVal_repr. now apply intRepr_add.
Qed.

Lemma intVal_sub f g a b :
  intVal f a -> intVal g b -> Z.abs (a - b) < 2 ^ 53 ->
  intVal (SFsub prec emax f g) (a - b).
Proof.
  intros Hf Hg Hab.
  destruct f as [s|s| |s m e], g as [s'|s'| |s' m' e'];
    try (cbn [intVal intRepr] in Hf, Hg; tauto).
  - cbn [intVal] in Hf, Hg. subst. destruct s, s'; reflexivity.
  - cbn [intVal] in Hf. subst. cbn [SFsub intVal]. rewrite Z.sub_0_l.
    now apply intRepr_opp.
  - cbn [intVal] in Hg. subst. rewrite Z.sub_0_r. exact Hf.
  - apply intVal_repr. now apply intRepr_sub.
Qed.

Lemma intVal_abs f z : intVal f z -> intRepr (SFabs f) (Z.abs z).
Proof.
  destruct f as [s|s| |s m e]; cbn [intVal intRepr SFabs]; try tauto.
  - intros ->. split; reflexivity.
  - intros (Hd & He & Em & Hs). rewrite Z.abs_idemp.
    split; [exact Hd|]. split; [exact He|]. split; [exact Em|].
    symmetry. apply Z.ltb_ge. lia.
Qed.

(** A square is never [-0]. *)
Lemma intRepr_square f a :
  intRepr f a -> Z.abs (a * a) < 2 ^ 53 ->
  intRepr (SFmul prec emax f f) (a * a).
Proof.
  intros Hf Hab.
  pose proof (intVal_mul f f a a (intVal_repr _ _ Hf) (intVal_repr _ _ Hf) Hab)
    as H.
  destruct f as [s|s| |s m e]; try (cbn [intRepr] in Hf; tauto).
  - destruct Hf as [-> ->]. split; reflexivity.
  - apply intVal_nonzero; [exact H|].
    pose proof (intRepr_nonzero _ _ _ _ Hf). nia.
Qed.

(** *** On primitive floats *)

Lemma mul_val x y a b :
  intVal (Prim2SF x) a -> intVal (Prim2SF y) b ->
  Z.abs (a * b) < 2 ^ 53 -> intVal (Prim2SF (x * y)%float) (a * b).
Proof. intros. rewrite mul_spec. now apply intVal_mul. Qed.

Lemma add_val x y a b :
  intVal (Prim2SF x) a -> intVal (Prim2SF y) b ->
  Z.abs (a + b) < 2 ^ 53 -> intVal (Prim2SF (x + y)%float) (a + b).
Proof. intros. rewrite add_spec. now apply intVal_add. Qed.

Lemma sub_val x y a b :
  intVal (Prim2SF x) a -> intVal (Prim2SF y) b ->
  Z.abs (a - b) < 2 ^ 53 -> intVal (Prim2SF (x - y)%float) (a - b).
Proof. intros. rewrite sub_spec. now apply intVal_sub. Qed.

Lemma ofZ_val z : Z.abs z < 2 ^ 53 -> intVal (Prim2SF (ofZ z)) z.
Proof. intros. now apply intVal_repr, ofZ_repr. Qed.

(** *** The numerator and the radicand are exact *)

Lemma numerator_exact p p1 p2 :
  smallPoint p -> smallPoint p1 -> smallPoint p2 ->
  abs ((ofZ (py p2) - ofZ (py p1)) * ofZ (px p)
       - (ofZ (px p2) - ofZ (px p1)) * ofZ (py p)
       + ofZ (px p2) * ofZ (py p1) - ofZ (py p2) * ofZ (px p1))%float
  = ofZ (Z.abs (cross p p1 p2)).
Proof.
  intros [Hx Hy] [Hx1 Hy1] [Hx2 Hy2].
  apply intRepr_ofZ. rewrite abs_spec. apply intVal_abs. unfold cross.
  change (2 ^ 25) with 33554432 in *.
  assert (P : forall u v, Z.abs u < 67108864 -> Z.abs v < 33554432 ->
              Z.abs (u * v) < 2251799813685248).
  { intros u v Hu Hv. rewrite Z.abs_mul.
    change 2251799813685248 with (67108864 * 33554432).
    apply Z.mul_lt_mono_nonneg; lia. }
  pose proof (P (py p2 - py p1) (px p) ltac:(lia) Hx) as B1.
  pose proof (P (px p2 - px p1) (py p) ltac:(lia) Hy) as B2.
  pose proof (P (px p2) (py p1) ltac:(lia) Hy1) as B3.
  pose proof (P (py p2) (px p1) ltac:(lia) Hx1) as B4.
  change (2 ^ 53) with 9007199254740992.
  assert (V : forall z, Z.abs z < 33554432 -> intVal (Prim2SF (ofZ z)) z).
  { intros z Hz. apply ofZ_val. change (2 ^ 53) with 9007199254740992. lia. }
  assert (D : forall u v, Z.abs u < 33554432 -> Z.abs v < 33554432 ->
              intVal (Prim2SF (ofZ u - ofZ v)%float) (u - v)).
  { intros u v Hu Hv. apply sub_val; auto.
    change (2 ^ 53) with 9007199254740992. lia. }
  apply sub_val; [apply add_val; [apply sub_val|..]|..];
    try (apply mul_val; auto);
    change (2 ^ 53) with 9007199254740992; lia.
Qed.

Lemma radicand_exact p1 p2 :
  smallPoint p1 -> smallPoint p2 ->
  ((ofZ (py p2) - ofZ (py p1)) * (ofZ (py p2) - ofZ (py p1))
   + (ofZ (px p2) - ofZ (px p1)) * (ofZ (px p2) - ofZ (px p1)))%float
  = ofZ ((py p2 - py p1) * (py p2 - py p1)
         + (px p2 - px p1) * (px p2 - px p1)).
Proof.
  intros [Hx1 Hy1] [Hx2 Hy2].
  apply intRepr_ofZ.
  change (2 ^ 25) with 33554432 in *.
  assert (P : forall u, Z.abs u < 67108864 ->
              Z.abs (u * u) < 4503599627370496).
  { intros u Hu. rewrite Z.abs_mul.
    change 4503599627370496 with (67108864 * 67108864).
    apply Z.mul_lt_mono_nonneg; lia. }
  pose proof (P (py p2 - py p1) ltac:(lia)) as B1.
  pose proof (P (px p2 - px p1) ltac:(lia)) as B2.
  assert (D : forall u v, Z.abs u < 33554432 -> Z.abs v < 33554432 ->
              intRepr (Prim2SF (ofZ u - ofZ v)%float) (u - v)).
  { intros u v Hu Hv.
    apply sub_int; try apply ofZ_repr;
      change (2 ^ 53) with 9007199254740992; lia. }
  apply add_int.
  - rewrite mul_spec. apply intRepr_square; auto.
    change (2 ^ 53) with 9007199254740992. lia.
  - rewrite mul_spec. apply intRepr_square; auto.
    change (2 ^ 53) with 9007199254740992. lia.
  - change (2 ^ 53) with 9007199254740992. lia.
Qed.

(** Only the square root and the division round. *)
Lemma pointLineDistance_two_roundings p p1 p2 :
  smallPoint p -> smallPoint p1 -> smallPoint p2 ->
  pointLineDistance p p1 p2
  = (ofZ (Z.abs (cross p p1 p2))
     / sqrt (ofZ ((py p2 - py p1) * (py p2 - py p1)
                  + (px p2 - px p1) * (px p2 - px p1))))%float.
Proof.
  intros Hp Hp1 Hp2. unfold pointLineDistance. cbv zeta.
  now rewrite numerator_exact, radicand_exact.
Qed.

(** *** Points on the line *)

Lemma div_zero_l y :
  zeroOrNaN (Prim2SF (ofZ 0 / y)%float).
Proof.
  rewrite div_spec.
  change (Prim2SF (ofZ 0)) with (S754_zero false).
  destruct (Prim2SF y) as [s|s| |s m e]; cbn [SFdiv];
    unfold zeroOrNaN; eauto.
Qed.

Lemma gt_zeroOrNaN d : zeroOrNaN (Prim2SF d) -> gt d 0 = false.
Proof.
  intros H. unfold gt. rewrite ltb_spec.
  change (Prim2SF 0) with (S754_zero false).
  destruct H as [->|[s ->]]; reflexivity.
Qed.

Lemma collinear_not_far p p1 p2 :
  smallPoint p -> smallPoint p1 -> smallPoint p2 ->
  cross p p1 p2 = 0 -> gt (pointLineDistance p p1 p2) 0 = false.
Proof.
  intros Hp Hp1 Hp2 Hc. apply gt_zeroOrNaN.
  rewrite pointLineDistance_two_roundings, Hc by assumption.
  apply div_zero_l.
Qed.

(** *** RDP on a straight run and on a closed polyline *)

Lemma rdp_flat fuel a mid b eps :
  mid <> [] -> gt 0 eps = false ->
  (forall q, q ∈ mid -> gt (pointLineDistance q a b) 0 = false) ->
  rdp (S fuel) (a :: mid ++ [b]) eps = Ok [a; b].
Proof.
  intros Hmid Heps Hall. rewrite rdp_long by assumption.
  rewrite scan_none.
  - now rewrite Heps.
  - intros d Hd. apply list_elem_of_fmap in Hd as (q & -> & Hq).
    now apply Hall.
Qed.

Lemma rdp_flat_list fuel points eps a b :
  (3 <= length points)%nat -> head points = Some a -> last points = Some b ->
  gt 0 eps = false ->
  (forall q, q ∈ points -> gt (pointLineDistance q a b) 0 = false) ->
  rdp (S fuel) points eps = Ok [a; b].
Proof.
  intros Hlen Hh Hl Heps Hall.
  destruct (ends_split points ltac:(lia)) as (a' & mid & b' & ->).
  simpl in Hh. inversion Hh; subst a'.
  rewrite app_comm_cons, last_snoc in Hl. inversion Hl; subst b'.
  apply rdp_flat; auto.
  - intros ->. simpl in Hlen. lia.
  - intros q Hq. apply Hall. right. apply elem_of_app. now left.
Qed.

End CrossFacts.

(** * The claims of the specification *)

Section ClaimLemmas.
Import FOrder FOrderFacts.

Lemma eqb_refl_ordered c : ordered c -> (c =? c)%float = true.
Proof.
  intros [a Ha]. rewrite FloatAxioms.eqb_spec. unfold SFeqb.
  rewrite SFcompare_rank, Ha. unfold lex3. now rewrite !Z.compare_refl.
Qed.

Lemma nan_not_ordered : ~ ordered nan.
Proof. intros [a Ha]. vm_compute in Ha. discriminate. Qed.

Lemma gt_nan_l x : gt nan x = false.
Proof.
  unfold gt. destruct (x <? nan)%float eqn:E; [|reflexivity].
  apply ltb_ordered in E as [_ H]. now apply nan_not_ordered in H.
Qed.

(** [Math.min(c, 1)] stays in [0, 1] once [c] exceeds 0.95. *)
Lemma Math_min_one_range c :
  gt c Lit.c0_95 = true ->
  (0 <=? Math_min c 1)%float = true /\ (Math_min c 1 <=? 1)%float = true.
Proof.
  unfold gt. intros Hc. destruct (ltb_ordered _ _ Hc) as [_ Ho].
  assert (H0 : (0 <=? c)%float = true).
  { apply ltb_leb. eapply ltb_trans; [|exact Hc]. reflexivity. }
  unfold Math_min, is_nan. rewrite (eqb_refl_ordered c Ho).
  change (negb true || negb (1 =? 1)%float) with false. cbv iota.
  destruct (c <? 1)%float eqn:E1; [split; auto using ltb_leb|].
  destruct (1 <? c)%float eqn:E2; [split; reflexivity|].
  destruct (get_sign c); [|split; reflexivity].
  split; [assumption|]. apply not_ltb_leb; auto.
  exists (1, -52, 4503599627370496). reflexivity.
Qed.

Lemma classifyPolygon_labelled vs c ty conf :
  classifyPolygon vs c = Some (ty, conf) ->
  ty ∈ shapeTypes /\ (0 <=? conf)%float = true /\ (conf <=? 1)%float = true.
Proof.
  unfold classifyPolygon, shapeTypes.
  repeat match goal with
         | |- context [if ?b then _ else _] => destruct b
         end;
    intros H; inversion H; subst; (split; [set_solver|split; reflexivity]).
Qed.

Lemma processBlob_labelled fuel w h blob s :
  processBlob fuel w h blob = Ok (Some s) -> wellLabelled s.
Proof.
  unfold processBlob. destruct (length blob <? 100)%nat; [discriminate|].
  destruct (traceContour fuel blob w h) as [per| |];
    cbn [mbind outcome_bind]; try discriminate.
  destruct (lt _ Lit.c0_2); [discriminate|].
  destruct (gt _ Lit.c0_95) eqn:Ec.
  - intros H. inversion H; subst. unfold wellLabelled. cbn [type confidence].
    split; [unfold shapeTypes; set_solver|].
    now apply Math_min_one_range.
  - destruct (rdp fuel per _) as [vs| |]; cbn [mbind outcome_bind];
      try discriminate.
    destruct (classifyPolygon vs _) as [[ty conf]|] eqn:Ecl; [|discriminate].
    intros H. inversion H; subst. unfold wellLabelled. cbn [type confidence].
    eapply classifyPolygon_labelled; eauto.
Qed.

Lemma processBlobs_labelled fuel w h contours : forall acc ss,
  Forall wellLabelled acc ->
  processBlobs fuel w h contours acc = Ok ss -> Forall wellLabelled ss.
Proof.
  induction contours as [|blob rest IH]; intros acc ss Hacc H;
    cbn [processBlobs] in H.
  - inversion H; subst. assumption.
  - destruct (processBlob fuel w h blob) as [[s|]| |] eqn:E;
      cbn [mbind outcome_bind] in H; try discriminate.
    + eapply IH; [|exact H]. apply Forall_app. split; [assumption|].
      apply Forall_singleton. eapply processBlob_labelled; eauto.
    + eapply IH; eauto.
Qed.

Lemma processBlobs_rejected fuel w h contours : forall acc,
  Forall (fun blob => processBlob fuel w h blob = Ok None) contours ->
  processBlobs fuel w h contours acc = Ok acc.
Proof.
  induction contours as [|blob rest IH]; intros acc H; cbn [processBlobs];
    [reflexivity|].
  apply Forall_cons in H as [-> H]. cbn [mbind outcome_bind]. now apply IH.
Qed.

End ClaimLemmas.

Import Examples.

(** ** C1 *)

(** C1, as stated, fails: [detectShapes] has no validation step.  On
    the 2 by 2 image whose buffer holds a single pixel the dimensions do
    not match the buffer length, and yet every stage runs and a normal
    result is returned. *)
Lemma detectShapes_malformed_returns :
  ~ well_formed shortImage /\
  detectShapes 4 0 1 shortImage = Ok (mkResult [] 1 2 2).
Proof.
  split.
  - unfold well_formed. simpl. lia.
  - vm_compute. reflexivity.
Qed.

(** C1 (amended): on an [ImageData] (natural-number dimensions, buffers
    granted) a mismatch between the dimensions and the buffer length is
    not an error: [detectShapes] raises no error, whether or not the
    dimensions match the buffer length; with fuel for one pass over the
    pixels component extraction returns, every blob of fewer than 100
    pixels is rejected, and when every blob is rejected the result is a
    normal [DetectionResult] with an empty shapes list. *)
Theorem detectShapes_no_validation fuel startTime endTime img :
  noThrow (detectShapes fuel startTime endTime img) /\
  ((width img * height img <= fuel)%nat ->
   exists contours,
     findContours (otsuBinarize (toGrayscale img) (width img) (height img))
                  (width img) (height img) fuel = Ok contours /\
     (forall blob, (length blob < 100)%nat ->
        processBlob fuel (width img) (height img) blob = Ok None) /\
     (Forall (fun blob =>
                processBlob fuel (width img) (height img) blob = Ok None)
             contours ->
      detectShapes fuel startTime endTime img
      = Ok (mkResult [] (endTime - startTime)%float (width img) (height img)))).
Proof.
  split; [apply detectShapes_noThrow|]. intros Hfuel.
  destruct (findContours_spec
              (otsuBinarize (toGrayscale img) (width img) (height img))
              (width img) (height img)) with (fuel := fuel)
    as (contours & visited & Hc & _); [|exact Hfuel|].
  { unfold otsuBinarize. rewrite maskOf_length. lia. }
  exists contours. split; [exact Hc|]. split.
  - intros blob Hlen. now apply processBlob_small.
  - intros Hrej. unfold detectShapes. rewrite Hc.
    cbn [mbind outcome_bind]. now rewrite processBlobs_rejected.
Qed.

(** ** C2 *)

(** C2: every shape of a returned [DetectionResult] has one of the six
    labels and a confidence in the closed interval from 0 to 1. *)
Theorem shapes_type_and_confidence fuel startTime endTime img r s :
  detectShapes fuel startTime endTime img = Ok r ->
  s ∈ shapes r ->
  type s ∈ shapeTypes /\
  (0 <=? confidence s)%float = true /\ (confidence s <=? 1)%float = true.
Proof.
  unfold detectShapes. intros H Hs.
  destruct (findContours _ _ _ fuel) as [contours| |];
    cbn [mbind outcome_bind] in H; try discriminate.
  destruct (processBlobs fuel _ _ contours []) as [ss| |] eqn:E;
    cbn [mbind outcome_bind] in H; try discriminate.
  inversion H; subst. cbn [shapes] in Hs.
  apply processBlobs_labelled in E; [|constructor].
  rewrite Forall_forall in E. exact (E s Hs).
Qed.

Lemma shapes_type_and_confidence_witness :
  type squareShape ∈ shapeTypes /\
  (0 <=? confidence squareShape)%float = true /\
  (confidence squareShape <=? 1)%float = true.
Proof.
  apply (shapes_type_and_confidence 200 0 1 squareImage squareResult squareShape).
  - vm_compute. reflexivity.
  - vm_compute. left.
Defined.

(** ** C3 *)

(** C3, as stated, fails: with coincident end points the distance is
    NaN, which is not zero. *)
Lemma pointLineDistance_coincident_not_zero :
  is_nan (pointLineDistance (mkPoint 1 1) (mkPoint 0 0) (mkPoint 0 0)) = true /\
  (pointLineDistance (mkPoint 1 1) (mkPoint 0 0) (mkPoint 0 0) =? 0)%float
  = false.
Proof. split; vm_compute; reflexivity. Qed.

(** C3 (amended): [pointLineDistance] has no guard; for every point and
    every pair of coincident end points it divides zero by zero and
    returns NaN, and the test [d > dmax] of RDP is false for it whatever
    [dmax] is, so that such a point is never taken as the farthest. *)
Theorem pointLineDistance_coincident_nan p p1 :
  pointLineDistance p p1 p1 = nan /\
  forall dmax, gt (pointLineDistance p p1 p1) dmax = false.
Proof.
  rewrite pointLineDistance_coincident. split; [reflexivity|].
  apply gt_nan_l.
Qed.

(** ** C4 *)

(** C4: on a buffer of bytes the sweep evaluates exactly the valid
    candidates (those reached before the foreground weight is zero, with
    a nonzero background weight), in order; no valid candidate has a
    between-class variance [wB * wF * (mB - mF)^2] above the one that is
    kept; and the threshold kept is either the initial 0, when no
    candidate has a variance above 0, or a valid candidate whose
    variance no earlier candidate equals or exceeds.  Weights, means and
    variance are those of [OtsuCriterion], read off the buffer. *)
Theorem otsu_sweep_first_maximum grayData w h :
  isBytes grayData ->
  let N := Z.of_nat w * Z.of_nat h in
  let st := Otsu.runSweep grayData w h in
  Otsu.divisors st =
    map (fun t => (OtsuCriterion.weightB grayData t,
                   OtsuCriterion.weightF N grayData t))
        (filter (fun t => OtsuCriterion.candidate N grayData t = true)
                (seq 0 256)) /\
  (forall t, (t < 256)%nat -> OtsuCriterion.candidate N grayData t = true ->
     gt (OtsuCriterion.betweenClassVariance N grayData t)
        (Otsu.maxVariance st) = false) /\
  ((Otsu.maxVariance st = 0%float /\ Otsu.optimalThreshold st = 0) \/
   exists t, (t < 256)%nat /\ Otsu.optimalThreshold st = Z.of_nat t /\
     OtsuCriterion.candidate N grayData t = true /\
     Otsu.maxVariance st = OtsuCriterion.betweenClassVariance N grayData t /\
     forall i, (i < t)%nat -> OtsuCriterion.candidate N grayData i = true ->
       (OtsuCriterion.betweenClassVariance N grayData t
        <=? OtsuCriterion.betweenClassVariance N grayData i)%float = false).
Proof.
  intros Hb N st.
  destruct (OtsuLevels.runSweep_criterion grayData w h Hb) as (H1 & H2 & H3).
  split; [exact H1|]. split; [exact H2|exact H3].
Qed.

Lemma otsu_sweep_first_maximum_witness :
  Otsu.divisors (Otsu.runSweep twoTone 2 2) =
    map (fun t => (OtsuCriterion.weightB twoTone t,
                   OtsuCriterion.weightF 4 twoTone t))
        (filter (fun t => OtsuCriterion.candidate 4 twoTone t = true)
                (seq 0 256)) /\
  (forall t, (t < 256)%nat -> OtsuCriterion.candidate 4 twoTone t = true ->
     gt (OtsuCriterion.betweenClassVariance 4 twoTone t)
        (Otsu.maxVariance (Otsu.runSweep twoTone 2 2)) = false) /\
  ((Otsu.maxVariance (Otsu.runSweep twoTone 2 2) = 0%float /\
    Otsu.optimalThreshold (Otsu.runSweep twoTone 2 2) = 0) \/
   exists t, (t < 256)%nat /\
     Otsu.optimalThreshold (Otsu.runSweep twoTone 2 2) = Z.of_nat t /\
     OtsuCriterion.candidate 4 twoTone t = true /\
     Otsu.maxVariance (Otsu.runSweep twoTone 2 2)
     = OtsuCriterion.betweenClassVariance 4 twoTone t /\
     forall i, (i < t)%nat -> OtsuCriterion.candidate 4 twoTone i = true ->
       (OtsuCriterion.betweenClassVariance 4 twoTone t
        <=? OtsuCriterion.betweenClassVariance 4 twoTone i)%float = false).
Proof.
  apply (otsu_sweep_first_maximum twoTone 2 2).
  unfold isBytes, twoTone. repeat constructor; lia.
Defined.

(** ** C5 *)

(** C5 does not hold of the code: on the blob of [ringImage] (a stem
    with a ring hanging from it, 100 pixels, as component extraction
    returns it) the tracing loop never returns, whatever the fuel. *)
Theorem traceContour_ring_never_returns fuel :
  traceContour fuel ringBlob 9 93 = OutOfFuel.
Proof. apply TraceFacts.ringBlob_loops. Qed.

(** The same at the top level: detection on [ringImage] never returns. *)
Lemma detectShapes_ring_never_returns fuel startTime endTime :
  detectShapes fuel startTime endTime ringImage = OutOfFuel.
Proof. apply TraceFacts.ringImage_loops. Qed.

(** ** C6 *)

(** C6: on a [w] by [h] mask, with fuel for one pass over the pixels,
    component extraction returns blobs that partition the foreground
    (every foreground pixel occurs once in their concatenation, and
    nothing else does); each blob is one maximal 8-connected region,
    headed by its first pixel in row-major order; the first pixels are
    listed in row-major order; and every region is exactly one blob. *)
Theorem findContours_partition binaryData w h fuel :
  isMask binaryData w h -> (w * h <= fuel)%nat ->
  exists blobs,
    findContours binaryData w h fuel = Ok blobs /\
    NoDup (concat blobs) /\
    (forall p, p ∈ concat blobs <-> foreground binaryData w h p) /\
    Forall (isRegion binaryData w h) blobs /\
    StronglySorted rowMajorLt (firstPixels blobs) /\
    (forall p, foreground binaryData w h p ->
       exists i blob, blobs !! i = Some blob /\
         (forall q, q ∈ blob <-> connected binaryData w h p q) /\
         (forall j blob', blobs !! j = Some blob' -> p ∈ blob' -> j = i)).
Proof.
  intros [Hlen _] Hfuel.
  assert (Hrows : (h <= length binaryData)%nat) by lia.
  destruct (findContours_spec binaryData w h Hrows fuel Hfuel)
    as (blobs & visited & E & [H1 H2 H3 H4 H5 H6 H7 H8]).
  exists blobs. split; [exact E|]. split; [exact H3|].
  assert (Hall : forall p, p ∈ concat blobs <-> foreground binaryData w h p).
  { intros p. split; [apply H4|]. intros Hp. apply H6; [exact Hp|].
    intros Hin. inversion Hin. }
  split; [exact Hall|]. split; [exact H5|]. split; [exact H7|].
  intros p Hp. apply Hall in Hp as Hin.
  apply list_elem_of_In, in_concat in Hin as (blob & Hb & Hpb).
  apply list_elem_of_In in Hb, Hpb.
  apply list_elem_of_lookup in Hb as [i Hi].
  exists i, blob. split; [exact Hi|]. split.
  - rewrite Forall_forall in H5.
    destruct (H5 blob (list_elem_of_lookup_2 _ _ _ Hi)) as (s & _ & Hiff & _).
    apply Hiff in Hpb. intros q. rewrite Hiff. split; intros Hq.
    + eapply connected_trans; [|exact Hq]. now apply connected_sym.
    + eapply connected_trans; eauto.
  - intros j blob' Hj Hpb'. eapply concat_unique; eauto.
Qed.

Lemma findContours_partition_witness :
  exists blobs,
    findContours twoRegions 3 3 9 = Ok blobs /\
    NoDup (concat blobs) /\
    (forall p, p ∈ concat blobs <-> foreground twoRegions 3 3 p) /\
    Forall (isRegion twoRegions 3 3) blobs /\
    StronglySorted rowMajorLt (firstPixels blobs) /\
    (forall p, foreground twoRegions 3 3 p ->
       exists i blob, blobs !! i = Some blob /\
         (forall q, q ∈ blob <-> connected twoRegions 3 3 p q) /\
         (forall j blob', blobs !! j = Some blob' -> p ∈ blob' -> j = i)).
Proof.
  apply (findContours_partition twoRegions 3 3 9).
  - split; [reflexivity|].
    repeat first [apply Forall_nil_2 | apply Forall_cons_2 | split
                 | reflexivity | (left; reflexivity) | (right; reflexivity)].
  - simpl. lia.
Defined.

(** ** C7 *)

(** C7, as stated, fails: with a negative epsilon RDP does not return on
    three collinear points (the farthest-point loop finds no point, and
    the second recursive call is on the whole list again). *)
Lemma rdp_negative_epsilon_never_returns :
  ~ exists fuel out, rdp fuel collinear (-1)%float = Ok out.
Proof.
  assert (H : forall fuel, rdp fuel collinear (-1)%float = OutOfFuel).
  { induction fuel as [|fuel IH]; [reflexivity|].
    cbn [rdp]. change (length collinear <? 3)%nat with false. cbv iota.
    replace (farthest collinear) with (0%nat, 0%float)
      by (vm_compute; reflexivity).
    change (gt 0 (-1)) with true. cbv iota.
    change (drop 0 collinear) with collinear. rewrite IH.
    destruct (rdp fuel (take (0 + 1) collinear) (-1)%float) as [r1|e|] eqn:E;
      [reflexivity| |reflexivity].
    now apply rdp_noThrow in E. }
  intros (fuel & out & E). rewrite H in E. discriminate.
Qed.

(** C7 (amended): for every point list and every epsilon that is not
    negative, RDP returns (with fuel above the length of the list) a
    subsequence of the input with the same first and last point, and
    applied to its own output with the same epsilon it returns that
    output. *)
Theorem rdp_subsequence_idempotent points epsilon fuel :
  (epsilon <? 0)%float = false -> (length points < fuel)%nat ->
  exists out,
    rdp fuel points epsilon = Ok out /\
    out `sublist_of` points /\
    head out = head points /\ last out = last points /\
    rdp fuel out epsilon = Ok out.
Proof.
  intros Heps Hfuel.
  destruct (RDPFacts.rdp_spec epsilon Heps (length points) points fuel)
    as (out & E & Hs & Hi); [lia|lia|].
  exists out. split; [exact E|].
  assert (Hsub : out `sublist_of` points /\ head out = head points
                 /\ last out = last points).
  { destruct Hs as [[_ ->]|(a & mid & b & mid' & -> & -> & Hsub)].
    - repeat split; reflexivity.
    - split; [|split; [reflexivity|]].
      + apply sublist_skip, sublist_app; [assumption|reflexivity].
      + now rewrite !app_comm_cons, !last_snoc. }
  destruct Hsub as (Hsub & Hh & Hl). repeat split; auto.
  apply Hi. apply sublist_length in Hsub. lia.
Qed.

Lemma rdp_subsequence_idempotent_witness :
  exists out,
    rdp 6 bump5 0.5%float = Ok out /\
    out `sublist_of` bump5 /\
    head out = head bump5 /\ last out = last bump5 /\
    rdp 6 out 0.5%float = Ok out.
Proof.
  apply (rdp_subsequence_idempotent bump5 0.5%float 6).
  - vm_compute. reflexivity.
  - simpl. lia.
Defined.

(** ** C8 *)

(** C8: when every pixel has the same gray level, the sweep performs no
    division at all, the threshold is 0, every entry of the mask is 0,
    and detection returns an empty shapes list (with any fuel). *)
Theorem uniform_image_no_shapes img g :
  (forall v, v ∈ toGrayscale img -> v = g) ->
  let grayData := toGrayscale img in
  Otsu.divisors (Otsu.runSweep grayData (width img) (height img)) = [] /\
  Otsu.otsuThreshold grayData (width img) (height img) = 0 /\
  (forall row v, row ∈ otsuBinarize grayData (width img) (height img) ->
                 v ∈ row -> v = 0) /\
  forall fuel startTime endTime,
    detectShapes fuel startTime endTime img
    = Ok (mkResult [] (endTime - startTime)%float (width img) (height img)).
Proof.
  intros Hg grayData.
  set (n := length grayData).
  set (g' := if decide (n = 0%nat) then 0 else g).
  assert (Hrep : grayData = replicate n g').
  { unfold g'. destruct (decide (n = 0%nat)) as [E|E].
    - rewrite E. now apply length_zero_iff_nil.
    - now apply UniformFacts.all_equal_replicate. }
  assert (Hrange : 0 <= g' <= 255).
  { unfold g'. destruct (decide (n = 0%nat)) as [E|E]; [lia|].
    apply (toGrayscale_range img). fold grayData. rewrite Hrep.
    apply elem_of_replicate. auto. }
  assert (Hn : (width img * height img)%nat = n).
  { unfold n, grayData. now rewrite toGrayscale_length. }
  destruct (UniformFacts.uniform_sweep g' n (width img) (height img) Hrange Hn)
    as [Hdiv Hthr].
  rewrite <- Hrep in Hdiv, Hthr.
  assert (Hzero : forall row v,
             row ∈ otsuBinarize grayData (width img) (height img) ->
             v ∈ row -> v = 0).
  { unfold otsuBinarize. rewrite Hthr. apply UniformFacts.maskOf_zero.
    intros v Hv. apply (toGrayscale_range img) in Hv. lia. }
  split; [exact Hdiv|]. split; [exact Hthr|]. split; [exact Hzero|].
  intros fuel t0 t1. unfold detectShapes. fold grayData.
  rewrite UniformFacts.findContours_background; auto.
  unfold otsuBinarize. apply maskOf_length.
Qed.

Lemma uniform_image_no_shapes_witness :
  let grayData := toGrayscale flatImage in
  Otsu.divisors (Otsu.runSweep grayData 3 2) = [] /\
  Otsu.otsuThreshold grayData 3 2 = 0 /\
  (forall row v, row ∈ otsuBinarize grayData 3 2 -> v ∈ row -> v = 0) /\
  forall fuel startTime endTime,
    detectShapes fuel startTime endTime flatImage
    = Ok (mkResult [] (endTime - startTime)%float 3 2).
Proof.
  apply (uniform_image_no_shapes flatImage 7).
  vm_compute. intros v Hv.
  repeat (apply elem_of_cons in Hv as [->|Hv]; [reflexivity|]).
  inversion Hv.
Defined.

(** ** C9 *)

(** C9: the mask entry of a pixel is 1 exactly when the intensity of the
    pixel is strictly below the threshold chosen by the sweep, and 0
    otherwise. *)
Theorem mask_foreground_iff grayData w h y x :
  (y < h)%nat -> (x < w)%nat ->
  exists v,
    (otsuBinarize grayData w h !! y) ≫= (fun row => row !! x) = Some v /\
    (v = 1 \/ v = 0) /\
    (v = 1 <-> exists g, grayData !! (y * w + x)%nat = Some g /\
                         g < Otsu.otsuThreshold grayData w h).
Proof.
  intros Hy Hx. unfold otsuBinarize, Otsu.maskOf.
  set (thr := Otsu.otsuThreshold grayData w h).
  exists (Otsu.maskBit grayData w thr y x). split.
  - rewrite list_lookup_fmap, lookup_seq_lt by assumption. simpl.
    rewrite list_lookup_fmap, lookup_seq_lt by assumption. reflexivity.
  - unfold Otsu.maskBit. destruct (grayData !! _) as [g|].
    + destruct (Z.ltb_spec g thr).
      * split; [now left|]. split; [eauto|reflexivity].
      * split; [now right|]. split; [discriminate|].
        intros (g' & E & Hlt). inversion E; subst. lia.
    + split; [now right|]. split; [discriminate|].
      intros (g' & E & _). discriminate.
Qed.

Lemma mask_foreground_iff_witness :
  exists v,
    (otsuBinarize [0; 0; 50; 200; 200; 200] 3 2 !! 0%nat)
      ≫= (fun row => row !! 1%nat) = Some v /\
    (v = 1 \/ v = 0) /\
    (v = 1 <-> exists g, [0; 0; 50; 200; 200; 200] !! (0 * 3 + 1)%nat = Some g /\
                         g < Otsu.otsuThreshold [0; 0; 50; 200; 200; 200] 3 2).
Proof.
  apply (mask_foreground_iff [0; 0; 50; 200; 200; 200] 3 2 0 1); lia.
Defined.

(** * Further properties of the pipeline *)

Import Examples Examples2.

(** ** Grayscale conversion *)

(** X1: the grayscale buffer has one entry per pixel of the declared
    dimensions, whatever the length of the RGBA buffer; every entry is a
    byte; entry [j] is the gray level computed at offset [4 * j] when the
    buffer reaches that far, and 0 otherwise. *)
Theorem toGrayscale_entries img :
  length (toGrayscale img) = (width img * height img)%nat /\
  (forall v, v ∈ toGrayscale img -> 0 <= v <= 255) /\
  forall j, (j < width img * height img)%nat ->
    toGrayscale img !! j =
    Some (if (4 * j <? length (data img))%nat
          then grayOf (data img) (4 * j) else 0).
Proof.
  split; [apply toGrayscale_length|]. split; [apply toGrayscale_range|].
  apply toGrayscale_lookup.
Qed.

(** X2: the alpha channel plays no part: two buffers of the same length
    that agree on every red, green and blue byte give the same grayscale
    buffer. *)
Theorem toGrayscale_ignores_alpha d d' w h :
  length d = length d' ->
  (forall i, (i mod 4 <> 3)%nat -> d !! i = d' !! i) ->
  toGrayscale (mkImage d w h) = toGrayscale (mkImage d' w h).
Proof.
  intros Hlen Hrgb. unfold toGrayscale. cbn [data width height].
  rewrite Hlen.
  rewrite (map_ext (fun j => grayOf d (4 * j)) (fun j => grayOf d' (4 * j)));
    [reflexivity|].
  intros j. now apply grayOf_alpha.
Qed.

Lemma toGrayscale_ignores_alpha_witness :
  toGrayscale (mkImage opaquePixel 1 1) = toGrayscale (mkImage clearPixel 1 1).
Proof.
  apply (toGrayscale_ignores_alpha opaquePixel clearPixel 1 1).
  - reflexivity.
  - intros i Hi. do 4 (destruct i as [|i]; [first [reflexivity|now destruct Hi]|]).
    reflexivity.
Defined.

(** X3: a pixel whose red, green and blue bytes are equal keeps that
    value as its gray level. *)
Theorem toGrayscale_keeps_gray img j v :
  (j < width img * height img)%nat -> 0 <= v <= 255 ->
  data img !! (4 * j)%nat = Some v ->
  data img !! (4 * j + 1)%nat = Some v ->
  data img !! (4 * j + 2)%nat = Some v ->
  toGrayscale img !! j = Some v.
Proof.
  intros Hj Hv H0 H1 H2. rewrite toGrayscale_lookup by assumption.
  apply lookup_lt_Some in H0 as Hlt.
  destruct (Nat.ltb_spec (4 * j) (length (data img))); [|lia].
  f_equal. now apply grayOf_gray.
Qed.

Lemma toGrayscale_keeps_gray_witness :
  toGrayscale twoLevelImage !! 1%nat = Some 200.
Proof.
  apply (toGrayscale_keeps_gray twoLevelImage 1 200);
    first [reflexivity | simpl; lia].
Defined.

(** ** Otsu binarisation *)

(** X4: on a buffer of [w * h] bytes the threshold is a byte, and unless
    it is the initial 0 it is the gray level of some pixel and some
    pixel is brighter than it: an unoccupied level or the brightest
    level is never chosen. *)
Theorem otsu_threshold_occupied grayData w h :
  isBytes grayData -> length grayData = (w * h)%nat ->
  let thr := Otsu.otsuThreshold grayData w h in
  0 <= thr <= 255 /\
  (thr = 0 \/ (thr ∈ grayData /\ exists v, v ∈ grayData /\ thr < v)).
Proof. apply OtsuLevels.threshold_levels. Qed.

Lemma otsu_threshold_occupied_witness :
  let thr := Otsu.otsuThreshold sixPixels 3 2 in
  0 <= thr <= 255 /\
  (thr = 0 \/ (thr ∈ sixPixels /\ exists v, v ∈ sixPixels /\ thr < v)).
Proof.
  apply (otsu_threshold_occupied sixPixels 3 2).
  - repeat constructor; lia.
  - reflexivity.
Defined.

(** X5: an image with at most two gray levels has no foreground: the
    mask is all zeros and detection returns an empty shapes list, with
    any fuel. *)
Theorem two_level_image_no_shapes img a b :
  (forall v, v ∈ toGrayscale img -> v = a \/ v = b) ->
  (forall row v,
     row ∈ otsuBinarize (toGrayscale img) (width img) (height img) ->
     v ∈ row -> v = 0) /\
  forall fuel startTime endTime,
    detectShapes fuel startTime endTime img
    = Ok (mkResult [] (endTime - startTime)%float (width img) (height img)).
Proof.
  intros Hab.
  assert (Hzero : forall row v,
             row ∈ otsuBinarize (toGrayscale img) (width img) (height img) ->
             v ∈ row -> v = 0).
  { unfold otsuBinarize. apply maskOf_none. intros v Hv.
    destruct (OtsuLevels.threshold_levels (toGrayscale img) (width img)
                (height img) (toGrayscale_isBytes img) (toGrayscale_length img))
      as [_ [->|(Ht & u & Hu & Hlt)]].
    - apply toGrayscale_range in Hv. lia.
    - destruct (Hab _ Hv), (Hab _ Ht), (Hab _ Hu); lia. }
  split; [exact Hzero|]. intros fuel t0 t1. unfold detectShapes.
  rewrite UniformFacts.findContours_background; auto.
  unfold otsuBinarize. apply maskOf_length.
Qed.

Lemma two_level_image_no_shapes_witness :
  (forall row v, row ∈ otsuBinarize (toGrayscale twoLevelImage) 4 3 ->
                 v ∈ row -> v = 0) /\
  forall fuel startTime endTime,
    detectShapes fuel startTime endTime twoLevelImage
    = Ok (mkResult [] (endTime - startTime)%float 4 3).
Proof.
  apply (two_level_image_no_shapes twoLevelImage 10 200).
  vm_compute. intros v Hv.
  repeat (apply elem_of_cons in Hv as [->|Hv]; [auto|]).
  inversion Hv.
Defined.

(** X6: binarisation and component extraction compose: the mask is a
    [w] by [h] grid of zeros and ones whatever the buffer, and with fuel
    for one pass over the pixels the blobs are regions of the mask that
    together hold, once each, exactly the pixels of the image whose gray
    level is below the threshold. *)
Theorem pipeline_blobs_are_dark_regions img fuel :
  (width img * height img <= fuel)%nat ->
  let w := width img in
  let h := height img in
  let grayData := toGrayscale img in
  let mask := otsuBinarize grayData w h in
  isMask mask w h /\
  exists blobs,
    findContours mask w h fuel = Ok blobs /\
    NoDup (concat blobs) /\
    (forall p, p ∈ concat blobs <->
       inImage w h p /\
       exists g, grayAt grayData w p = Some g /\
                 g < Otsu.otsuThreshold grayData w h) /\
    Forall (isRegion mask w h) blobs.
Proof.
  intros Hfuel w h grayData mask.
  assert (Hmask : isMask mask w h) by apply otsuBinarize_isMask.
  split; [exact Hmask|].
  assert (Hrows : (h <= length mask)%nat) by (destruct Hmask as [-> _]; lia).
  destruct (findContours_spec mask w h Hrows fuel Hfuel)
    as (blobs & visited & E & [H1 H2 H3 H4 H5 H6 H7 H8]).
  exists blobs. split; [exact E|]. split; [exact H3|]. split; [|exact H5].
  intros p. rewrite <- foreground_dark. split; [apply H4|].
  intros Hp. apply H6; [exact Hp|]. intros Hin. inversion Hin.
Qed.

Lemma pipeline_blobs_are_dark_regions_witness :
  let w := width squareImage in
  let h := height squareImage in
  let grayData := toGrayscale squareImage in
  let mask := otsuBinarize grayData w h in
  isMask mask w h /\
  exists blobs,
    findContours mask w h 196 = Ok blobs /\
    NoDup (concat blobs) /\
    (forall p, p ∈ concat blobs <->
       inImage w h p /\
       exists g, grayAt grayData w p = Some g /\
                 g < Otsu.otsuThreshold grayData w h) /\
    Forall (isRegion mask w h) blobs.
Proof.
  apply (pipeline_blobs_are_dark_regions squareImage 196).
  simpl. lia.
Defined.

(** ** From blobs to shapes *)

(** X7: every shape of a returned result comes from a blob of component
    extraction with at least 100 pixels: its area is the number of
    pixels of the blob, its centre and bounding box are those computed
    from the blob, and the shapes are listed in the order of their
    blobs, no blob giving two shapes. *)
Theorem shapes_come_from_blobs fuel startTime endTime img r :
  detectShapes fuel startTime endTime img = Ok r ->
  exists blobs kept,
    findContours (otsuBinarize (toGrayscale img) (width img) (height img))
                 (width img) (height img) fuel = Ok blobs /\
    kept `sublist_of` blobs /\
    Forall2 shapeOfBlob (shapes r) kept.
Proof.
  unfold detectShapes. intros H.
  destruct (findContours _ _ _ fuel) as [blobs| |];
    cbn [mbind outcome_bind] in H; try discriminate.
  destruct (processBlobs fuel _ _ blobs []) as [ss| |] eqn:E;
    cbn [mbind outcome_bind] in H; try discriminate.
  inversion H; subst. cbn [shapes].
  apply (processBlobs_sub fuel _ _ shapeOfBlob) in E
    as (new & kept & -> & Hsub & HF); [|apply processBlob_shape].
  exists blobs, kept. auto.
Qed.

Lemma shapes_come_from_blobs_witness :
  exists blobs kept,
    findContours (otsuBinarize (toGrayscale squareImage) 14 14) 14 14 200
    = Ok blobs /\
    kept `sublist_of` blobs /\
    Forall2 shapeOfBlob (shapes squareResult) kept.
Proof.
  apply (shapes_come_from_blobs 200 0 1 squareImage squareResult).
  vm_compute. reflexivity.
Defined.

(** X8: the shapes of a returned result have at least 100 pixels each,
    their areas add up to at most the number of pixels of the image, and
    so there are at most [width * height / 100] of them. *)
Theorem shapes_count_bound fuel startTime endTime img r :
  detectShapes fuel startTime endTime img = Ok r ->
  Forall (fun s => (100 <= area s)%nat) (shapes r) /\
  (sum_list (area <$> shapes r) <= width img * height img)%nat /\
  (100 * length (shapes r) <= width img * height img)%nat.
Proof.
  unfold detectShapes. intros H.
  destruct (findContours _ _ _ fuel) as [blobs| |] eqn:Ec;
    cbn [mbind outcome_bind] in H; try discriminate.
  destruct (processBlobs fuel _ _ blobs []) as [ss| |] eqn:E;
    cbn [mbind outcome_bind] in H; try discriminate.
  inversion H; subst. cbn [shapes]. clear H.
  apply (processBlobs_sub fuel _ _ shapeOfBlob) in E
    as (new & kept & -> & Hsub & HF); [|apply processBlob_shape].
  cbn [app]. apply blobs_fit in Ec as (_ & _ & Hfit).
  apply sublist_concat_length in Hsub.
  assert (Hsum : sum_list (area <$> new) = length (concat kept) /\
                 Forall (fun s => (100 <= area s)%nat) new /\
                 (100 * length new <= sum_list (area <$> new))%nat).
  { clear -HF. induction HF as [|s b new kept (Ha & Hb & _) _ (IH1 & IH2 & IH3)].
    - repeat split; [constructor|simpl; lia].
    - cbn [fmap list_fmap sum_list concat length].
      rewrite length_app, <- IH1, Ha.
      split; [reflexivity|]. split; [constructor; [lia|exact IH2]|].
      unfold id in *. lia. }
  destruct Hsum as (Hs & Hall & Hcount). repeat split; [exact Hall|lia|lia].
Qed.

Lemma shapes_count_bound_witness :
  Forall (fun s => (100 <= area s)%nat) (shapes squareResult) /\
  (sum_list (area <$> shapes squareResult) <= 14 * 14)%nat /\
  (100 * length (shapes squareResult) <= 14 * 14)%nat.
Proof.
  apply (shapes_count_bound 200 0 1 squareImage squareResult).
  vm_compute. reflexivity.
Defined.

(** X9: the confidence of a shape is fixed by its label: a circle has a
    confidence above 0.95 and at most 1; a star, a pentagon and a
    triangle have 0.85; a square has 0.7, 0.9 or 0.65; a rectangle has
    0.9 or 0.65.  No shape has a confidence below 0.65. *)
Theorem confidence_follows_label fuel startTime endTime img r s :
  detectShapes fuel startTime endTime img = Ok r ->
  s ∈ shapes r ->
  confidenceRule s /\ (Lit.c0_65 <=? confidence s)%float = true.
Proof.
  intros H Hs.
  assert (Hrule : confidenceRule s).
  { unfold detectShapes in H.
    destruct (findContours _ _ _ fuel) as [blobs| |];
      cbn [mbind outcome_bind] in H; try discriminate.
    destruct (processBlobs fuel _ _ blobs []) as [ss| |] eqn:E;
      cbn [mbind outcome_bind] in H; try discriminate.
    inversion H; subst. cbn [shapes] in Hs. clear H.
    apply (processBlobs_sub fuel _ _ (fun s _ => confidenceRule s)) in E
      as (new & kept & -> & _ & HF).
    - cbn [app] in Hs. clear -HF Hs. induction HF as [|s' b new kept Hr _ IH].
      + inversion Hs.
      + apply elem_of_cons in Hs as [->|Hs]; auto.
    - clear. intros blob s. unfold processBlob.
      destruct (length blob <? 100)%nat; [discriminate|].
      destruct (traceContour fuel blob _ _) as [per| |];
        cbn [mbind outcome_bind]; try discriminate.
      destruct (lt _ Lit.c0_2); [discriminate|].
      destruct (gt _ Lit.c0_95) eqn:Ec.
      + intros H. inversion H; subst. left. cbn [type confidence].
        split; [reflexivity|]. split; [now apply confidence_circle|].
        now apply Math_min_one_range.
      + destruct (rdp fuel per _) as [vs| |]; cbn [mbind outcome_bind];
          try discriminate.
        destruct (classifyPolygon vs _) as [[ty conf]|] eqn:Ecl;
          [|discriminate].
        intros H. inversion H; subst. right. cbn [type confidence].
        eapply classifyPolygon_rule; eauto. }
  split; [exact Hrule|].
  destruct Hrule as [(_ & Hc & _)|[(_ & ->)|[(_ & Hc)|(_ & Hc)]]].
  - apply FOrderFacts.ltb_leb. eapply FOrderFacts.ltb_trans; [|exact Hc].
    reflexivity.
  - reflexivity.
  - repeat (apply elem_of_cons in Hc as [->|Hc]; [reflexivity|]).
    inversion Hc.
  - repeat (apply elem_of_cons in Hc as [->|Hc]; [reflexivity|]).
    inversion Hc.
Qed.

Lemma confidence_follows_label_witness :
  confidenceRule squareShape /\
  (Lit.c0_65 <=? confidence squareShape)%float = true.
Proof.
  apply (confidence_follows_label 200 0 1 squareImage squareResult squareShape).
  - vm_compute. reflexivity.
  - vm_compute. left.
Defined.

(** X10: on an image of fewer than 100 pixels detection returns, with
    fuel for one pass over the pixels, and finds no shape. *)
Theorem small_image_no_shapes fuel startTime endTime img :
  (width img * height img < 100)%nat ->
  (width img * height img <= fuel)%nat ->
  detectShapes fuel startTime endTime img
  = Ok (mkResult [] (endTime - startTime)%float (width img) (height img)).
Proof.
  intros Hsmall Hfuel. unfold detectShapes.
  set (m := otsuBinarize (toGrayscale img) (width img) (height img)).
  assert (Hrows : (height img <= length m)%nat).
  { unfold m, otsuBinarize. rewrite maskOf_length. lia. }
  destruct (findContours_spec m (width img) (height img) Hrows fuel Hfuel)
    as (blobs & visited & E & _).
  rewrite E. cbn [mbind outcome_bind].
  apply blobs_fit in E as (_ & _ & Hfit).
  rewrite processBlobs_rejected; [reflexivity|].
  apply Forall_forall. intros blob Hb. apply processBlob_small.
  pose proof (elem_concat_length blob blobs Hb). lia.
Qed.

Lemma small_image_no_shapes_witness :
  detectShapes 6 0 1 flatImage = Ok (mkResult [] (1 - 0)%float 3 2).
Proof.
  apply (small_image_no_shapes 6 0 1 flatImage); simpl; lia.
Defined.

(** ** Component extraction *)

(** X18: component extraction needs a mask with a row for every [y]
    below [height]: on a mask with fewer rows (and a positive width) it
    never returns a result, whatever the fuel; the read of the first
    missing row is a [TypeError]. *)
Theorem findContours_needs_all_rows binaryData w h fuel blobs :
  (length binaryData < h)%nat -> (0 < w)%nat ->
  findContours binaryData w h fuel <> Ok blobs /\
  readMask binaryData (length binaryData) 0 = Throw "TypeError".
Proof.
  intros Hrows Hw.
  assert (Hnone : binaryData !! length binaryData = None)
    by (apply lookup_ge_None; lia).
  split.
  - unfold findContours.
    destruct (scanAll binaryData w h fuel (scanOrder w h) _) as [[cs v]| |] eqn:E;
      cbn [mbind outcome_bind]; try discriminate.
    exfalso. revert E.
    apply (scanAll_missing_row _ _ _ _ _ (length binaryData) 0%nat);
      [|exact Hnone].
    apply scanOrder_elem. lia.
  - unfold readMask. now rewrite Hnone.
Qed.

Lemma findContours_needs_all_rows_witness :
  findContours [[1]] 1 2 5 <> Ok [[mkPoint 0 0]] /\
  readMask [[1]] (length [[1]]) 0 = Throw "TypeError".
Proof.
  apply (findContours_needs_all_rows [[1]] 1 2 5 [[mkPoint 0 0]]);
    simpl; lia.
Defined.

(** ** Boundary tracing *)

Import Examples3.

(** X11: tracing throws exactly on the empty blob (the [reduce] without
    initial value); on any other blob it returns or keeps running. *)
Theorem traceContour_throws_iff_empty fuel blob w h :
  (exists e, traceContour fuel blob w h = Throw e) <-> blob = [].
Proof.
  split.
  - intros [e He]. destruct blob as [|p ps]; [reflexivity|].
    exfalso. eapply (traceContour_noThrow fuel (p :: ps) w h); [|exact He].
    discriminate.
  - intros ->. exists "TypeError"%string. reflexivity.
Qed.

(** X12: a perimeter that tracing returns starts at the topmost, then
    leftmost pixel of the blob, which it holds only once; all its points
    are pixels of the blob; consecutive points are 8-neighbours; and its
    last point is an 8-neighbour of the first, unless the start pixel
    has no neighbour in the blob and the perimeter is that pixel
    alone. *)
Theorem traced_perimeter_is_closed_walk fuel blob w h per :
  traceContour fuel blob w h = Ok per ->
  exists s ext l,
    per = s :: ext /\
    s ∈ blob /\ (forall q, q ∈ blob -> s = q \/ rowMajorLt s q) /\
    (forall p, p ∈ per -> p ∈ blob) /\
    isWalk per /\ (s ∉ ext) /\ last per = Some l /\
    ((adjacent l s /\ ext <> []) \/
     (ext = [] /\ forall q, q ∈ blob -> ~ adjacent s q)).
Proof.
  intros H.
  apply TraceWalk.traceContour_spec in H
    as (s & ext & l & Hs & -> & Hin & Hw & Hns & Hl & Hend).
  apply TraceWalk.startPointOf_spec in Hs as [Hsb Hmin].
  exists s, ext, l. auto 10.
Qed.

Lemma traced_perimeter_is_closed_walk_witness :
  exists s ext l,
    block4Perimeter = s :: ext /\
    s ∈ block4 /\ (forall q, q ∈ block4 -> s = q \/ rowMajorLt s q) /\
    (forall p, p ∈ block4Perimeter -> p ∈ block4) /\
    isWalk block4Perimeter /\ (s ∉ ext) /\ last block4Perimeter = Some l /\
    ((adjacent l s /\ ext <> []) \/
     (ext = [] /\ forall q, q ∈ block4 -> ~ adjacent s q)).
Proof.
  apply (traced_perimeter_is_closed_walk 10 block4 2 2 block4Perimeter).
  vm_compute. reflexivity.
Defined.

(** X13: tracing reads the blob as a set of pixels: two blobs with the
    same pixels, in whatever order and multiplicity, give the same
    outcome, and the dimensions passed along play no part. *)
Theorem trace_depends_on_pixel_set fuel blob blob' w h w' h' :
  (forall p, p ∈ blob <-> p ∈ blob') ->
  traceContour fuel blob w h = traceContour fuel blob' w' h'.
Proof. apply TraceWalk.traceContour_ext. Qed.

Lemma trace_depends_on_pixel_set_witness :
  traceContour 10 block4 2 2 = traceContour 10 block4' 7 9.
Proof.
  apply (trace_depends_on_pixel_set 10 block4 block4' 2 2 7 9).
  intros p. unfold block4, block4'. rewrite !elem_of_cons, !elem_of_nil. tauto.
Defined.

(** X17: on a blob that is a filled rectangle at least 2 pixels wide
    and high, tracing returns once it has fuel for one turn around the
    rectangle, and the perimeter is the boundary of the rectangle,
    clockwise from the top left corner: 2 (W + H) - 4 points. *)
Theorem trace_of_filled_rectangle x0 y0 W H blob fuel w h :
  (2 <= W)%nat -> (2 <= H)%nat ->
  (forall p, p ∈ blob <-> inRect x0 y0 W H p) ->
  (2 * (W + H) - 4 <= fuel)%nat ->
  traceContour fuel blob w h = Ok (RectSides.rectPerimeter x0 y0 W H) /\
  length (RectSides.rectPerimeter x0 y0 W H) = (2 * (W + H) - 4)%nat.
Proof.
  intros HW HH Hblob Hfuel. split.
  - now apply TraceRect.rect_trace.
  - apply TraceRect.rectPerimeter_length; assumption.
Qed.

Lemma trace_of_filled_rectangle_witness :
  traceContour 4 block4 2 2 = Ok (RectSides.rectPerimeter 0 0 2 2) /\
  length (RectSides.rectPerimeter 0 0 2 2) = (2 * (2 + 2) - 4)%nat.
Proof.
  apply (trace_of_filled_rectangle 0 0 2 2 block4 4 2 2); try lia.
  intros [x y]. unfold block4, inRect. rewrite !elem_of_cons, elem_of_nil.
  cbn [px py]. split.
  - intros [E|[E|[E|[E|[]]]]]; inversion E; lia.
  - intros [Hx Hy].
    assert (Hc : (x = 0 \/ x = 1) /\ (y = 0 \/ y = 1)) by lia.
    destruct Hc as [[-> | ->] [-> | ->]]; auto.
Defined.

(** ** Ramer-Douglas-Peucker *)

(** X14: whatever the tolerance, a result that RDP returns cuts the
    input into consecutive runs between kept points, and no point inside
    a run is farther than the tolerance from the line through the two
    ends of its run; in particular every input point is kept or is
    within the tolerance of the line through two consecutive kept
    points. *)
Theorem rdp_error_bound fuel points eps out :
  rdp fuel points eps = Ok out ->
  covers eps points out /\
  forall q, q ∈ points ->
    q ∈ out \/
    exists l a b r, out = l ++ a :: b :: r /\
                    gt (pointLineDistance q a b) eps = false.
Proof.
  intros H. apply RDPBound.rdp_covers in H as [Hc _].
  split; [exact Hc|]. now apply RDPBound.covers_pointwise.
Qed.

Lemma rdp_error_bound_witness :
  covers 0.5%float bump5 bump5Out /\
  forall q, q ∈ bump5 ->
    q ∈ bump5Out \/
    exists l a b r, bump5Out = l ++ a :: b :: r /\
                    gt (pointLineDistance q a b) 0.5%float = false.
Proof.
  apply (rdp_error_bound 6 bump5 0.5%float bump5Out).
  vm_compute. reflexivity.
Defined.

(** X15: the two distance helpers never return a negative number: the
    result is NaN or at least 0 (and it is not the negative zero). *)
Theorem distances_never_negative p p1 p2 :
  signClear (Prim2SF (pointLineDistance p p1 p2)) /\
  (is_nan (pointLineDistance p p1 p2) = true \/
   (0 <=? pointLineDistance p p1 p2)%float = true) /\
  signClear (Prim2SF (dist p1 p2)) /\
  (is_nan (dist p1 p2) = true \/ (0 <=? dist p1 p2)%float = true).
Proof.
  pose proof (pointLineDistance_signClear p p1 p2) as H1.
  pose proof (dist_signClear p1 p2) as H2.
  auto using signClear_nan_or_nonneg.
Qed.

(** ** Termination of detection *)

(** X16: detection returns exactly when boundary tracing returns on
    every blob of at least 100 pixels: component extraction returns with
    fuel for one pass over the pixels, the tolerance handed to RDP is
    never negative so that RDP returns, and nothing else loops. *)
Theorem detection_returns_iff_tracing_does startTime endTime img :
  exists blobs,
    findContours (otsuBinarize (toGrayscale img) (width img) (height img))
                 (width img) (height img) (width img * height img)
    = Ok blobs /\
    ((exists fuel0, forall fuel, (fuel0 <= fuel)%nat ->
        exists r, detectShapes fuel startTime endTime img = Ok r) <->
     Forall (fun blob => (100 <= length blob)%nat ->
               exists f per,
                 traceContour f blob (width img) (height img) = Ok per)
            blobs).
Proof.
  set (m := otsuBinarize (toGrayscale img) (width img) (height img)).
  assert (Hrows : (height img <= length m)%nat).
  { unfold m, otsuBinarize. rewrite maskOf_length. lia. }
  destruct (findContours_spec m (width img) (height img) Hrows
              (width img * height img) ltac:(lia))
    as (blobs & visited & E & _).
  exists blobs. split; [exact E|]. split.
  - intros (fuel0 & Hret).
    set (fuel := Nat.max fuel0 (width img * height img)).
    destruct (Hret fuel ltac:(lia)) as [r Hr]. unfold detectShapes in Hr.
    fold m in Hr.
    rewrite (findContours_mono m _ _ _ fuel blobs E) in Hr by lia.
    cbn [mbind outcome_bind] in Hr.
    destruct (processBlobs fuel _ _ blobs []) as [ss| |] eqn:Ep;
      cbn [mbind outcome_bind] in Hr; try discriminate.
    apply processBlobs_each in Ep. eapply Forall_impl; [exact Ep|].
    intros blob [o Ho] Hlen. exists fuel. eapply processBlob_traced; eauto.
  - intros Htr. eapply detectShapes_returns; eauto.
Qed.

(** ** Bounding boxes *)

(** X19: for a blob that is not empty, with coordinates below 2^52 in
    magnitude, the bounding box is exact: its corner is the smallest x
    and the smallest y of the blob and its width and height are the
    integers [maxX - minX + 1] and [maxY - minY + 1], with no rounding;
    every point of the blob lies inside it. *)
Theorem bounding_box_exact blob :
  blob <> [] ->
  (forall p, p ∈ blob -> Z.abs (px p) < 2 ^ 52 /\ Z.abs (py p) < 2 ^ 52) ->
  exists minX maxX minY maxY,
    isBounds blob minX maxX minY maxY /\
    calculateBoundingBox blob
    = mkBox (ofZ minX) (ofZ minY)
            (ofZ (maxX - minX + 1)) (ofZ (maxY - minY + 1)).
Proof. apply BoxFacts.boundingBox_exact. Qed.

Lemma bounding_box_exact_witness :
  exists minX maxX minY maxY,
    isBounds block4 minX maxX minY maxY /\
    calculateBoundingBox block4
    = mkBox (ofZ minX) (ofZ minY)
            (ofZ (maxX - minX + 1)) (ofZ (maxY - minY + 1)).
Proof.
  apply (bounding_box_exact block4); [discriminate|].
  intros p Hp. unfold block4 in Hp.
  repeat (apply elem_of_cons in Hp as [->|Hp]; [simpl; lia|]).
  inversion Hp.
Defined.

(** X20: in a returned result (of an image less than 2^52 pixels wide
    and high) the bounding box of every shape has integer coordinates,
    lies inside the image, is at least one pixel wide and high, and has
    at least as many pixels as the area of the shape. *)
Theorem shape_boxes_lie_in_image fuel startTime endTime img r s :
  Z.of_nat (width img) < 2 ^ 52 -> Z.of_nat (height img) < 2 ^ 52 ->
  detectShapes fuel startTime endTime img = Ok r -> s ∈ shapes r ->
  exists x y bw bh,
    boundingBox s = mkBox (ofZ x) (ofZ y) (ofZ bw) (ofZ bh) /\
    0 <= x /\ 0 <= y /\ 1 <= bw /\ 1 <= bh /\
    x + bw <= Z.of_nat (width img) /\ y + bh <= Z.of_nat (height img) /\
    Z.of_nat (area s) <= bw * bh.
Proof. apply shape_box. Qed.

Lemma shape_boxes_lie_in_image_witness :
  exists x y bw bh,
    boundingBox squareShape = mkBox (ofZ x) (ofZ y) (ofZ bw) (ofZ bh) /\
    0 <= x /\ 0 <= y /\ 1 <= bw /\ 1 <= bh /\
    x + bw <= Z.of_nat (width squareImage) /\
    y + bh <= Z.of_nat (height squareImage) /\
    Z.of_nat (area squareShape) <= bw * bh.
Proof.
  apply (shape_boxes_lie_in_image 200 0 1 squareImage squareResult squareShape).
  - reflexivity.
  - reflexivity.
  - vm_compute. reflexivity.
  - vm_compute. left.
Defined.

(** ** The square test *)

(** X21: [dist] is symmetric, and the verdict of [isSquare] on four
    vertices depends neither on the vertex the list starts with nor on
    the direction in which the quadrilateral is listed. *)
Theorem isSquare_ignores_vertex_order v0 v1 v2 v3 :
  (forall p q, dist p q = dist q p) /\
  isSquare [v0; v1; v2; v3] = isSquare [v1; v2; v3; v0] /\
  isSquare [v0; v1; v2; v3] = isSquare [v3; v2; v1; v0].
Proof.
  split; [apply SquareFacts.dist_sym|]. split.
  - apply SquareFacts.isSquare_rotate.
  - apply SquareFacts.isSquare_reverse.
Qed.

(** ** The point-to-line distance and straight runs *)

(** X22: on points whose coordinates are below 2^25 in magnitude the
    numerator of [pointLineDistance] and the number under its square
    root are computed without any rounding error: the result is the
    integer [|cross|] divided by the square root of the integer squared
    length of the segment, and only these two operations round. *)
Theorem pointLineDistance_exact_numerator p p1 p2 :
  smallPoint p -> smallPoint p1 -> smallPoint p2 ->
  pointLineDistance p p1 p2
  = (ofZ (Z.abs (cross p p1 p2))
     / sqrt (ofZ ((py p2 - py p1) * (py p2 - py p1)
                  + (px p2 - px p1) * (px p2 - px p1))))%float.
Proof. apply CrossFacts.pointLineDistance_two_roundings. Qed.

Lemma pointLineDistance_exact_numerator_witness :
  pointLineDistance (mkPoint 1 5) (mkPoint 0 0) (mkPoint 3 4)
  = (ofZ 11 / sqrt (ofZ 25))%float.
Proof.
  apply (pointLineDistance_exact_numerator
           (mkPoint 1 5) (mkPoint 0 0) (mkPoint 3 4));
    unfold smallPoint; simpl; lia.
Defined.

(** X23: RDP reduces a straight run to its two end points: when the
    list has at least three points, all with coordinates below 2^25 in
    magnitude and all on the line through the first and the last point,
    and epsilon is not negative, the call returns the first and the last
    point at the first level of recursion. *)
Theorem rdp_collapses_straight_run fuel points epsilon a b :
  (3 <= length points)%nat -> head points = Some a -> last points = Some b ->
  (forall q, q ∈ points -> smallPoint q /\ cross q a b = 0) ->
  gt 0 epsilon = false ->
  rdp (S fuel) points epsilon = Ok [a; b].
Proof.
  intros Hlen Hh Hl Hall Heps.
  assert (Ha : a ∈ points).
  { destruct points as [|x l]; [discriminate|]. inversion Hh; subst. left. }
  assert (Hb : b ∈ points).
  { apply last_Some in Hl as [l' ->]. apply elem_of_app. right. left. }
  apply (CrossFacts.rdp_flat_list fuel points epsilon a b); auto.
  intros q Hq. destruct (Hall q Hq) as [Hs Hc].
  apply CrossFacts.collinear_not_far; auto; now apply Hall.
Qed.

Lemma rdp_collapses_straight_run_witness :
  rdp 1 [mkPoint 0 0; mkPoint 2 1; mkPoint 4 2; mkPoint 6 3] 0%float
  = Ok [mkPoint 0 0; mkPoint 6 3].
Proof.
  apply (rdp_collapses_straight_run 0
           [mkPoint 0 0; mkPoint 2 1; mkPoint 4 2; mkPoint 6 3] 0%float
           (mkPoint 0 0) (mkPoint 6 3)).
  - simpl. lia.
  - reflexivity.
  - reflexivity.
  - intros q Hq.
    repeat (apply elem_of_cons in Hq as [->|Hq];
            [unfold smallPoint, cross; simpl; lia|]).
    inversion Hq.
  - reflexivity.
Defined.

(** X24: RDP reduces a closed polyline to a single repeated point: when
    the list has at least three points, its last point equals its first
    and epsilon is not negative, every distance is NaN, no point is ever
    farther than the initial 0, and the call returns the first point
    twice, whatever the points in between are. *)
Theorem rdp_closed_polyline fuel points epsilon a :
  (3 <= length points)%nat -> head points = Some a -> last points = Some a ->
  gt 0 epsilon = false ->
  rdp (S fuel) points epsilon = Ok [a; a].
Proof.
  intros Hlen Hh Hl Heps.
  apply (CrossFacts.rdp_flat_list fuel points epsilon a a); auto.
  intros q _. rewrite pointLineDistance_coincident. apply gt_nan_l.
Qed.

Lemma rdp_closed_polyline_witness :
  rdp 1 [mkPoint 0 0; mkPoint 9 0; mkPoint 9 9; mkPoint 0 9; mkPoint 0 0]
      1%float
  = Ok [mkPoint 0 0; mkPoint 0 0].
Proof.
  apply (rdp_closed_polyline 0
           [mkPoint 0 0; mkPoint 9 0; mkPoint 9 9; mkPoint 0 9; mkPoint 0 0]
           1%float (mkPoint 0 0)).
  - simpl. lia.
  - reflexivity.
  - reflexivity.
  - reflexivity.
Defined.
